(** * LovingSpeechAroundtheWorld: ledger, relay pipeline, registry, selector

    A shallow embedding of the coordination core of the repository:

    - [src/lib/crypto.js]       ([hashPayload], [buildBlockHash])
    - [src/lib/blockchain.js]   ([createGenesisBlock], [BlockStore])
    - [src/lib/relaySelector.js] ([scoreRelay], [selectBestRelay])
    - [src/lib/sync.js]         ([chooseRelay])
    - [modes/directory/state.js] ([compareManifests], [DirectoryState])
    - [modes/relay/state.js]    ([RelayState]: queue worker, pre-write sync)

    JavaScript objects are finite maps from property names to JSON values;
    exceptions are an explicit [Throws] outcome; the persistent stores are
    passed explicitly.  Wall-clock time, random identifiers and network
    replies are inputs of the functions that consume them.  Numbers are
    rationals; where the result of an arithmetic operation decides what the
    code does next (block indices, relay scores) the operation is rounded
    to binary64 as the engine rounds it ([Double.round]). *)

From stdpp Require Import base option list gmap strings pretty.
From Stdlib Require Import Ascii ZArith QArith Qminmax Qround Lqa Lia.

Set Default Proof Using "Type".
Open Scope string_scope.
Open Scope list_scope.

(* ===================================================================== *)
(** ** JSON values and JavaScript objects *)
(* ===================================================================== *)

#[warnings="-register-all"]
Inductive value : Type :=
  | VNull
  | VBool (b : bool)
  | VNum (q : Q)
  | VStr (s : string)
  | VArr (l : list value)
  | VObj (o : gmap string value).

(** A JavaScript object: property name to value.  A property that is absent
    reads as [undefined], here [None]. *)
Abbreviation object := (gmap string value).

(** Outcome of a call: a returned value or a thrown error. *)
Record Error : Type := mkError {
  message : string;
  statusCode : option Z;     (* [err.statusCode], unset on a plain Error *)
  retryable : bool           (* [err.retryable], falsy when unset *)
}.

Inductive outcome (A : Type) : Type :=
  | Returns (a : A)
  | Throws (e : Error).
Arguments Returns {A} a.
Arguments Throws {A} e.

Definition plainError (msg : string) : Error :=
  {| message := msg; statusCode := None; retryable := false |}.

(** [{ ...a, ...b }]: the properties of [b] win over those of [a]. *)
Definition spread2 (a b : object) : object := b ∪ a.

(** Truthiness of a property read ([!x], [x || y]). *)
Definition truthy (v : option value) : bool :=
  match v with
  | None | Some VNull => false
  | Some (VBool b) => b
  | Some (VNum q) => negb (Qeq_bool q 0)
  | Some (VStr s) => negb (String.eqb s "")
  | Some (VArr _) | Some (VObj _) => true
  end.

(** [a === b] on property reads: primitive values are compared by value.
    Arrays and objects are compared by reference, which a map of values does
    not record; they are taken to be distinct references, as two separately
    parsed values are.  Statements that depend on this comparison are made
    for primitive operands (an onion that is a string, hashes that are
    strings), where the reference plays no part. *)
Definition strictEq (a b : option value) : bool :=
  match a, b with
  | None, None => true
  | Some VNull, Some VNull => true
  | Some (VBool x), Some (VBool y) => Bool.eqb x y
  | Some (VNum x), Some (VNum y) => Qeq_bool x y
  | Some (VStr x), Some (VStr y) => String.eqb x y
  | _, _ => false
  end.

(* ===================================================================== *)
(** ** Number arithmetic: rounding to binary64 *)
(* ===================================================================== *)

Module Double.

(** [n / d] rounded to the nearest integer, a tie to the even one
    ([n >= 0], [d > 0]). *)
Definition nearestEven (n d : Z) : Z :=
  let q := (n / d)%Z in
  let r := (n mod d)%Z in
  if (2 * r <? d)%Z then q
  else if (d <? 2 * r)%Z then (q + 1)%Z
  else if Z.even q then q else (q + 1)%Z.

(** [floor (log2 (n / d))] for positive [n] and [d]. *)
Definition binade (n d : Z) : Z :=
  let e := (Z.log2 n - Z.log2 d)%Z in
  if (n * 2 ^ Z.max 0 (- e) <? d * 2 ^ Z.max 0 e)%Z then (e - 1)%Z else e.

(** Significand [m] and exponent [p] of the binary64 value [m * 2 ^ p]
    nearest to [n / d] ([n], [d] positive): 53 significant bits, no
    exponent of the last place below [-1074], ties to the even
    significand. *)
Definition roundPos (n d : Z) : Z * Z :=
  let p := Z.max (binade n d - 52) (-1074) in
  (nearestEven (n * 2 ^ Z.max 0 (- p)) (d * 2 ^ Z.max 0 p), p).

Definition toQ (mp : Z * Z) : Q :=
  (mp.1 * 2 ^ Z.max 0 mp.2)%Z # Z.to_pos (2 ^ Z.max 0 (- mp.2)).

(** The result of an arithmetic operation whose exact value is [x], and the
    value of a decimal literal [x].  Overflow to [Infinity] (values beyond
    about 1.8e308) is not modelled: one more than a block index, and the
    score of a relay with binary64 metrics, stay below it.  The sign of a
    zero is not kept; no comparison tells the two zeros apart. *)
Definition round (x : Q) : Q :=
  match Qnum x with
  | Z0 => 0
  | Zpos n => toQ (roundPos (Zpos n) (Zpos (Qden x)))
  | Zneg n => - toQ (roundPos (Zpos n) (Zpos (Qden x)))
  end.

(** [i + 1] on an integer-valued number; the result is integer-valued. *)
Definition succ (i : Z) : Z := Qfloor (round (inject_Z i + 1)).

End Double.

(* ===================================================================== *)
(** ** Block ledger: crypto.js and blockchain.js *)
(* ===================================================================== *)

Module Ledger.

Record Letter : Type := mkLetter {
  ownerFingerprint : string;
  payload : value
}.

Record Block : Type := mkBlock {
  index : Z;
  timestamp : string;
  previousHash : option string;      (* [null] on the genesis block *)
  letters : list Letter;
  relayMetrics : value;
  summary : string;
  hash : string
}.

Definition Letter_toValue (l : Letter) : value :=
  VObj (list_to_map [("ownerFingerprint", VStr (ownerFingerprint l));
                     ("payload", payload l)]).

(** The block as the object literal the code builds. *)
Definition Block_toObject (b : Block) : object :=
  <["index" := VNum (inject_Z (index b))]>
    (<["timestamp" := VStr (timestamp b)]>
       (<["previousHash" := from_option VStr VNull (previousHash b)]>
          (<["letters" := VArr (Letter_toValue <$> letters b)]>
             (<["relayMetrics" := relayMetrics b]>
                (<["summary" := VStr (summary b)]>
                   (<["hash" := VStr (hash b)]> ∅)))))).

Definition set_hash (h : string) (b : Block) : Block :=
  {| index := index b; timestamp := timestamp b;
     previousHash := previousHash b; letters := letters b;
     relayMetrics := relayMetrics b; summary := summary b; hash := h |}.

Inductive validation : Type :=
  | Valid
  | Invalid (reason : string).

Record SyncResult : Type := mkSyncResult {
  updated : bool;
  sync_message : string
}.

Section WithRuntime.

(** The two runtime primitives under [hashPayload]: [JSON.stringify] and
    SHA-256 with hex output ([node:crypto]). *)
Variable JSON_stringify : value -> string.
Variable sha256_hex : string -> string.

Definition hashPayload (payload : value) : string :=
  sha256_hex (JSON_stringify payload).

(** [const copy = { ...block }; delete copy.hash; return hashPayload(copy)] *)
Definition buildBlockHash (block : object) : string :=
  let copy := spread2 ∅ block in
  let copy := delete "hash" copy in
  hashPayload (VObj copy).

(** [createGenesisBlock()], with [new Date().toISOString()] as [now]. *)
Definition createGenesisBlock (now : string) : Block :=
  let block := {| index := 0; timestamp := now; previousHash := None;
                  letters := []; relayMetrics := VObj ∅;
                  summary := "Genesis block"; hash := "" |} in
  set_hash (buildBlockHash (Block_toObject block)) block.

(** [BlockStore.init]: an empty store receives a fresh genesis block. *)
Definition init (now : string) (blocks : list Block) : list Block :=
  match blocks with
  | [] => [createGenesisBlock now]
  | _ => blocks
  end.

Definition getLatestBlock (blocks : list Block) : option Block := last blocks.

(** [BlockStore.appendLetterBlock]; the second component is the stored
    chain after the call.  The index is the double [previousBlock.index +
    1].  Strings are byte strings here and [slice(0, 8)] counts UTF-16
    units, so [summary] is the code's for fingerprints of ASCII characters
    (a fingerprint is a hex digest); no statement below reads [summary]. *)
Definition appendLetterBlock (now : string) (letterPayload : value)
    (ownerFingerprint : string) (relayMetrics : value)
    (blocks : list Block) : outcome Block * list Block :=
  match last blocks with
  | None =>
      (Throws (plainError
         "Cannot read properties of undefined (reading 'index')"), blocks)
  | Some previousBlock =>
      let block :=
        {| index := Double.succ (index previousBlock);
           timestamp := now;
           previousHash := Some (hash previousBlock);
           letters := [ {| ownerFingerprint := ownerFingerprint;
                           payload := letterPayload |} ];
           relayMetrics := relayMetrics;
           summary := "Love letter for " +:+ String.substring 0 8 ownerFingerprint;
           hash := "" |} in
      let block := set_hash (buildBlockHash (Block_toObject block)) block in
      (Returns block, blocks ++ [block])
  end.

(** The loop of [BlockStore.validateChain]; [prev] is [blocks[i - 1]],
    absent at [i = 0]. *)
Fixpoint validateFrom (prev : option Block) (blocks : list Block)
    : validation :=
  match blocks with
  | [] => Valid
  | block :: rest =>
      let computedHash :=
        buildBlockHash (spread2 ∅ (delete "hash" (Block_toObject block))) in
      if negb (String.eqb computedHash (hash block)) then
        Invalid ("Hash mismatch at index " +:+ pretty (index block))
      else
        match prev with
        | Some p =>
            if negb (bool_decide (previousHash block = Some (hash p))) then
              Invalid ("Broken link at index " +:+ pretty (index block))
            else validateFrom (Some block) rest
        | None => validateFrom (Some block) rest
        end
  end.

Definition validateChain (blocks : list Block) : validation :=
  match blocks with
  | [] => Invalid "Empty chain"
  | _ => validateFrom None blocks
  end.

(** [BlockStore.syncFromRemote(remoteBlocks, { force })]; the second
    component is the stored chain after the call. *)
Definition syncFromRemote (remoteBlocks : list Block) (force : bool)
    (localBlocks : list Block) : outcome SyncResult * list Block :=
  match validateChain remoteBlocks with
  | Invalid reason =>
      (Throws (plainError ("Remote chain invalid: " +:+ reason)), localBlocks)
  | Valid =>
      if negb force && (length remoteBlocks <=? length localBlocks)%nat then
        (Returns {| updated := false;
                    sync_message := "Remote chain not longer than local" |},
         localBlocks)
      else
        (Returns {| updated := true;
                    sync_message :=
                      if force then "Chain replaced with remote copy (forced)"
                      else "Chain replaced with remote copy" |},
         remoteBlocks)
  end.

Definition getGenesisHash (blocks : list Block) : option string :=
  hash <$> head blocks.

(** One element of [getManifest()]: [{ index, hash, timestamp }]. *)
Record ManifestEntry : Type := mkManifestEntry {
  entry_index : Z;
  entry_hash : string;
  entry_timestamp : string
}.

Definition ManifestEntry_toValue (e : ManifestEntry) : value :=
  VObj (<["index" := VNum (inject_Z (entry_index e))]>
          (<["hash" := VStr (entry_hash e)]>
             (<["timestamp" := VStr (entry_timestamp e)]> ∅))).

(** [BlockStore.getManifest] *)
Definition getManifest (blocks : list Block) : list ManifestEntry :=
  (fun block => {| entry_index := index block; entry_hash := hash block;
                   entry_timestamp := timestamp block |}) <$> blocks.

(** [BlockStore.computeChecksum] *)
Definition computeChecksum (blocks : list Block) : string :=
  hashPayload (VArr (ManifestEntry_toValue <$> getManifest blocks)).

(** Result of [getChainSummary()]; [summary_length] is its [length]. *)
Record ChainSummary : Type := mkChainSummary {
  summary_length : nat;
  hashes : list string;
  latestHash : option string;          (* [null] on an empty chain *)
  checksum : string
}.

(** [BlockStore.getChainSummary] *)
Definition getChainSummary (blocks : list Block) : ChainSummary :=
  let hashes := hash <$> blocks in
  {| summary_length := length blocks;
     hashes := hashes;
     latestHash := last hashes;
     checksum := computeChecksum blocks |}.

(** The summary as the JSON object a heartbeat carries. *)
Definition ChainSummary_toValue (s : ChainSummary) : value :=
  VObj (<["length" := VNum (inject_Z (Z.of_nat (summary_length s)))]>
          (<["hashes" := VArr (VStr <$> hashes s)]>
             (<["latestHash" := from_option VStr VNull (latestHash s)]>
                (<["checksum" := VStr (checksum s)]> ∅)))).

(** [BlockStore.findLettersByFingerprint]: the [{ block, letter }] pairs. *)
Definition findLettersByFingerprint (fingerprint : string)
    (blocks : list Block) : list (Block * Letter) :=
  filter (fun entry : Block * Letter =>
            ownerFingerprint entry.2 = fingerprint)
    (blocks ≫= fun block => (fun letter => (block, letter)) <$> letters block).

(** One element of [searchLetters]; [found_payload] is [undefined] unless
    metadata was asked for. *)
Record SearchEntry : Type := mkSearchEntry {
  blockIndex : Z;
  found_timestamp : string;
  found_ownerFingerprint : string;
  found_payload : option value
}.

(** [searchLetters(blocks, fingerprint, includeMetadata = false)] *)
Definition searchLetters (blocks : list Block) (fingerprint : string)
    (includeMetadata : bool) : list SearchEntry :=
  filter (fun entry : SearchEntry => found_ownerFingerprint entry = fingerprint)
    (blocks ≫= fun block =>
       (fun letter =>
          {| blockIndex := index block;
             found_timestamp := timestamp block;
             found_ownerFingerprint := ownerFingerprint letter;
             found_payload :=
               if includeMetadata then Some (payload letter) else None |})
         <$> letters block).

(** One submitted letter together with the clock reading of its append. *)
Record Submission : Type := mkSubmission {
  submittedAt : string;
  submittedPayload : value;
  submittedOwner : string;
  submittedMetrics : value
}.

(** Successive [appendLetterBlock] calls on one store. *)
Definition appendAll (submissions : list Submission) (blocks : list Block)
    : list Block :=
  foldl (fun chain s =>
           (appendLetterBlock (submittedAt s) (submittedPayload s)
              (submittedOwner s) (submittedMetrics s) chain).2)
    blocks submissions.

(** The block carries the hash of its own content. *)
Definition sealed (block : Block) : Prop :=
  hash block = buildBlockHash (Block_toObject block).

(** Every block after the first names its predecessor's hash. *)
Definition linked (blocks : list Block) : Prop :=
  ∀ (i : nat) (prev block : Block),
    blocks !! i = Some prev → blocks !! S i = Some block →
    previousHash block = Some (hash prev).

(** Block [i] of the chain has [index = i]. *)
Definition numbered (chain : list Block) : Prop :=
  ∀ (i : nat) (b : Block), chain !! i = Some b → index b = Z.of_nat i.

End WithRuntime.

End Ledger.

(* ===================================================================== *)
(** ** Relay selector: relaySelector.js *)
(* ===================================================================== *)

Module Selector.

(** The properties of a registry entry that the selector and its callers
    read.  [None] is a property that is missing or [null]; the numbers are
    the binary64 values the engine holds. *)
Record Relay : Type := mkRelay {
  onion : option string;
  publicUrl : option string;
  latencyMs : option Q;
  reachability : option Q;
  chainFreshness : option Q;
  gfwBlocked : option bool
}.


(** [scoreRelay(relay)] as the engine evaluates it: the same expression,
    left to right, with the quotient, the difference, each product and each
    sum rounded to binary64; [0.2] is the binary64 value of that literal
    ([0.5], [0.25], [1500] and [3000] are binary64 values as written). *)
Definition scoreRelay64 (relay : option Relay) : Q :=
  match relay with
  | None => 0
  | Some relay =>
      let latency := default 1500 (latencyMs relay) in
      let latencyScore :=
        Qmax 0 (Double.round (1 - Double.round (Qmin latency 3000 / 3000))) in
      let reachabilityScore := default (1 # 2) (reachability relay) in
      let freshnessScore := default (1 # 2) (chainFreshness relay) in
      let gfwPenalty :=
        if default false (gfwBlocked relay) then Double.round (2 # 10) else 1 in
      Double.round
        (Double.round
           (Double.round
              (Double.round (latencyScore * (1 # 2))
               + Double.round (reachabilityScore * (1 # 4)))
            + Double.round (freshnessScore * (1 # 4)))
         * gfwPenalty)
  end.

Record Scored : Type := mkScored {
  relay : Relay;
  score : Q
}.

(** [Array.prototype.sort] is stable: insertion keeps an element in front of
    the later elements it does not compare greater than.  The comparator's
    own subtraction is left exact: the rounded difference of two binary64
    values has the sign of their difference. *)
Fixpoint insertBy (cmp : Scored -> Scored -> Q) (x : Scored)
    (sorted : list Scored) : list Scored :=
  match sorted with
  | [] => [x]
  | y :: rest =>
      if Qle_bool (cmp x y) 0 then x :: y :: rest
      else y :: insertBy cmp x rest
  end.

Definition sortBy (cmp : Scored -> Scored -> Q) (l : list Scored)
    : list Scored :=
  foldr (insertBy cmp) [] l.

(** [selectBestRelay(relays)]; [None] is [undefined]. *)
Definition selectBestRelay (relays : list Relay) : option Relay :=
  head (relay <$>
          sortBy (fun a b => score b - score a)
            ((fun relay =>
                {| relay := relay; score := scoreRelay64 (Some relay) |})
               <$> relays)).

(** The score as the specification words it: a latency that is missing or
    not positive counts as 1500 ms. *)
Definition spec_scoreRelay (relay : Relay) : Q :=
  let latency :=
    match latencyMs relay with
    | Some l => if Qle_bool l 0 then 1500 else l
    | None => 1500
    end in
  let latencyScore := Qmax 0 (1 - Qmin latency 3000 / 3000) in
  let reachabilityScore := default (1 # 2) (reachability relay) in
  let freshnessScore := default (1 # 2) (chainFreshness relay) in
  let gfwPenalty := if default false (gfwBlocked relay) then 2 # 10 else 1 in
  ((1 # 2) * latencyScore + (1 # 4) * reachabilityScore
   + (1 # 4) * freshnessScore) * gfwPenalty.

End Selector.

(* ===================================================================== *)
(** ** Relay registry: modes/directory/state.js *)
(* ===================================================================== *)

Module Directory.

(** Contents of [directory-state.json] as cached by the store. *)
Record State : Type := mkState {
  relays : list object;
  canonicalManifest : value
}.

Definition defaults : State :=
  {| relays := [];
     canonicalManifest :=
       VObj (list_to_map [("hashes", VArr []); ("length", VNum 0);
                          ("checksum", VStr ""); ("latestHash", VStr "")]) |}.

(** What one call reads from the clock and the random generator. *)
Record Env : Type := mkEnv {
  now : string;               (* [new Date().toISOString()] *)
  stamp36 : string;           (* [Date.now().toString(36)] *)
  random36 : string           (* [Math.random().toString(36).substring(2, 15)] *)
}.

(** Result of [compareManifests]. *)
Inductive Comparison : Type :=
  | Matches                            (* [{ matches: true }] *)
  | Missing (hashes : list value)      (* [{ matches: false, missing }] *)
  | DivergeAt (i : nat)                (* [{ matches: false, divergeAt }] *)
  | MissingCount (n : nat).            (* [{ matches: false, missingCount }] *)

(** [o[key] = v] where [v] may be [undefined]. *)
Definition setProp (key : string) (v : option value) (o : object) : object :=
  match v with
  | Some v => <[key := v]> o
  | None => delete key o
  end.

(** Own enumerable properties copied by [{ ...v }]. *)
Definition ownProps (v : option value) : object :=
  match v with
  | Some (VObj o) => o
  | Some (VArr l) => list_to_map (imap (fun i x => (pretty i, x)) l)
  | Some (VStr s) =>
      list_to_map (imap (fun i c => (pretty i, VStr (String c EmptyString)))
                     (String.list_ascii_of_string s))
  | _ => ∅
  end.

(** [m?.hashes] as a sequence: an array, or the characters of a string.  A
    number, a boolean, [null] or a missing property has no [length].  An
    object that carries a [length] property of its own is not modelled (it
    is read here as having none): statements about the comparison are made
    for manifests typed as in the data model ([typedManifest] below), whose
    [hashes] is an array of strings. *)
Definition hashesOf (m : option value) : list value :=
  match m with
  | Some (VObj o) =>
      match o !! "hashes" with
      | Some (VArr l) => l
      | Some (VStr s) =>
          (fun c => VStr (String c EmptyString)) <$> String.list_ascii_of_string s
      | _ => []
      end
  | _ => []
  end.

(** The loop of [compareManifests]: first index below both lengths at which
    the entries differ under [!==].  Entries are hash strings. *)
Fixpoint firstDivergence (i : nat) (canonical candidate : list value)
    : option nat :=
  match canonical, candidate with
  | c :: canonical', r :: candidate' =>
      if negb (strictEq (Some c) (Some r)) then Some i
      else firstDivergence (S i) canonical' candidate'
  | _, _ => None
  end.

Definition compareManifests (canonical candidate : option value)
    : Comparison :=
  let ch := hashesOf canonical in
  if (length ch =? 0)%nat then Matches
  else
    let rh := hashesOf candidate in
    if (length rh =? 0)%nat then Missing ch
    else
      match firstDivergence 0 ch rh with
      | Some i => DivergeAt i
      | None =>
          if (length rh <? length ch)%nat
          then MissingCount (length ch - length rh)
          else Matches
      end.

Definition Comparison_toValue (c : Comparison) : value :=
  match c with
  | Matches => VObj {[ "matches" := VBool true ]}
  | Missing hs =>
      VObj (list_to_map [("matches", VBool false); ("missing", VArr hs)])
  | DivergeAt i =>
      VObj (list_to_map [("matches", VBool false);
                         ("divergeAt", VNum (inject_Z (Z.of_nat i)))])
  | MissingCount n =>
      VObj (list_to_map [("matches", VBool false);
                         ("missingCount", VNum (inject_Z (Z.of_nat n)))])
  end.

(** [Boolean(comparison.missingCount)] *)
Definition needsSyncOf (c : Comparison) : bool :=
  match c with
  | MissingCount n => negb (n =? 0)%nat
  | _ => false
  end.

(** [comparison.matches === false && !comparison.missingCount] *)
Definition needsRepairOf (c : Comparison) : bool :=
  match c with
  | Matches => false
  | Missing _ | DivergeAt _ => true
  | MissingCount n => (n =? 0)%nat
  end.

Definition syncStatusOf (c : Comparison) : value :=
  VObj (list_to_map [("needsSync", VBool (needsSyncOf c));
                     ("needsRepair", VBool (needsRepairOf c));
                     ("details", Comparison_toValue c)]).

(** [v.length] on a value that is neither [null] nor [undefined]. *)
Definition lengthProp (v : value) : option value :=
  match v with
  | VObj o => o !! "length"
  | VArr l => Some (VNum (inject_Z (Z.of_nat (length l))))
  | VStr s => Some (VNum (inject_Z (Z.of_nat (String.length s))))
  | _ => None
  end.

(** [x ?? 0] *)
Definition orZero (x : option value) : value :=
  match x with
  | None | Some VNull => VNum 0
  | Some v => v
  end.

(** [a > b] on numbers.  JavaScript converts operands that are not numbers
    before it compares them; that conversion is not modelled (the answer
    here is [false]): statements about the comparison are made for
    manifests typed as in the data model ([typedManifest] below), whose
    [length] is a number. *)
Definition jsGt (a b : value) : bool :=
  match a, b with
  | VNum x, VNum y => negb (Qle_bool x y)
  | _, _ => false
  end.

Definition typeError (msg : string) : Error := plainError msg.

(** [updateCanonicalManifest(currentManifest, candidateSummary = {})] *)
Definition updateCanonicalManifest (currentManifest : value)
    (candidateSummary : option value) : outcome value :=
  let candidateSummary := default (VObj ∅) candidateSummary in
  if negb (truthy (Some candidateSummary)) then Returns currentManifest
  else
    match currentManifest with
    | VNull =>
        Throws (typeError "Cannot read properties of null (reading 'length')")
    | _ =>
        if jsGt (orZero (lengthProp candidateSummary))
                (orZero (lengthProp currentManifest))
        then Returns candidateSummary
        else Returns currentManifest
    end.

(** ASCII upper-casing, as [toUpperCase] acts on the characters that
    [generateFingerprint] produces. *)
Definition upperAscii (c : Ascii.ascii) : Ascii.ascii :=
  let n := Ascii.nat_of_ascii c in
  if (97 <=? n)%nat && (n <=? 122)%nat then Ascii.ascii_of_nat (n - 32) else c.

Definition toUpperCase (s : string) : string :=
  String.string_of_list_ascii (upperAscii <$> String.list_ascii_of_string s).

(** [generateFingerprint(onion)]: [onion?.substring(0, 16) || 'unknown'];
    a value without a [substring] method makes the call throw. *)
Definition generateFingerprint (env : Env) (onion : option value)
    : outcome string :=
  let build (hash : string) :=
    Returns (toUpperCase (hash +:+ "-" +:+ stamp36 env +:+ "-" +:+ random36 env)) in
  match onion with
  | None | Some VNull => build "unknown"
  | Some (VStr s) =>
      let prefix := String.substring 0 16 s in
      build (if String.eqb prefix "" then "unknown" else prefix)
  | Some _ => Throws (typeError "onion?.substring is not a function")
  end.

(** The tail of [upsertRelay], once [existing] is built: canonical manifest,
    sync status, replacement in the list, store update.  [pushed] tells
    whether [existing] was appended to [state.relays] (the draft and the
    cached state share that array, and the appended element is [existing]
    itself). *)
Definition finishUpsert (st : State) (pushed : bool) (existing : object)
    : outcome object * State :=
  match updateCanonicalManifest (canonicalManifest st)
          (existing !! "chainSummary") with
  | Throws e =>
      (Throws e,
       {| relays := if pushed then relays st ++ [existing] else relays st;
          canonicalManifest := canonicalManifest st |})
  | Returns canonical =>
      let comparison :=
        compareManifests (Some canonical) (existing !! "chainSummary") in
      let existing := <["syncStatus" := syncStatusOf comparison]> existing in
      let relays0 := if pushed then relays st ++ [existing] else relays st in
      let relays1 :=
        (fun relay : object =>
           if strictEq (relay !! "onion") (existing !! "onion")
           then existing else relay) <$> relays0 in
      (Returns existing,
       {| relays := relays1; canonicalManifest := canonical |})
  end.

(** [DirectoryState.upsertRelay(payload)] *)
Definition upsertRelay (env : Env) (payload : object) (st : State)
    : outcome object * State :=
  match
    list_find (fun relay : object =>
                 strictEq (relay !! "onion") (payload !! "onion") = true)
      (relays st)
  with
  | Some (_, existing) =>
      let existing :=
        <["lastSeen" := VStr (now env)]>
          (<["connectionMeta" :=
               VObj (spread2 (ownProps (existing !! "connectionMeta"))
                             (ownProps (payload !! "connectionMeta")))]>
             (spread2 existing payload)) in
      finishUpsert st false existing
  | None =>
      let resolved :=
        if truthy (payload !! "fingerprint")
        then Returns (default VNull (payload !! "fingerprint"))
        else match generateFingerprint env (payload !! "onion") with
             | Returns s => Returns (VStr s)
             | Throws e => Throws e
             end in
      match resolved with
      | Throws e => (Throws e, st)
      | Returns resolvedFingerprint =>
          let existing :=
            <["fingerprint" := resolvedFingerprint]>
              (spread2
                 (setProp "id" (payload !! "onion")
                    (list_to_map [("createdAt", VStr (now env));
                                  ("lastSeen", VStr (now env))]))
                 payload) in
          finishUpsert st true existing
      end
  end.


(** [manifest.length ?? 0] of a typed manifest, as a number. *)
Definition manifestLength (m : value) : Q :=
  match orZero (lengthProp m) with
  | VNum q => q
  | _ => 0
  end.


(** [relay.syncStatus.needsSync] and [relay.syncStatus.needsRepair]. *)
Definition syncFlag (flag : string) (relay : object) : option value :=
  match relay !! "syncStatus" with
  | Some (VObj status) => status !! flag
  | _ => None
  end.





(** Some registered relay has the payload's onion. *)
Definition registered (payload : object) (st : State) : Prop :=
  ∃ relay : object,
    relay ∈ relays st
    ∧ strictEq (relay !! "onion") (payload !! "onion") = true.

(** [a ?? b] *)
Definition coalesce (a b : option value) : option value :=
  match a with
  | None | Some VNull => b
  | Some _ => a
  end.

(** [DirectoryState.getRelayByOnion(onion)]; [None] is [undefined]. *)
Definition getRelayByOnion (onion : option value) (st : State)
    : option object :=
  snd <$> list_find (fun relay : object =>
                       strictEq (relay !! "onion") onion = true)
            (relays st).

(** [DirectoryState.setCanonicalManifest(summary)] *)
Definition setCanonicalManifest (summary : value) (st : State) : State :=
  {| relays := relays st; canonicalManifest := summary |}.

(** The properties that [updateRelayMetrics] writes. *)
Definition metricsKeys : list string :=
  ["latencyMs"; "reachability"; "gfwBlocked"; "metricsSampledAt";
   "metricsSource"; "metricsNotes"; "metricsError"].

(** The record [updateRelayMetrics] builds for the relay it is called
    for: [{ ...relay, latencyMs: ..., ..., metricsError: ... }]. *)
Definition withMetrics (env : Env) (metricsUpdate relay : object) : object :=
  let sampledAt :=
    if truthy (metricsUpdate !! "metricsSampledAt")
    then default VNull (metricsUpdate !! "metricsSampledAt")
    else VStr (now env) in
  <["metricsError" :=
      default VNull (coalesce (metricsUpdate !! "metricsError") (Some VNull))]>
    (<["metricsNotes" :=
         default VNull
           (coalesce (metricsUpdate !! "metricsNotes")
              (coalesce (relay !! "metricsNotes") (Some VNull)))]>
       (<["metricsSource" :=
            if truthy (metricsUpdate !! "metricsSource")
            then default VNull (metricsUpdate !! "metricsSource")
            else VStr "directory-probe"]>
          (<["metricsSampledAt" := sampledAt]>
             (<["gfwBlocked" :=
                  match metricsUpdate !! "gfwBlocked" with
                  | Some (VBool b) => VBool b
                  | _ => default VNull
                           (coalesce (relay !! "gfwBlocked")
                              (Some (VBool false)))
                  end]>
                (<["reachability" :=
                     match metricsUpdate !! "reachability" with
                     | Some (VNum q) => VNum q
                     | _ => default VNull
                              (coalesce (relay !! "reachability")
                                 (Some VNull))
                     end]>
                   (<["latencyMs" :=
                        default VNull
                          (coalesce (metricsUpdate !! "latencyMs")
                             (coalesce (relay !! "latencyMs") (Some VNull)))]>
                      (spread2 ∅ relay))))))).

(** [DirectoryState.updateRelayMetrics(onion, metricsUpdate = {})] *)
Definition updateRelayMetrics (env : Env) (onion : option value)
    (metricsUpdate : object) (st : State) : State :=
  {| relays :=
       (fun relay : object =>
          if negb (strictEq (relay !! "onion") onion) then relay
          else withMetrics env metricsUpdate relay) <$> relays st;
     canonicalManifest := canonicalManifest st |}.

(** How a reachability probe of the directory server ended: a 2xx answer
    after [elapsedMs], another HTTP status, or a failed request with its
    message and the verdict of [isLikelyGfwError] on it. *)
Inductive ProbeOutcome : Type :=
  | ProbeOk (elapsedMs : Q)
  | ProbeHttpError (status : Z)
  | ProbeFailed (message : string) (likelyGfw : bool).

(** The [metrics] object [probeRelayMetrics] hands to
    [updateRelayMetrics]. *)
Definition probeMetrics (sampledAt : string) (outcome : ProbeOutcome)
    : object :=
  let base : object :=
    <["metricsSampledAt" := VStr sampledAt]>
      (<["metricsSource" := VStr "directory-probe"]> ∅) in
  match outcome with
  | ProbeOk elapsedMs =>
      <["metricsError" := VNull]>
        (<["gfwBlocked" := VBool false]>
           (<["reachability" := VNum 1]>
              (<["latencyMs" := VNum elapsedMs]> base)))
  | ProbeHttpError status =>
      <["metricsError" := VStr ("HTTP_" +:+ pretty status)]>
        (<["gfwBlocked" := VBool (bool_decide (status = 403%Z))]>
           (<["reachability" := VNum 0]>
              (<["latencyMs" := VNull]> base)))
  | ProbeFailed message likelyGfw =>
      <["metricsNotes" :=
          VStr (if likelyGfw then "Probe blocked/reset" else "Probe failed")]>
        (<["metricsError" := VStr message]>
           (<["gfwBlocked" := VBool likelyGfw]>
              (<["reachability" := VNum 0]>
                 (<["latencyMs" := VNull]> base))))
  end.

(** [probeRelayMetrics(state, relay)] of the directory server, given how
    the request ended.  A relay without a [publicUrl] is not probed. *)
Definition probeRelayMetrics (env : Env) (relay : object)
    (outcome : ProbeOutcome) (st : State) : State :=
  match relay !! "publicUrl" with
  | Some (VStr url) =>
      if String.eqb url "" then st
      else updateRelayMetrics env (relay !! "onion")
             (probeMetrics (now env) outcome) st
  | _ => st
  end.

End Directory.

(* ===================================================================== *)
(** ** Relay write pipeline and sync engine: modes/relay/state.js *)
(* ===================================================================== *)

Module Relay.

Record Config : Type := mkConfig {
  directoryUrl : option string;       (* falsy when unset, [null] or [''] *)
  onion : option string
}.

Record PendingEntry : Type := mkPendingEntry {
  id : string;
  letterPayload : value;
  ownerFingerprint : string;
  relayMetrics : value;
  enqueuedAt : string;
  attempts : Z;
  replayedFromBlock : option Z
}.

Record ConflictInfo : Type := mkConflictInfo {
  resolvedAt : string;
  ci_divergeAt : nat;
  ci_localHeight : nat;
  ci_remoteHeight : nat;
  ci_backupPath : option string;
  replayedLetters : nat
}.

(** Result of [detectChainConflict] when the chains differ. *)
Record Conflict : Type := mkConflict {
  divergeAt : nat;
  localBlocks : list Ledger.Block;
  orphanedBlocks : list Ledger.Block;
  localHeight : nat;
  remoteHeight : nat;
  shouldReplace : bool
}.

(** Result of [syncFromDirectory]. *)
Inductive SyncOutcome : Type :=
  | Skipped (reason : option string)        (* [{ skipped: true, reason }] *)
  | Synced (relay : option string) (conflict : option ConflictInfo)
           (result : Ledger.SyncResult).    (* [{ relay, conflict, ...result }] *)

(** How a submitter's promise was settled. *)
Inductive Settlement : Type :=
  | Resolved (block : Ledger.Block)
  | Rejected (error : Error).

Record State : Type := mkState {
  config : Config;
  blocks : list Ledger.Block;                (* chain held by [blockStore] *)
  pendingQueue : list PendingEntry;
  queueDeferred : gset string;               (* ids with a waiting promise *)
  settled : list (string * Settlement);      (* promises settled so far *)
  processingQueue : bool;
  lastQueueError : option string;
  lastConflictInfo : option ConflictInfo;
  lastPreWriteSync : option (string * SyncOutcome);
  lastSyncTime : option string
}.

(** What the outside world answers during one step of the worker: the
    clock, fresh UUIDs, the directory's relay list and a peer's block list
    as [safeFetch] delivers them ([None]: request failed or field missing),
    and the path of the conflict snapshot ([None]: writing it failed). *)
Record World : Type := mkWorld {
  now : string;
  uuid : nat -> string;
  fetchRelays : string -> option (list Selector.Relay);
  fetchBlocks : string -> option (list Ledger.Block);
  snapshotPath : option string
}.

Definition set_blocks (bs : list Ledger.Block) (st : State) : State :=
  {| config := config st; blocks := bs; pendingQueue := pendingQueue st;
     queueDeferred := queueDeferred st; settled := settled st;
     processingQueue := processingQueue st;
     lastQueueError := lastQueueError st;
     lastConflictInfo := lastConflictInfo st;
     lastPreWriteSync := lastPreWriteSync st;
     lastSyncTime := lastSyncTime st |}.

Definition set_pendingQueue (q : list PendingEntry) (st : State) : State :=
  {| config := config st; blocks := blocks st; pendingQueue := q;
     queueDeferred := queueDeferred st; settled := settled st;
     processingQueue := processingQueue st;
     lastQueueError := lastQueueError st;
     lastConflictInfo := lastConflictInfo st;
     lastPreWriteSync := lastPreWriteSync st;
     lastSyncTime := lastSyncTime st |}.

Definition set_processingQueue (b : bool) (st : State) : State :=
  {| config := config st; blocks := blocks st;
     pendingQueue := pendingQueue st;
     queueDeferred := queueDeferred st; settled := settled st;
     processingQueue := b;
     lastQueueError := lastQueueError st;
     lastConflictInfo := lastConflictInfo st;
     lastPreWriteSync := lastPreWriteSync st;
     lastSyncTime := lastSyncTime st |}.

Definition set_lastQueueError (e : option string) (st : State) : State :=
  {| config := config st; blocks := blocks st;
     pendingQueue := pendingQueue st;
     queueDeferred := queueDeferred st; settled := settled st;
     processingQueue := processingQueue st;
     lastQueueError := e;
     lastConflictInfo := lastConflictInfo st;
     lastPreWriteSync := lastPreWriteSync st;
     lastSyncTime := lastSyncTime st |}.

Definition set_lastConflictInfo (c : option ConflictInfo) (st : State)
    : State :=
  {| config := config st; blocks := blocks st;
     pendingQueue := pendingQueue st;
     queueDeferred := queueDeferred st; settled := settled st;
     processingQueue := processingQueue st;
     lastQueueError := lastQueueError st;
     lastConflictInfo := c;
     lastPreWriteSync := lastPreWriteSync st;
     lastSyncTime := lastSyncTime st |}.

Definition set_lastPreWriteSync (r : option (string * SyncOutcome))
    (st : State) : State :=
  {| config := config st; blocks := blocks st;
     pendingQueue := pendingQueue st;
     queueDeferred := queueDeferred st; settled := settled st;
     processingQueue := processingQueue st;
     lastQueueError := lastQueueError st;
     lastConflictInfo := lastConflictInfo st;
     lastPreWriteSync := r;
     lastSyncTime := lastSyncTime st |}.

Definition set_lastSyncTime (t : option string) (st : State) : State :=
  {| config := config st; blocks := blocks st;
     pendingQueue := pendingQueue st;
     queueDeferred := queueDeferred st; settled := settled st;
     processingQueue := processingQueue st;
     lastQueueError := lastQueueError st;
     lastConflictInfo := lastConflictInfo st;
     lastPreWriteSync := lastPreWriteSync st;
     lastSyncTime := t |}.

(** Settle the promise registered under [id], if there is one. *)
Definition settle (id : string) (s : Settlement) (st : State) : State :=
  if bool_decide (id ∈ queueDeferred st) then
    {| config := config st; blocks := blocks st;
       pendingQueue := pendingQueue st;
       queueDeferred := queueDeferred st ∖ {[ id ]};
       settled := settled st ++ [(id, s)];
       processingQueue := processingQueue st;
       lastQueueError := lastQueueError st;
       lastConflictInfo := lastConflictInfo st;
       lastPreWriteSync := lastPreWriteSync st;
       lastSyncTime := lastSyncTime st |}
  else st.

Definition resolveQueueEntry (id : string) (payload : Ledger.Block)
    (st : State) : State := settle id (Resolved payload) st.

Definition rejectQueueEntry (id : string) (error : Error) (st : State)
    : State := settle id (Rejected error) st.

Definition register (id : string) (st : State) : State :=
  {| config := config st; blocks := blocks st;
     pendingQueue := pendingQueue st;
     queueDeferred := {[ id ]} ∪ queueDeferred st;
     settled := settled st;
     processingQueue := processingQueue st;
     lastQueueError := lastQueueError st;
     lastConflictInfo := lastConflictInfo st;
     lastPreWriteSync := lastPreWriteSync st;
     lastSyncTime := lastSyncTime st |}.

(** [!s] on a configuration string. *)
Definition falsyStr (s : option string) : bool :=
  match s with
  | None => true
  | Some s => String.eqb s ""
  end.

(** [url.replace(/\/$/, '')] *)
Fixpoint stripTrailingSlash (s : string) : string :=
  match s with
  | EmptyString => EmptyString
  | String c EmptyString => if Ascii.eqb c "/"%char then EmptyString else s
  | String c rest => String c (stripTrailingSlash rest)
  end.

(** [processQueueSoon]: mark the worker as running; the drain itself is a
    separate step. *)
Definition processQueueSoon (st : State) : State :=
  if processingQueue st then st else set_processingQueue true st.

(** [fetchRelayManifest] and [chooseRelay] of sync.js. *)
Definition fetchRelayManifest (w : World) (directoryBaseUrl : string)
    : list Selector.Relay :=
  default [] (fetchRelays w (directoryBaseUrl +:+ "/api/relays")).

Definition chooseRelay (w : World) (directoryBaseUrl : string)
    : option Selector.Relay :=
  Selector.selectBestRelay (fetchRelayManifest w directoryBaseUrl).

(** The loop of [detectChainConflict]. *)
Fixpoint firstHashMismatch (i : nat) (l r : list Ledger.Block) : option nat :=
  match l, r with
  | a :: l', b :: r' =>
      if negb (String.eqb (Ledger.hash a) (Ledger.hash b)) then Some i
      else firstHashMismatch (S i) l' r'
  | _, _ => None
  end.

Definition detectChainConflict (remoteBlocks : list Ledger.Block)
    (st : State) : option Conflict :=
  match remoteBlocks, blocks st with
  | [], _ => None
  | _, [] => None
  | _, _ =>
      match firstHashMismatch 0 (blocks st) remoteBlocks with
      | Some i =>
          Some {| divergeAt := i;
                  localBlocks := blocks st;
                  orphanedBlocks := drop i (blocks st);
                  localHeight := length (blocks st);
                  remoteHeight := length remoteBlocks;
                  shouldReplace :=
                    (length (blocks st) <=? length remoteBlocks)%nat |}
      | None => None
      end
  end.

(** [requeueOrphanedLetters]: one pending entry per letter of the orphaned
    blocks, appended to the queue. *)
Definition requeueOrphanedLetters (w : World)
    (orphanedBlocks : list Ledger.Block) (st : State) : nat * State :=
  let entries :=
    imap (fun k (bl : Ledger.Block * Ledger.Letter) =>
            {| id := uuid w k;
               letterPayload := Ledger.payload bl.2;
               ownerFingerprint := Ledger.ownerFingerprint bl.2;
               relayMetrics :=
                 match Ledger.relayMetrics bl.1 with
                 | VNull => VObj ∅
                 | m => m
                 end;
               enqueuedAt := now w;
               attempts := 0;
               replayedFromBlock := Some (Ledger.index bl.1) |})
      (orphanedBlocks ≫= fun block =>
         (fun letter => (block, letter)) <$> Ledger.letters block) in
  match entries with
  | [] => (0%nat, st)
  | _ =>
      (length entries,
       processQueueSoon (set_pendingQueue (pendingQueue st ++ entries) st))
  end.

Definition blocked503 (msg : string) : Error :=
  {| message := msg; statusCode := Some 503%Z; retryable := false |}.

(** The world lets the sync engine reach a peer: a directory is configured,
    the selector picks [relay], which is not this relay and has a usable
    URL, and that peer answers the block request with [remoteBlocks]. *)
Definition peerServes (w : World) (st : State) (relay : Selector.Relay)
    (remoteBlocks : list Ledger.Block) : Prop :=
  ∃ dir base : string,
    directoryUrl (config st) = Some dir ∧ dir ≠ ""
    ∧ chooseRelay w dir = Some relay
    ∧ Selector.onion relay ≠ onion (config st)
    ∧ match Selector.publicUrl relay with
      | Some u => Some u
      | None => Selector.onion relay
      end = Some base
    ∧ base ≠ ""
    ∧ fetchBlocks w (stripTrailingSlash base +:+ "/api/blocks/full")
      = Some remoteBlocks.

Definition cancelled : Error := plainError "队列已清空，任务被取消".

(** [clearQueue()]: reject every queued entry, then empty the queue. *)
Definition clearQueue (st : State) : State :=
  set_pendingQueue []
    (foldl (fun st entry => rejectQueueEntry (id entry) cancelled st)
       st (pendingQueue st)).

Section WithRuntime.

Variable JSON_stringify : value -> string.
Variable sha256_hex : string -> string.

(** [reportToDirectory(trigger)] as the worker sees it.  It never throws to
    its caller (every failure ends in a report record), and of the state
    modelled here it can change one thing: when the directory answers with
    another genesis hash, [ensureChainForGenesis] makes the chain stored
    under that genesis the active one.  The chain that is active after the
    report is an input. *)
Variable activeChainAfterReport : World -> string -> State -> list Ledger.Block.

Definition reportToDirectory (w : World) (trigger : string) (st : State)
    : State :=
  set_blocks (activeChainAfterReport w trigger st) st.

(** [syncFromDirectory()], run to its end with no other task in between.
    When the call queues letters again while the worker is idle,
    [processQueueSoon] schedules a drain that starts before the call
    resumes; that interleaving is not modelled.  Statements about a sync
    that requeues are made with the worker busy, as it is when the call
    comes from the worker's own pre-write step. *)
Definition syncFromDirectory (w : World) (st : State)
    : outcome SyncOutcome * State :=
  match directoryUrl (config st) with
  | None => (Returns (Skipped None), st)
  | Some dir =>
    if String.eqb dir "" then (Returns (Skipped None), st)
    else
      match chooseRelay w dir with
      | None => (Returns (Skipped (Some "No alternate relay available")), st)
      | Some relay =>
        if bool_decide (Selector.onion relay = onion (config st)) then
          (Returns (Skipped (Some "No alternate relay available")), st)
        else
          let baseUrl :=
            match Selector.publicUrl relay with
            | Some u => Some u
            | None => Selector.onion relay
            end in
          if falsyStr baseUrl then
            (Returns (Skipped (Some "Relay lacks URL")), st)
          else
            let target :=
              stripTrailingSlash (default "" baseUrl) +:+ "/api/blocks/full" in
            match fetchBlocks w target with
            | None => (Returns (Skipped (Some "Failed to fetch blocks")), st)
            | Some remoteBlocks =>
                let conflict := detectChainConflict remoteBlocks st in
                let replace := from_option shouldReplace false conflict in
                let st1 :=
                  match conflict with
                  | Some c =>
                      if shouldReplace c then
                        let '(n, st') :=
                          requeueOrphanedLetters w (orphanedBlocks c) st in
                        set_lastConflictInfo
                          (Some {| resolvedAt := now w;
                                   ci_divergeAt := divergeAt c;
                                   ci_localHeight := localHeight c;
                                   ci_remoteHeight := remoteHeight c;
                                   ci_backupPath := snapshotPath w;
                                   replayedLetters := n |}) st'
                      else st
                  | None => st
                  end in
                match Ledger.syncFromRemote JSON_stringify sha256_hex
                        remoteBlocks replace (blocks st1) with
                | (Throws e, _) => (Throws e, st1)
                | (Returns result, bs) =>
                    let st2 := set_lastSyncTime (Some (now w))
                                 (set_blocks bs st1) in
                    (Returns (Synced (Selector.onion relay)
                                (lastConflictInfo st2) result), st2)
                end
            end
      end
  end.

(** [ensureFreshChainBeforeWrite()].  The worker is its only caller and
    awaits it, so no earlier pre-write sync is in flight when it starts. *)
Definition ensureFreshChainBeforeWrite (w : World) (st : State)
    : outcome SyncOutcome * State :=
  if falsyStr (directoryUrl (config st)) then
    (Returns (Skipped (Some "No directory configured")), st)
  else
    match syncFromDirectory w st with
    | (Returns result, st1) =>
        let st2 := set_lastPreWriteSync (Some (now w, result)) st1 in
        match result with
        | Skipped reason =>
            if bool_decide (reason = Some "No alternate relay available")
            then (Returns result, st2)
            else
              (Throws (blocked503
                 ("写入前同步被阻止: " +:+
                  (if falsyStr reason then "未知原因" else default "" reason))),
               st2)
        | _ => (Returns result, st2)
        end
    | (Throws error, st1) =>
        if bool_decide (statusCode error = Some 503%Z) then (Throws error, st1)
        else (Throws (blocked503 "写入前无法同步链数据，请稍后重试"), st1)
    end.

(** [entry.attempts += 1] on the entry at the head of the queue (the entry
    being processed is that very object). *)
Definition bumpAttempts (st : State) : State :=
  match pendingQueue st with
  | [] => st
  | e :: rest =>
      set_pendingQueue
        ({| id := id e; letterPayload := letterPayload e;
            ownerFingerprint := ownerFingerprint e;
            relayMetrics := relayMetrics e; enqueuedAt := enqueuedAt e;
            attempts := attempts e + 1;
            replayedFromBlock := replayedFromBlock e |} :: rest) st
  end.

(** [processQueueEntry(entry)], with [entry] the head of the queue. *)
Definition processQueueEntry (w : World) (entry : PendingEntry) (st : State)
    : outcome Ledger.Block * State :=
  let st := bumpAttempts st in
  match ensureFreshChainBeforeWrite w st with
  | (Throws e, st1) => (Throws e, st1)
  | (Returns _, st1) =>
      match Ledger.appendLetterBlock JSON_stringify sha256_hex (now w)
              (letterPayload entry) (ownerFingerprint entry)
              (relayMetrics entry) (blocks st1) with
      | (Throws e, _) => (Throws e, st1)
      | (Returns block, bs) =>
          (Returns block, reportToDirectory w "post-block" (set_blocks bs st1))
      end
  end.

(** One turn of the [while] loop of [drainQueue]. *)
Definition drainIteration (w : World) (st : State) : State :=
  match pendingQueue st with
  | [] => st
  | entry :: _ =>
      match processQueueEntry w entry st with
      | (Returns block, st1) =>
          resolveQueueEntry (id entry) block
            (set_pendingQueue (tail (pendingQueue st1)) st1)
      | (Throws error, st1) =>
          let isRetryable :=
            retryable error || bool_decide (statusCode error = Some 503%Z) in
          let st2 := set_lastQueueError (Some (message error)) st1 in
          if isRetryable then st2
          else
            rejectQueueEntry (id entry) error
              (set_pendingQueue (tail (pendingQueue st2)) st2)
      end
  end.

(** [drainQueue()]: turns of the loop, each against the world as it answers
    at that time, until the queue is empty. *)
Fixpoint drainQueue (worlds : list World) (st : State) : State :=
  match pendingQueue st with
  | [] => set_processingQueue false st
  | _ =>
      match worlds with
      | [] => st
      | w :: worlds' => drainQueue worlds' (drainIteration w st)
      end
  end.

(** [enqueueLetter] / [acceptLetter]: returns the id under which the
    submitter's promise is registered. *)
Definition enqueueLetter (w : World) (letterPayload : value)
    (ownerFingerprint : string) (relayMetrics : value) (st : State)
    : string * State :=
  let entry :=
    {| id := uuid w 0; letterPayload := letterPayload;
       ownerFingerprint := ownerFingerprint; relayMetrics := relayMetrics;
       enqueuedAt := now w; attempts := 0; replayedFromBlock := None |} in
  (id entry,
   processQueueSoon
     (register (id entry) (set_pendingQueue (pendingQueue st ++ [entry]) st))).

Definition acceptLetter (w : World) (letterPayload : value)
    (ownerFingerprint : string) (relayMetrics : value) (st : State)
    : string * State :=
  enqueueLetter w letterPayload ownerFingerprint relayMetrics st.

End WithRuntime.

End Relay.

(* ===================================================================== *)
(** ** Heartbeat bookkeeping of [RelayState.reportToDirectory] *)
(* ===================================================================== *)

Module Heartbeat.

(** The fields [reportToDirectory] keeps between calls; a pending retry
    timer is recorded with its delay. *)
Record State : Type := mkState {
  consecutiveReportFailures : Z;
  reportRetryTimer : option Z
}.

(** How one run of the report ended: no directory configured, the POST and
    everything after it succeeded, or something in the [try] block threw. *)
Inductive Reply : Type :=
  | NoDirectory
  | Delivered
  | Failed (message : string).

(** The fields of the report record that depend on this bookkeeping. *)
Record Info : Type := mkInfo {
  delivered : bool;
  skipped : bool;
  backoffMs : option Z;
  consecutiveFailures : Z
}.

Definition initial : State :=
  {| consecutiveReportFailures := 0; reportRetryTimer := None |}.

(** One run of [reportToDirectory] (no other run in flight). *)
Definition reportToDirectory (reply : Reply) (st : State) : Info * State :=
  match reply with
  | NoDirectory =>
      ({| delivered := false; skipped := true; backoffMs := None;
          consecutiveFailures := 0 |},
       {| consecutiveReportFailures := 0; reportRetryTimer := None |})
  | Delivered =>
      ({| delivered := true; skipped := false; backoffMs := None;
          consecutiveFailures := 0 |},
       {| consecutiveReportFailures := 0; reportRetryTimer := None |})
  | Failed _ =>
      let failures := (consecutiveReportFailures st + 1)%Z in
      let backoff := Z.min 30000 (2000 * failures) in
      ({| delivered := false; skipped := false; backoffMs := Some backoff;
          consecutiveFailures := failures |},
       {| consecutiveReportFailures := failures;
          reportRetryTimer :=
            match reportRetryTimer st with
            | None => Some backoff
            | Some pending => Some pending
            end |})
  end.

(** The retry timer fires: it clears itself and runs the report. *)
Definition retryTimerFires (reply : Reply) (st : State) : Info * State :=
  reportToDirectory reply
    {| consecutiveReportFailures := consecutiveReportFailures st;
       reportRetryTimer := None |}.

(** What happens to the bookkeeping: a report is triggered, or the retry
    timer fires. *)
Inductive Event : Type :=
  | Triggered (reply : Reply)
  | TimerFired (reply : Reply).

Definition step (st : State) (e : Event) : State :=
  match e with
  | Triggered reply => (reportToDirectory reply st).2
  | TimerFired reply => (retryTimerFires reply st).2
  end.

Definition run (events : list Event) (st : State) : State :=
  foldl step st events.

Definition replyOf (e : Event) : Reply :=
  match e with
  | Triggered reply | TimerFired reply => reply
  end.

Definition isFailure (e : Event) : bool :=
  match replyOf e with
  | Failed _ => true
  | _ => false
  end.

(** Number of failed runs at the end of the history, back to the last run
    that did not fail. *)
Fixpoint failuresAtEnd (reversed : list Event) : Z :=
  match reversed with
  | e :: earlier => if isFailure e then (failuresAtEnd earlier + 1)%Z else 0%Z
  | [] => 0%Z
  end.

End Heartbeat.

(* ===================================================================== *)
(** ** Sample runtime and sample data *)
(* ===================================================================== *)

Module Sample.

(** A stand-in runtime for evaluating the model on concrete chains: the
    serializer tells objects, arrays and scalars apart and the digest wraps
    its input.  No statement below depends on this choice. *)
Definition stringify (v : value) : string :=
  match v with
  | VObj o => "{" +:+ pretty (size o) +:+ "}"
  | VArr l => "[" +:+ pretty (length l) +:+ "]"
  | VStr s => s
  | _ => "scalar"
  end.

Definition digest (s : string) : string := "#" +:+ s.

Definition genesis : Ledger.Block :=
  Ledger.createGenesisBlock stringify digest "2024-01-01T00:00:00.000Z".

Definition env1 : value := VObj {[ "ciphertext" := VStr "ENV1" ]}.

(** The chain after the first letter of scenario 1. *)
Definition chain2 : list Ledger.Block :=
  (Ledger.appendLetterBlock stringify digest "2024-01-01T00:00:01.000Z"
     env1 "FP1" (VObj ∅) [genesis]).2.

(** Two registry entries: a relay probed at 0 ms (the probe stores
    [Date.now() - started]) and one probed at 100 ms. *)
Definition relay0ms : Selector.Relay :=
  {| Selector.onion := Some "a.onion"; Selector.publicUrl := Some "http://a";
     Selector.latencyMs := Some 0; Selector.reachability := None;
     Selector.chainFreshness := None; Selector.gfwBlocked := None |}.

Definition relay100ms : Selector.Relay :=
  {| Selector.onion := Some "b.onion"; Selector.publicUrl := Some "http://b";
     Selector.latencyMs := Some 100; Selector.reachability := None;
     Selector.chainFreshness := None; Selector.gfwBlocked := None |}.

Definition summaryOf (hashes : list string) : value :=
  VObj (list_to_map
          [("length", VNum (inject_Z (Z.of_nat (length hashes))));
           ("hashes", VArr (VStr <$> hashes));
           ("latestHash", from_option VStr VNull (last hashes));
           ("checksum", VStr "c")]).

Definition dirEnv (t : string) : Directory.Env :=
  {| Directory.now := t; Directory.stamp36 := "lx0"; Directory.random36 := "k3f" |}.

(** A heartbeat body as a relay sends it: no [connectionMeta]. *)
Definition heartbeat (onion : string) (fingerprint : string)
    (hashes : list string) : object :=
  list_to_map [("onion", VStr onion); ("publicUrl", VStr "http://relay");
               ("nickname", VStr "relay"); ("fingerprint", VStr fingerprint);
               ("chainSummary", summaryOf hashes)].

(** The same heartbeat after the HTTP handler added [connectionMeta]. *)
Definition heartbeatWithMeta (onion : string) (fingerprint : string)
    (hashes : list string) : object :=
  <["connectionMeta" := VObj {[ "clientAddress" := VStr "10.0.0.7" ]}]>
    (heartbeat onion fingerprint hashes).

(** Registry after relay r1 reported a chain of three blocks. *)
Definition registry1 : Directory.State :=
  (Directory.upsertRelay (dirEnv "t1")
     (heartbeatWithMeta "r1.onion" "FPR1" ["h0"; "h1"; "h2"])
     Directory.defaults).2.

(** Relay r2 then reports with an empty manifest. *)
Definition reportEmpty : outcome object * Directory.State :=
  Directory.upsertRelay (dirEnv "t2")
    (heartbeatWithMeta "r2.onion" "FPR2" []) registry1.

Definition returned (o : outcome object) : object :=
  match o with
  | Returns rec => rec
  | Throws _ => ∅
  end.

(** First and second application of the same heartbeat to the default
    registry. *)
Definition beat : object := heartbeat "r1.onion" "FPR1" ["h0"].

Definition once : outcome object * Directory.State :=
  Directory.upsertRelay (dirEnv "t1") beat Directory.defaults.

Definition twice : outcome object * Directory.State :=
  Directory.upsertRelay (dirEnv "t2") beat once.2.




(** Scenario 4: r2 reports five blocks, then r1 reports its three again. *)
Definition registry2 : Directory.State :=
  (Directory.upsertRelay (dirEnv "t2")
     (heartbeatWithMeta "r2.onion" "FPR2" ["h0"; "h1"; "h2"; "h3"; "h4"])
     registry1).2.

Definition reportAgain : outcome object * Directory.State :=
  Directory.upsertRelay (dirEnv "t3")
    (heartbeatWithMeta "r1.onion" "FPR1" ["h0"; "h1"; "h2"]) registry2.

(** A relay with one queued letter and a promise waiting for it. *)
Definition letter1 : Relay.PendingEntry :=
  {| Relay.id := "id-1"; Relay.letterPayload := env1;
     Relay.ownerFingerprint := "FP1"; Relay.relayMetrics := VObj ∅;
     Relay.enqueuedAt := "2024-01-01T00:00:00.500Z"; Relay.attempts := 0;
     Relay.replayedFromBlock := None |}.

Definition relayState (directoryUrl : option string) : Relay.State :=
  {| Relay.config := {| Relay.directoryUrl := directoryUrl;
                        Relay.onion := Some "self.onion" |};
     Relay.blocks := [genesis];
     Relay.pendingQueue := [letter1];
     Relay.queueDeferred := {[ "id-1" ]};
     Relay.settled := [];
     Relay.processingQueue := true;
     Relay.lastQueueError := None;
     Relay.lastConflictInfo := None;
     Relay.lastPreWriteSync := None;
     Relay.lastSyncTime := None |}.

(** A world in which the directory lists [relays] and the peer at
    [http://a] serves [peerBlocks]. *)
Definition world (relays : list Selector.Relay)
    (peerBlocks : option (list Ledger.Block)) : Relay.World :=
  {| Relay.now := "2024-01-01T00:00:01.000Z";
     Relay.uuid := fun k => "uuid-" +:+ pretty k;
     Relay.fetchRelays := fun _ => Some relays;
     Relay.fetchBlocks := fun _ => peerBlocks;
     Relay.snapshotPath := Some "conflicts/blocks-1.json" |}.

(** The report leaves the active chain as it is. *)
Definition sameChain (w : Relay.World) (trigger : string) (st : Relay.State)
    : list Ledger.Block := Relay.blocks st.

(** An idle relay registered with a directory whose registry is empty. *)
Definition relayIdle : Relay.State :=
  {| Relay.config := {| Relay.directoryUrl := Some "http://dir";
                        Relay.onion := Some "self.onion" |};
     Relay.blocks := [genesis];
     Relay.pendingQueue := [];
     Relay.queueDeferred := ∅;
     Relay.settled := [];
     Relay.processingQueue := false;
     Relay.lastQueueError := None;
     Relay.lastConflictInfo := None;
     Relay.lastPreWriteSync := None;
     Relay.lastSyncTime := None |}.

(** A second stand-in serializer, which tells blocks apart by their
    timestamp, for chains that fork. *)
Definition stamp (v : value) : string :=
  match v with
  | VObj o =>
      match o !! "timestamp" with
      | Some (VStr t) => "{" +:+ t +:+ "}"
      | _ => "{}"
      end
  | _ => "scalar"
  end.

Definition env2 : value := VObj {[ "ciphertext" := VStr "ENV2" ]}.

Definition forkGenesis : Ledger.Block :=
  Ledger.createGenesisBlock stamp digest "2024-01-01T00:00:00.000Z".

(** Two chains over the same genesis block that fork at height 1. *)
Definition forkLocal : list Ledger.Block :=
  (Ledger.appendLetterBlock stamp digest "2024-01-01T00:00:01.000Z"
     env1 "FP1" (VObj ∅) [forkGenesis]).2.

Definition forkRemote : list Ledger.Block :=
  (Ledger.appendLetterBlock stamp digest "2024-01-01T00:00:02.000Z"
     env2 "FP2" (VObj ∅) [forkGenesis]).2.

(** An idle relay that holds [forkLocal]. *)
Definition relayForked : Relay.State :=
  {| Relay.config := {| Relay.directoryUrl := Some "http://dir";
                        Relay.onion := Some "self.onion" |};
     Relay.blocks := forkLocal;
     Relay.pendingQueue := [];
     Relay.queueDeferred := ∅;
     Relay.settled := [];
     Relay.processingQueue := false;
     Relay.lastQueueError := None;
     Relay.lastConflictInfo := None;
     Relay.lastPreWriteSync := None;
     Relay.lastSyncTime := None |}.

(** The same relay with the worker in the middle of a turn: the head entry
    has had its attempt counted and the pre-write sync is about to run. *)
Definition relayForkedBusy : Relay.State :=
  {| Relay.config := {| Relay.directoryUrl := Some "http://dir";
                        Relay.onion := Some "self.onion" |};
     Relay.blocks := forkLocal;
     Relay.pendingQueue :=
       [ {| Relay.id := "id-1"; Relay.letterPayload := env2;
            Relay.ownerFingerprint := "FP2"; Relay.relayMetrics := VObj ∅;
            Relay.enqueuedAt := "2024-01-01T00:00:01.500Z";
            Relay.attempts := 1; Relay.replayedFromBlock := None |} ];
     Relay.queueDeferred := {[ "id-1" ]};
     Relay.settled := [];
     Relay.processingQueue := true;
     Relay.lastQueueError := None;
     Relay.lastConflictInfo := None;
     Relay.lastPreWriteSync := None;
     Relay.lastSyncTime := None |}.

(** A relay without directory and two queued letters, A before B, each with
    a promise waiting. *)
Definition letterA : Relay.PendingEntry :=
  {| Relay.id := "id-a"; Relay.letterPayload := env1;
     Relay.ownerFingerprint := "FP_A"; Relay.relayMetrics := VObj ∅;
     Relay.enqueuedAt := "2024-01-01T00:00:00.500Z"; Relay.attempts := 0;
     Relay.replayedFromBlock := None |}.

Definition letterB : Relay.PendingEntry :=
  {| Relay.id := "id-b"; Relay.letterPayload := env2;
     Relay.ownerFingerprint := "FP_B"; Relay.relayMetrics := VObj ∅;
     Relay.enqueuedAt := "2024-01-01T00:00:00.600Z"; Relay.attempts := 0;
     Relay.replayedFromBlock := None |}.

Definition relayTwoQueued : Relay.State :=
  {| Relay.config := {| Relay.directoryUrl := None;
                        Relay.onion := Some "self.onion" |};
     Relay.blocks := [genesis];
     Relay.pendingQueue := [letterA; letterB];
     Relay.queueDeferred := {[ "id-a"; "id-b" ]};
     Relay.settled := [];
     Relay.processingQueue := true;
     Relay.lastQueueError := None;
     Relay.lastConflictInfo := None;
     Relay.lastPreWriteSync := None;
     Relay.lastSyncTime := None |}.

(** A sealed block whose index is 2^53, as a peer may serve it. *)
Definition farBlock : Ledger.Block :=
  let block :=
    {| Ledger.index := 2 ^ 53;
       Ledger.timestamp := "2024-01-01T00:00:00.000Z";
       Ledger.previousHash := None;
       Ledger.letters := [];
       Ledger.relayMetrics := VObj ∅;
       Ledger.summary := "far";
       Ledger.hash := "" |} in
  Ledger.set_hash
    (Ledger.buildBlockHash stringify digest (Ledger.Block_toObject block))
    block.

(** Two registry entries with the same latency whose reachability and
    chain freshness are swapped: [0.1] and [0.7] as binary64 values. *)
Definition relayLowHigh : Selector.Relay :=
  {| Selector.onion := Some "first.onion"; Selector.publicUrl := None;
     Selector.latencyMs := Some 120;
     Selector.reachability := Some (Double.round (1 # 10));
     Selector.chainFreshness := Some (Double.round (7 # 10));
     Selector.gfwBlocked := None |}.

Definition relayHighLow : Selector.Relay :=
  {| Selector.onion := Some "second.onion"; Selector.publicUrl := None;
     Selector.latencyMs := Some 120;
     Selector.reachability := Some (Double.round (7 # 10));
     Selector.chainFreshness := Some (Double.round (1 # 10));
     Selector.gfwBlocked := None |}.

End Sample.

(* ===================================================================== *)
(** * Properties *)
(* ===================================================================== *)

(** ** Number arithmetic *)

Module DoubleFacts.

Lemma nearestEven_integer (n : Z) : Double.nearestEven n 1 = n.
Proof.
  unfold Double.nearestEven. by rewrite Z.div_1_r, Z.mod_1_r.
Qed.

Lemma binade_le (n d : Z) :
  (Double.binade n d <= Z.log2 n - Z.log2 d)%Z.
Proof. unfold Double.binade. destruct (_ <? _)%Z; lia. Qed.

(** A positive integer below 2^53 is a binary64 value. *)
Lemma round_small_integer (n : positive) :
  (Z.pos n < 2 ^ 53)%Z →
  Double.toQ (Double.roundPos (Z.pos n) 1) == inject_Z (Z.pos n).
Proof.
  intros Hn. unfold Double.roundPos.
  pose proof (binade_le (Z.pos n) 1) as Hb.
  assert (Z.log2 (Z.pos n) < 53)%Z as Hlog by (apply Z.log2_lt_pow2; lia).
  change (Z.log2 1) with 0%Z in Hb.
  set (p := Z.max (Double.binade (Z.pos n) 1 - 52) (-1074)) in *.
  assert (p <= 0)%Z as Hp by lia.
  unfold Double.toQ. cbn [fst snd].
  rewrite (Z.max_l 0 p) by lia. rewrite Z.pow_0_r, !Z.mul_1_r.
  rewrite nearestEven_integer.
  assert (0 < 2 ^ Z.max 0 (- p))%Z as Hpow by (apply Z.pow_pos_nonneg; lia).
  unfold Qeq. cbn [Qnum Qden inject_Z].
  rewrite Z2Pos.id by exact Hpow. ring.
Qed.

(** One more than a number is the next integer as long as that integer is
    below 2^53 in magnitude. *)
Lemma succ_safe (i : Z) :
  (Z.abs (i + 1) < 2 ^ 53)%Z → Double.succ i = (i + 1)%Z.
Proof.
  intros Hsafe. unfold Double.succ.
  assert (Double.round (inject_Z i + 1) == inject_Z (i + 1)) as ->;
    [|apply Qfloor_Z].
  unfold Double.round. cbn [Qplus inject_Z Qnum Qden].
  replace (i * 1 + 1 * 1)%Z with (i + 1)%Z by ring.
  change (1 * 1)%positive with 1%positive.
  destruct (i + 1)%Z as [|n|n] eqn:Hi.
  - reflexivity.
  - apply round_small_integer. lia.
  - rewrite round_small_integer by lia. reflexivity.
Qed.

(** Counting up from 0 reaches 2^53 and stays there: 2^53 + 1 is no
    binary64 value and rounds back to the even neighbour 2^53. *)
Lemma succ_counts (i : Z) :
  (0 <= i)%Z →
  Double.succ (Z.min i (2 ^ 53)) = Z.min (i + 1) (2 ^ 53).
Proof.
  intros Hi.
  destruct (Z_lt_le_dec (i + 1) (2 ^ 53)) as [Hlt|Hge].
  - rewrite Z.min_l by lia. rewrite succ_safe by lia. lia.
  - rewrite (Z.min_r (i + 1)) by lia.
    destruct (Z.eq_dec i (2 ^ 53 - 1)) as [->|Hne].
    + vm_compute. reflexivity.
    + rewrite Z.min_r by lia. vm_compute. reflexivity.
Qed.

End DoubleFacts.

(** ** Block ledger *)

Module LedgerFacts.
Import Ledger.

Section WithRuntime.

Variable JSON_stringify : value -> string.
Variable sha256_hex : string -> string.

Local Abbreviation buildBlockHash := (Ledger.buildBlockHash JSON_stringify sha256_hex).
Local Abbreviation createGenesisBlock := (Ledger.createGenesisBlock JSON_stringify sha256_hex).
Local Abbreviation appendLetterBlock := (Ledger.appendLetterBlock JSON_stringify sha256_hex).
Local Abbreviation validateChain := (Ledger.validateChain JSON_stringify sha256_hex).
Local Abbreviation validateFrom := (Ledger.validateFrom JSON_stringify sha256_hex).
Local Abbreviation syncFromRemote := (Ledger.syncFromRemote JSON_stringify sha256_hex).

Lemma spread2_empty (o : object) : spread2 ∅ o = o.
Proof. unfold spread2. apply (right_id_L ∅ (∪)). Qed.

(** Writing the [hash] property does not change what gets hashed. *)
Lemma buildBlockHash_insert_hash (b : object) (h : value) :
  buildBlockHash (<["hash" := h]> b) = buildBlockHash b.
Proof.
  unfold Ledger.buildBlockHash. rewrite !spread2_empty.
  by rewrite delete_insert_eq.
Qed.

Lemma Block_toObject_set_hash (h : string) (b : Block) :
  Block_toObject (set_hash h b) = <["hash" := VStr h]> (Block_toObject b).
Proof.
  destruct b as [i t p l m s h0].
  unfold Block_toObject, set_hash.
  cbn [index timestamp previousHash letters relayMetrics summary hash].
  rewrite !(insert_insert_ne _ "hash") by discriminate.
  by rewrite insert_insert_eq.
Qed.

Lemma buildBlockHash_set_hash (h : string) (b : Block) :
  buildBlockHash (Block_toObject (set_hash h b))
  = buildBlockHash (Block_toObject b).
Proof. by rewrite Block_toObject_set_hash, buildBlockHash_insert_hash. Qed.

(** The hash a block carries after [block.hash = buildBlockHash(block)] is
    the hash of the finished block. *)
Lemma sealed_hash (b : Block) :
  hash (set_hash (buildBlockHash (Block_toObject b)) b)
  = buildBlockHash
      (Block_toObject (set_hash (buildBlockHash (Block_toObject b)) b)).
Proof. rewrite buildBlockHash_set_hash. reflexivity. Qed.

(** The hash [validateChain] recomputes from [{ hash, ...rest }] is
    [buildBlockHash] of the block. *)
Lemma rest_hash (b : Block) :
  buildBlockHash (spread2 ∅ (delete "hash" (Block_toObject b)))
  = buildBlockHash (Block_toObject b).
Proof.
  unfold Ledger.buildBlockHash. rewrite !spread2_empty.
  by rewrite delete_delete_eq.
Qed.

(** Appending to a chain that ends in [prev] returns the sealed block and
    stores the chain extended by it. *)
Lemma appendLetterBlock_snoc
    (now : string) (letterPayload : value) (fp : string) (metrics : value)
    (earlier : list Block) (prev : Block) :
  appendLetterBlock now letterPayload fp metrics (earlier ++ [prev])
  = (Returns
       (set_hash
          (buildBlockHash
             (Block_toObject
                {| index := Double.succ (index prev); timestamp := now;
                   previousHash := Some (hash prev);
                   letters := [ {| ownerFingerprint := fp;
                                   payload := letterPayload |} ];
                   relayMetrics := metrics;
                   summary := "Love letter for " +:+ String.substring 0 8 fp;
                   hash := "" |}))
          {| index := Double.succ (index prev); timestamp := now;
             previousHash := Some (hash prev);
             letters := [ {| ownerFingerprint := fp;
                             payload := letterPayload |} ];
             relayMetrics := metrics;
             summary := "Love letter for " +:+ String.substring 0 8 fp;
             hash := "" |}),
     (earlier ++ [prev])
       ++ [set_hash
             (buildBlockHash
                (Block_toObject
                   {| index := Double.succ (index prev); timestamp := now;
                      previousHash := Some (hash prev);
                      letters := [ {| ownerFingerprint := fp;
                                      payload := letterPayload |} ];
                      relayMetrics := metrics;
                      summary := "Love letter for " +:+ String.substring 0 8 fp;
                      hash := "" |}))
             {| index := Double.succ (index prev); timestamp := now;
                previousHash := Some (hash prev);
                letters := [ {| ownerFingerprint := fp;
                                payload := letterPayload |} ];
                relayMetrics := metrics;
                summary := "Love letter for " +:+ String.substring 0 8 fp;
                hash := "" |}]).
Proof. unfold Ledger.appendLetterBlock. by rewrite last_snoc. Qed.

(** On a non-empty chain [appendLetterBlock] returns a block and stores the
    chain extended by it. *)
Lemma appendLetterBlock_returns
    (now : string) (letterPayload : value) (fp : string) (metrics : value)
    (blocks : list Block) :
  blocks ≠ [] →
  ∃ block : Block,
    appendLetterBlock now letterPayload fp metrics blocks
    = (Returns block, blocks ++ [block]).
Proof.
  intros Hne. destruct (exists_last Hne) as (earlier & prev & ->).
  eexists. apply appendLetterBlock_snoc.
Qed.

(** C1 (amended). On a chain whose last block is [prev], [appendLetterBlock]
    returns a block and stores the chain with exactly that block appended;
    the block has [previousHash = prev.hash], the single letter
    [{ownerFingerprint, payload}], and its [hash] is [buildBlockHash] of
    the block; the earlier blocks are the same prefix.  Its [index] is
    [prev.index + 1] as the engine adds numbers: the next integer whenever
    that integer is below 2^53 in magnitude, and the sum rounded to
    binary64 beyond. *)
Theorem appendLetterBlock_extends_chain
    (now : string) (letterPayload : value) (fp : string) (metrics : value)
    (earlier : list Block) (prev : Block) :
  ∃ block : Block,
    appendLetterBlock now letterPayload fp metrics (earlier ++ [prev])
      = (Returns block, (earlier ++ [prev]) ++ [block])
    ∧ index block = Double.succ (index prev)
    ∧ ((Z.abs (index prev + 1) < 2 ^ 53)%Z →
       index block = (index prev + 1)%Z)
    ∧ previousHash block = Some (hash prev)
    ∧ letters block = [ {| ownerFingerprint := fp; payload := letterPayload |} ]
    ∧ hash block = buildBlockHash (Block_toObject block).
Proof.
  eexists; split; [apply appendLetterBlock_snoc|].
  split; [reflexivity|].
  split; [intros Hsafe; cbn [index set_hash]; by apply DoubleFacts.succ_safe|].
  split; [reflexivity|]. split; [reflexivity|].
  apply sealed_hash.
Qed.

(** C3. For a remote chain [r] that passes [validateChain]: without [force],
    [|r| <= |L|] keeps the stored chain and reports [updated = false], and
    [|r| > |L|] stores exactly [r] and reports [updated = true]; with
    [force], [r] is stored whatever the lengths. *)
Theorem syncFromRemote_valid_remote (r L : list Block) :
  validateChain r = Valid →
  ((length r ≤ length L)%nat →
     syncFromRemote r false L
     = (Returns {| updated := false;
                   sync_message := "Remote chain not longer than local" |}, L))
  ∧ ((length r > length L)%nat →
       syncFromRemote r false L
       = (Returns {| updated := true;
                     sync_message := "Chain replaced with remote copy" |}, r))
  ∧ syncFromRemote r true L
    = (Returns {| updated := true;
                  sync_message := "Chain replaced with remote copy (forced)" |},
       r).
Proof.
  intros Hvalid. unfold Ledger.syncFromRemote. rewrite Hvalid.
  split; [|split].
  - intros Hle. by rewrite (proj2 (Nat.leb_le _ _) Hle).
  - intros Hgt. rewrite (proj2 (Nat.leb_gt _ _)); [done | lia].
  - reflexivity.
Qed.

(** Empty remote chains are refused by [validateChain]. *)
Lemma syncFromRemote_empty (force : bool) (L : list Block) :
  syncFromRemote [] force L
  = (Throws (plainError "Remote chain invalid: Empty chain"), L).
Proof. reflexivity. Qed.

(** C10. [buildBlockHash] ignores the stored [hash]: any two values written
    to the [hash] property give the same result.  Hence the genesis block
    carries its own [buildBlockHash], and a freshly initialised one-block
    chain passes [validateChain]. *)
Theorem buildBlockHash_ignores_hash :
  (∀ (b : object) (h1 h2 : value),
     buildBlockHash (<["hash" := h1]> b) = buildBlockHash (<["hash" := h2]> b))
  ∧ (∀ (b : Block) (h1 h2 : string),
       buildBlockHash (Block_toObject (set_hash h1 b))
       = buildBlockHash (Block_toObject (set_hash h2 b)))
  ∧ (∀ now : string,
       hash (createGenesisBlock now)
       = buildBlockHash (Block_toObject (createGenesisBlock now)))
  ∧ (∀ now : string,
       validateChain (Ledger.init JSON_stringify sha256_hex now []) = Valid).
Proof.
  split; [|split; [|split]].
  - intros b h1 h2. by rewrite !buildBlockHash_insert_hash.
  - intros b h1 h2. by rewrite !buildBlockHash_set_hash.
  - intros now. apply sealed_hash.
  - intros now.
    unfold Ledger.init, Ledger.validateChain, Ledger.validateFrom.
    rewrite rest_hash. unfold Ledger.createGenesisBlock.
    rewrite <- sealed_hash.
    cbn [hash set_hash]. by rewrite String.eqb_refl.
Qed.

End WithRuntime.

Lemma appendLetterBlock_extends_chain_witness :
  ∃ block : Block,
    Ledger.appendLetterBlock Sample.stringify Sample.digest
      "2024-01-01T00:00:01.000Z" Sample.env1 "FP1" (VObj ∅) ([] ++ [Sample.genesis])
    = (Returns block, ([] ++ [Sample.genesis]) ++ [block])
    ∧ index block = 1%Z
    ∧ previousHash block = Some (hash Sample.genesis).
Proof.
  destruct (appendLetterBlock_extends_chain Sample.stringify Sample.digest
              "2024-01-01T00:00:01.000Z" Sample.env1 "FP1" (VObj ∅)
              [] Sample.genesis)
    as (block & Happend & _ & Hindex & Hprev & _).
  exists block. split; [exact Happend|]. split; [|exact Hprev].
  apply Hindex. vm_compute. reflexivity.
Defined.

(** C1 as stated fails.  A chain whose last block has index 2^53 passes
    [validateChain], which checks no index, and [syncFromRemote] installs
    it; the block appended to it has index 2^53 again, not 2^53 + 1. *)
Lemma appendLetterBlock_index_counterexample :
  Ledger.validateChain Sample.stringify Sample.digest [Sample.farBlock] = Valid
  ∧ (Ledger.syncFromRemote Sample.stringify Sample.digest
       [Sample.farBlock] true [Sample.genesis]).2 = [Sample.farBlock]
  ∧ ∃ block : Block,
      Ledger.appendLetterBlock Sample.stringify Sample.digest
        "2024-01-01T00:00:01.000Z" Sample.env1 "FP1" (VObj ∅)
        [Sample.farBlock]
      = (Returns block, [Sample.farBlock; block])
      ∧ index Sample.farBlock = (2 ^ 53)%Z
      ∧ index block = (2 ^ 53)%Z
      ∧ index block ≠ (index Sample.farBlock + 1)%Z.
Proof.
  split; [vm_compute; reflexivity|]. split; [vm_compute; reflexivity|].
  eexists. split; [vm_compute; reflexivity|].
  split; [reflexivity|]. split; [vm_compute; reflexivity|].
  vm_compute. discriminate.
Qed.

(** Scenario 1 on the sample runtime: the first letter lands in block 1. *)
Example first_letter_block :
  ∃ b1, Sample.chain2 = [Sample.genesis; b1]
        ∧ index b1 = 1%Z
        ∧ previousHash b1 = Some (hash Sample.genesis)
        ∧ letters b1 = [ {| ownerFingerprint := "FP1"; payload := Sample.env1 |} ].
Proof. eexists. repeat split. Qed.

Example sample_chain_valid :
  Ledger.validateChain Sample.stringify Sample.digest Sample.chain2 = Valid.
Proof. vm_compute. reflexivity. Qed.

Lemma syncFromRemote_valid_remote_witness :
  Ledger.validateChain Sample.stringify Sample.digest Sample.chain2 = Valid
  ∧ Ledger.syncFromRemote Sample.stringify Sample.digest
      Sample.chain2 false [Sample.genesis]
    = (Returns {| updated := true;
                  sync_message := "Chain replaced with remote copy" |},
       Sample.chain2).
Proof.
  split; [vm_compute; reflexivity|].
  apply (syncFromRemote_valid_remote Sample.stringify Sample.digest
           Sample.chain2 [Sample.genesis]).
  - vm_compute; reflexivity.
  - vm_compute; lia.
Defined.

End LedgerFacts.

(** ** Relay selector *)

Module SelectorFacts.
Import Selector.

Local Abbreviation byScore := (fun a b : Scored => score b - score a).
Local Abbreviation scored :=
  (fun relay : Relay => {| relay := relay; score := scoreRelay64 (Some relay) |}).

Lemma elem_of_insertBy cmp (x e : Scored) (l : list Scored) :
  e ∈ insertBy cmp x l → e = x ∨ e ∈ l.
Proof.
  induction l as [|y l IH]; cbn [insertBy].
  - intros ->%list_elem_of_singleton. by left.
  - destruct (Qle_bool (cmp x y) 0).
    + intros [->|He]%elem_of_cons; [by left | by right].
    + intros [->|He]%elem_of_cons.
      * right. apply elem_of_cons. by left.
      * destruct (IH He) as [->|Hin]; [by left|].
        right. apply elem_of_cons. by right.
Qed.

Lemma elem_of_sortBy cmp (e : Scored) (l : list Scored) :
  e ∈ sortBy cmp l → e ∈ l.
Proof.
  induction l as [|x l IH]; cbn [sortBy foldr]; [done|].
  intros [->|He]%elem_of_insertBy; apply elem_of_cons; [by left|].
  right. by apply IH.
Qed.

Lemma sortBy_cons cmp (x : Scored) (l : list Scored) :
  sortBy cmp (x :: l) = insertBy cmp x (sortBy cmp l).
Proof. reflexivity. Qed.

(** The winner of [r :: l] is [r] unless the winner of [l] scores strictly
    higher. *)
Lemma selectBestRelay_cons (r : Relay) (l : list Relay) :
  selectBestRelay (r :: l)
  = match selectBestRelay l with
    | None => Some r
    | Some y =>
        if Qle_bool (scoreRelay64 (Some y) - scoreRelay64 (Some r)) 0
        then Some r else Some y
    end.
Proof.
  unfold selectBestRelay. rewrite fmap_cons, sortBy_cons.
  pose proof (elem_of_sortBy byScore) as Hin.
  specialize (fun e => Hin e (scored <$> l)).
  destruct (sortBy byScore (scored <$> l)) as [|y sorted]; [reflexivity|].
  assert (score y = scoreRelay64 (Some (relay y))) as Hy.
  { assert (y ∈ scored <$> l) as Hy by (apply Hin, elem_of_cons; by left).
    apply list_elem_of_fmap in Hy as [? [-> _]]. reflexivity. }
  cbn [insertBy fmap list_fmap head score relay]. rewrite Hy.
  by destruct (Qle_bool _ 0).
Qed.

(** The winner is a member of the list. *)
Lemma selectBestRelay_elem (l : list Relay) (y : Relay) :
  selectBestRelay l = Some y → y ∈ l.
Proof.
  revert y. induction l as [|r l IH]; intros y; [discriminate|].
  rewrite selectBestRelay_cons.
  destruct (selectBestRelay l) as [z|].
  - destruct (Qle_bool _ 0); intros [= <-]; apply elem_of_cons;
      [by left | right; by apply IH].
  - intros [= <-]. apply elem_of_cons. by left.
Qed.

(** The winner splits the list: strictly lower scores before it, no higher
    score after it. *)
Lemma selectBestRelay_split (r : Relay) (rest : list Relay) :
  ∃ (before : list Relay) (best : Relay) (after : list Relay),
    r :: rest = before ++ best :: after
    ∧ selectBestRelay (r :: rest) = Some best
    ∧ Forall (fun x => scoreRelay64 (Some x) < scoreRelay64 (Some best)) before
    ∧ Forall (fun x => scoreRelay64 (Some x) <= scoreRelay64 (Some best)) after.
Proof.
  revert r.
  induction rest as [|r' rest IH]; intros r.
  - exists [], r, []. by repeat constructor.
  - destruct (IH r') as (before & best & after & Heq & Hsel & Hb & Ha).
    rewrite selectBestRelay_cons, Hsel, Heq.
    destruct (Qle_bool (scoreRelay64 (Some best) - scoreRelay64 (Some r)) 0) eqn:Hle.
    + apply Qle_bool_iff in Hle.
      exists [], r, (before ++ best :: after).
      split; [done|]. split; [done|]. split; [constructor|].
      apply Forall_app; split; [|constructor].
      * eapply Forall_impl; [exact Hb|]. intros x Hx; cbn beta in Hx. lra.
      * lra.
      * eapply Forall_impl; [exact Ha|]. intros x Hx; cbn beta in Hx. lra.
    + assert (¬ scoreRelay64 (Some best) - scoreRelay64 (Some r) <= 0) as Hgt.
      { intros H%Qle_bool_iff. congruence. }
      exists (r :: before), best, after.
      split; [done|]. split; [done|]. split; [|done].
      constructor; [lra | done].
Qed.

(** Conversely, a relay that splits the list in this way is the winner. *)
Lemma selectBestRelay_determined (before : list Relay) (best : Relay)
    (after : list Relay) :
  Forall (fun x => scoreRelay64 (Some x) < scoreRelay64 (Some best)) before →
  Forall (fun x => scoreRelay64 (Some x) <= scoreRelay64 (Some best)) after →
  selectBestRelay (before ++ best :: after) = Some best.
Proof.
  intros Hb Ha. induction Hb as [|x before Hx Hb IH]; cbn [app].
  - rewrite selectBestRelay_cons.
    destruct (selectBestRelay after) as [y|] eqn:Hsel; [|reflexivity].
    apply selectBestRelay_elem in Hsel.
    rewrite Forall_forall in Ha. specialize (Ha y Hsel). cbn beta in Ha.
    assert (Qle_bool (scoreRelay64 (Some y) - scoreRelay64 (Some best)) 0
            = true) as ->; [|reflexivity].
    apply Qle_bool_iff. lra.
  - rewrite selectBestRelay_cons, IH.
    destruct (Qle_bool (scoreRelay64 (Some best) - scoreRelay64 (Some x)) 0)
      eqn:Hle; [|reflexivity].
    apply Qle_bool_iff in Hle. lra.
Qed.

(** C7 (amended).  [selectBestRelay] returns nothing on the empty list and
    otherwise the first relay, in input order, whose score is maximal,
    where the score is the one the engine computes in binary64 arithmetic:
    [((latencyScore * 0.5 + reachability * 0.25) + freshness * 0.25) *
    penalty] with every operation rounded, latencyScore [max(0, 1 -
    min(latency, 3000) / 3000)], defaults 0.5, penalty 0.2 when blocked,
    and the latency counts as 1500 ms only when it is missing: a reported
    latency of 0 or below is used as reported.  The list alone decides the
    result: the relay with only lower computed scores before it and no
    higher computed score after it is the one returned, on every call. *)
Theorem selectBestRelay_first_maximum :
  (∀ r : Relay,
     scoreRelay64 (Some r)
     = Double.round
         (Double.round
            (Double.round
               (Double.round
                  (Qmax 0
                     (Double.round
                        (1 - Double.round
                               (Qmin (default 1500 (latencyMs r)) 3000 / 3000)))
                   * (1 # 2))
                + Double.round (default (1 # 2) (reachability r) * (1 # 4)))
             + Double.round (default (1 # 2) (chainFreshness r) * (1 # 4)))
          * (if default false (gfwBlocked r)
             then Double.round (2 # 10) else 1)))
  ∧ selectBestRelay [] = None
  ∧ (∀ (r : Relay) (rest : list Relay),
       ∃ (before : list Relay) (best : Relay) (after : list Relay),
         r :: rest = before ++ best :: after
         ∧ selectBestRelay (r :: rest) = Some best
         ∧ Forall (fun x => scoreRelay64 (Some x) < scoreRelay64 (Some best)) before
         ∧ Forall (fun x => scoreRelay64 (Some x) <= scoreRelay64 (Some best)) after)
  ∧ (∀ (before : list Relay) (best : Relay) (after : list Relay),
       Forall (fun x => scoreRelay64 (Some x) < scoreRelay64 (Some best)) before →
       Forall (fun x => scoreRelay64 (Some x) <= scoreRelay64 (Some best)) after →
       selectBestRelay (before ++ best :: after) = Some best).
Proof.
  split; [reflexivity|]. split; [reflexivity|].
  split; [exact selectBestRelay_split | exact selectBestRelay_determined].
Qed.

(** C7 as stated fails, twice.  A relay that reports [latencyMs = 0] is
    scored with a full latency score and wins, although under the stated
    rule (0 counts as 1500 ms) the other relay has the greater score.  And
    two relays whose stated scores are equal, so that input order should
    decide for the first, get different scores from the engine's rounded
    operations: the second is returned. *)
Lemma selectBestRelay_zero_latency_counterexample :
  selectBestRelay [Sample.relay0ms; Sample.relay100ms] = Some Sample.relay0ms
  ∧ spec_scoreRelay Sample.relay0ms < spec_scoreRelay Sample.relay100ms
  ∧ selectBestRelay [Sample.relayLowHigh; Sample.relayHighLow]
    = Some Sample.relayHighLow
  ∧ spec_scoreRelay Sample.relayLowHigh == spec_scoreRelay Sample.relayHighLow
  ∧ scoreRelay64 (Some Sample.relayLowHigh)
    < scoreRelay64 (Some Sample.relayHighLow).
Proof.
  split; [vm_compute; reflexivity|]. split; [vm_compute; reflexivity|].
  split; [vm_compute; reflexivity|]. split; [vm_compute; reflexivity|].
  vm_compute. reflexivity.
Qed.

(** The case of tests/relaySelector.test.js: relay b is selected. *)
Example selector_repository_test :
  let mk name l r f :=
    {| onion := Some name; publicUrl := None; latencyMs := Some l;
       reachability := Some r; chainFreshness := Some f;
       gfwBlocked := None |} in
  onion <$> selectBestRelay
              [mk "a" 400 (Double.round (9 # 10)) (Double.round (9 # 10));
               mk "b" 120 (Double.round (8 # 10)) (Double.round (95 # 100));
               mk "c" 90 (Double.round (4 # 10)) (Double.round (3 # 10))]
  = Some (Some "b").
Proof. vm_compute. reflexivity. Qed.

(** Scenario 5 of the specification: the blocked relay loses. *)
Example selector_gfw_scenario :
  let blocked := {| onion := None; publicUrl := None; latencyMs := Some 100;
                    reachability := Some 1; chainFreshness := None;
                    gfwBlocked := Some true |} in
  let open := {| onion := None; publicUrl := None; latencyMs := Some 400;
                 reachability := Some (Double.round (9 # 10));
                 chainFreshness := None;
                 gfwBlocked := Some false |} in
  selectBestRelay [blocked; open] = Some open.
Proof. vm_compute. reflexivity. Qed.

Lemma selectBestRelay_first_maximum_witness :
  Forall (fun x => scoreRelay64 (Some x)
                   < scoreRelay64 (Some Sample.relayHighLow))
    [Sample.relayLowHigh]
  ∧ Forall (fun x => scoreRelay64 (Some x)
                     <= scoreRelay64 (Some Sample.relayHighLow))
      [Sample.relayHighLow; Sample.relayLowHigh]
  ∧ selectBestRelay
      ([Sample.relayLowHigh] ++ Sample.relayHighLow :: [Sample.relayHighLow; Sample.relayLowHigh])
    = Some Sample.relayHighLow.
Proof.
  assert (Forall (fun x => scoreRelay64 (Some x)
                           < scoreRelay64 (Some Sample.relayHighLow))
            [Sample.relayLowHigh]) as Hbefore
    by (constructor; [vm_compute; reflexivity | constructor]).
  assert (Forall (fun x => scoreRelay64 (Some x)
                           <= scoreRelay64 (Some Sample.relayHighLow))
            [Sample.relayHighLow; Sample.relayLowHigh]) as Hafter
    by (repeat constructor; apply Qle_bool_iff; vm_compute; reflexivity).
  split; [exact Hbefore|]. split; [exact Hafter|].
  exact (proj2 (proj2 (proj2 selectBestRelay_first_maximum))
           _ _ _ Hbefore Hafter).
Defined.

End SelectorFacts.

(** ** Relay registry *)

Module DirectoryFacts.
Import Directory.







Lemma lookup_spread2 (a b : object) (k : string) :
  spread2 a b !! k = match b !! k with Some v => Some v | None => a !! k end.
Proof.
  unfold spread2. rewrite lookup_union.
  by destruct (b !! k), (a !! k).
Qed.












(** What a returning upsert stores in the record: the sync status computed
    against the canonical manifest it leaves in the state. *)
Lemma finishUpsert_returns (st : State) (pushed : bool) (existing rec : object)
    (st' : State) :
  finishUpsert st pushed existing = (Returns rec, st') →
  rec = <["syncStatus" :=
            syncStatusOf (compareManifests (Some (canonicalManifest st'))
                            (existing !! "chainSummary"))]> existing
  ∧ updateCanonicalManifest (canonicalManifest st)
      (existing !! "chainSummary") = Returns (canonicalManifest st')
  ∧ relays st'
    = (fun relay : object =>
         if strictEq (relay !! "onion") (rec !! "onion") then rec else relay)
      <$> (if pushed then relays st ++ [rec] else relays st).
Proof.
  unfold finishUpsert.
  destruct (updateCanonicalManifest (canonicalManifest st)
              (existing !! "chainSummary")) as [canonical|e]; [|discriminate].
  by intros [= <- <-].
Qed.




Lemma strictEq_undefined (a : option value) :
  strictEq a None = true → a = None.
Proof. by destruct a as [[]|]. Qed.

Lemma list_find_the_match {A} (P : A → Prop) `{∀ x, Decision (P x)}
    (l : list A) (x : A) :
  (∃ y, y ∈ l ∧ P y) → (∀ y, y ∈ l → P y → y = x) →
  ∃ i, list_find P l = Some (i, x).
Proof.
  intros (y & Hy & HPy) Huniq.
  destruct (list_find P l) as [[i z]|] eqn:Hfind.
  - apply list_find_Some in Hfind as (Hl & HPz & _).
    exists i. f_equal. f_equal. apply Huniq; [|done].
    by eapply list_elem_of_lookup_2.
  - apply list_find_None in Hfind.
    rewrite Forall_forall in Hfind. by destruct (Hfind y Hy).
Qed.


(** After a returning upsert, the list holds the returned record as its
    first entry with the payload's onion. *)
Lemma finishUpsert_find (payload : object) (st : State) (pushed : bool)
    (existing rec : object) (st' : State) :
  strictEq (payload !! "onion") (payload !! "onion") = true →
  existing !! "onion" = payload !! "onion" →
  (if pushed then True else registered payload st) →
  finishUpsert st pushed existing = (Returns rec, st') →
  ∃ i, list_find (fun relay : object =>
                    strictEq (relay !! "onion") (payload !! "onion") = true)
         (relays st') = Some (i, rec).
Proof.
  intros Hprim Honion Hreg (-> & _ & ->)%finishUpsert_returns.
  rewrite lookup_insert_ne by discriminate. rewrite Honion.
  set (rec := <["syncStatus" := _]> existing).
  assert (rec !! "onion" = payload !! "onion") as Hrec.
  { unfold rec. by rewrite lookup_insert_ne by discriminate. }
  apply list_find_the_match.
  - exists rec. split; [|by rewrite Hrec].
    apply list_elem_of_fmap. destruct pushed.
    + exists rec. rewrite Hrec, Hprim. split; [done|].
      apply elem_of_app. right. by apply list_elem_of_singleton.
    + destruct Hreg as (old & Hold & Hmatch).
      exists old. by rewrite Hmatch.
  - intros y (r & -> & _)%list_elem_of_fmap.
    destruct (strictEq (r !! "onion") (payload !! "onion")) eqn:Hr; [done|].
    intros Hy. congruence.
Qed.

Lemma elem_of_list_find {A} (P : A → Prop) `{∀ x, Decision (P x)}
    (l : list A) (i : nat) (x : A) :
  list_find P l = Some (i, x) → x ∈ l ∧ P x.
Proof.
  intros (Hl & HP & _)%list_find_Some. split; [|done].
  by eapply list_elem_of_lookup_2.
Qed.




(** Scenario 4 of the specification: r1 reports three blocks, r2 five; when
    r1 reports again it is told to sync, two blocks short. *)
Example canonical_manifest_scenario :
  manifestLength (canonicalManifest Sample.registry1) == 3
  ∧ manifestLength (canonicalManifest Sample.registry2) == 5
  ∧ syncFlag "needsSync" (Sample.returned Sample.reportAgain.1)
    = Some (VBool true)
  ∧ syncFlag "details" (Sample.returned Sample.reportAgain.1)
    = Some (Comparison_toValue (MissingCount 2)).
Proof.
  split; [vm_compute; reflexivity|]. split; [vm_compute; reflexivity|].
  split; vm_compute; reflexivity.
Qed.




End DirectoryFacts.

(** ** Relay write pipeline *)

Module RelayFacts.
Import Relay.

Section WithRuntime.

Variable JSON_stringify : value -> string.
Variable sha256_hex : string -> string.
Variable activeChainAfterReport : World -> string -> State -> list Ledger.Block.

Local Abbreviation appendLetterBlock :=
  (Ledger.appendLetterBlock JSON_stringify sha256_hex).
Local Abbreviation syncFromRemote :=
  (Ledger.syncFromRemote JSON_stringify sha256_hex).
Local Abbreviation syncFromDirectory :=
  (Relay.syncFromDirectory JSON_stringify sha256_hex).
Local Abbreviation ensureFreshChainBeforeWrite :=
  (Relay.ensureFreshChainBeforeWrite JSON_stringify sha256_hex).
Local Abbreviation processQueueEntry :=
  (Relay.processQueueEntry JSON_stringify sha256_hex activeChainAfterReport).
Local Abbreviation drainIteration :=
  (Relay.drainIteration JSON_stringify sha256_hex activeChainAfterReport).

(** A sync that is skipped has changed nothing. *)
Lemma syncFromDirectory_skipped (w : World) (st st' : State)
    (reason : option string) :
  syncFromDirectory w st = (Returns (Skipped reason), st') → st' = st.
Proof.
  unfold Relay.syncFromDirectory.
  destruct (directoryUrl (config st)) as [dir|]; [|by intros [= _ <-]].
  destruct (String.eqb dir ""); [by intros [= _ <-]|].
  destruct (chooseRelay w dir) as [relay|]; [|by intros [= _ <-]].
  destruct (bool_decide _); [by intros [= _ <-]|].
  destruct (falsyStr _); [by intros [= _ <-]|].
  destruct (fetchBlocks w _) as [remoteBlocks|]; [|by intros [= _ <-]].
  by destruct (Ledger.syncFromRemote _ _ _ _ _) as [[result|e] bs].
Qed.

(** With no alternate relay to choose, the sync is skipped with the
    bootstrap reason. *)
Lemma syncFromDirectory_no_alternate (w : World) (st : State) (dir : string) :
  directoryUrl (config st) = Some dir → dir ≠ "" →
  (chooseRelay w dir = None
   ∨ ∃ relay, chooseRelay w dir = Some relay
              ∧ Selector.onion relay = onion (config st)) →
  syncFromDirectory w st
  = (Returns (Skipped (Some "No alternate relay available")), st).
Proof.
  intros Hdir Hne%String.eqb_neq Hchoice.
  unfold Relay.syncFromDirectory. rewrite Hdir, Hne.
  destruct Hchoice as [->|(relay & -> & Hself)]; [done|].
  by rewrite bool_decide_true.
Qed.


Lemma ensureFresh_no_directory (w : World) (st : State) :
  falsyStr (directoryUrl (config st)) = true →
  ensureFreshChainBeforeWrite w st
  = (Returns (Skipped (Some "No directory configured")), st).
Proof. intros H. unfold Relay.ensureFreshChainBeforeWrite. by rewrite H. Qed.


(** A turn of the worker whose pre-write step returns, on a chain that is
    not empty: the letter of the head entry is appended to the chain as the
    pre-write step left it, the entry leaves the queue, and its promise, if
    one is waiting, is resolved with the new block. *)
Lemma drainIteration_commits (w : World) (st st1 : State)
    (entry : PendingEntry) (rest : list PendingEntry) (result : SyncOutcome) :
  pendingQueue st = entry :: rest →
  ensureFreshChainBeforeWrite w (bumpAttempts st) = (Returns result, st1) →
  blocks st1 ≠ [] →
  tail (pendingQueue st1) = rest →
  queueDeferred st1 = queueDeferred st →
  settled st1 = settled st →
  ∃ block : Ledger.Block,
    appendLetterBlock (now w) (letterPayload entry) (ownerFingerprint entry)
      (relayMetrics entry) (blocks st1)
    = (Returns block, blocks st1 ++ [block])
    ∧ (processQueueEntry w entry st).1 = Returns block
    ∧ pendingQueue (drainIteration w st) = rest
    ∧ blocks (drainIteration w st)
      = activeChainAfterReport w "post-block"
          (set_blocks (blocks st1 ++ [block]) st1)
    ∧ (id entry ∈ queueDeferred st →
       settled (drainIteration w st)
       = settled st ++ [(id entry, Resolved block)])
    ∧ lastQueueError (drainIteration w st) = lastQueueError st1.
Proof.
  intros Hq Hfresh Hne Htail Hdef Hset.
  destruct (LedgerFacts.appendLetterBlock_returns JSON_stringify sha256_hex
              (now w) (letterPayload entry) (ownerFingerprint entry)
              (relayMetrics entry) (blocks st1) Hne) as [block Happend].
  exists block. split; [exact Happend|].
  assert (processQueueEntry w entry st
          = (Returns block,
             reportToDirectory activeChainAfterReport w "post-block"
               (set_blocks (blocks st1 ++ [block]) st1))) as Hproc.
  { unfold Relay.processQueueEntry. by rewrite Hfresh, Happend. }
  split; [by rewrite Hproc|].
  unfold Relay.drainIteration. rewrite Hq, Hproc.
  unfold resolveQueueEntry, settle, reportToDirectory.
  cbn [queueDeferred pendingQueue set_pendingQueue set_blocks settled blocks
       lastQueueError].
  rewrite Htail, Hdef, Hset.
  destruct (bool_decide (id entry ∈ queueDeferred st)) eqn:Hwaiting;
    cbn [queueDeferred pendingQueue set_pendingQueue set_blocks settled blocks
         lastQueueError].
  - done.
  - split; [done|]. split; [done|]. split; [|done].
    intros Hin. apply bool_decide_eq_false in Hwaiting. by destruct Hwaiting.
Qed.

Lemma bumpAttempts_frame (st : State) (entry : PendingEntry)
    (rest : list PendingEntry) :
  pendingQueue st = entry :: rest →
  config (bumpAttempts st) = config st
  ∧ blocks (bumpAttempts st) = blocks st
  ∧ tail (pendingQueue (bumpAttempts st)) = rest
  ∧ queueDeferred (bumpAttempts st) = queueDeferred st
  ∧ settled (bumpAttempts st) = settled st
  ∧ lastQueueError (bumpAttempts st) = lastQueueError st.
Proof. intros Hq. unfold bumpAttempts. by rewrite Hq. Qed.

(** C2 (amended).  With no directory configured, the pre-write step of
    processing the head entry returns the skipped result with reason
    "No directory configured" and raises nothing; on a non-empty chain the
    letter is then appended on that same attempt, the entry leaves the
    queue and its waiting promise is resolved with the new block. *)
Theorem write_proceeds_without_directory (w : World) (st : State)
    (entry : PendingEntry) (rest : list PendingEntry) :
  falsyStr (directoryUrl (config st)) = true →
  pendingQueue st = entry :: rest →
  blocks st ≠ [] →
  ensureFreshChainBeforeWrite w (bumpAttempts st)
    = (Returns (Skipped (Some "No directory configured")), bumpAttempts st)
  ∧ ∃ block : Ledger.Block,
      appendLetterBlock (now w) (letterPayload entry) (ownerFingerprint entry)
        (relayMetrics entry) (blocks st)
      = (Returns block, blocks st ++ [block])
      ∧ (processQueueEntry w entry st).1 = Returns block
      ∧ pendingQueue (drainIteration w st) = rest
      ∧ blocks (drainIteration w st)
        = activeChainAfterReport w "post-block"
            (set_blocks (blocks st ++ [block]) (bumpAttempts st))
      ∧ (id entry ∈ queueDeferred st →
         settled (drainIteration w st)
         = settled st ++ [(id entry, Resolved block)])
      ∧ lastQueueError (drainIteration w st) = lastQueueError st.
Proof.
  intros Hdir Hq Hne.
  destruct (bumpAttempts_frame st entry rest Hq)
    as (Hcfg & Hblocks & Htail & Hdef & Hset & Herr).
  assert (ensureFreshChainBeforeWrite w (bumpAttempts st)
          = (Returns (Skipped (Some "No directory configured")),
             bumpAttempts st)) as Hfresh.
  { apply ensureFresh_no_directory. by rewrite Hcfg. }
  split; [exact Hfresh|].
  rewrite <- Hblocks, <- Herr.
  eapply drainIteration_commits; try done. by rewrite Hblocks.
Qed.



(** C5 (amended).  An empty remote chain is refused: [syncFromRemote] throws
    "Remote chain invalid: Empty chain" for either value of [force] and the
    stored chain stays as it was.  At the engine level a peer that serves an
    empty block list is not a skip: [syncFromDirectory] throws the same
    error, the relay state unchanged, and the pre-write step turns it into
    a 503 error. *)
Theorem empty_remote_chain_is_refused :
  (∀ (force : bool) (L : list Ledger.Block),
     syncFromRemote [] force L
     = (Throws (plainError "Remote chain invalid: Empty chain"), L))
  ∧ (∀ (w : World) (st : State) (dir base : string) (relay : Selector.Relay),
       directoryUrl (config st) = Some dir → dir ≠ "" →
       chooseRelay w dir = Some relay →
       Selector.onion relay ≠ onion (config st) →
       match Selector.publicUrl relay with
       | Some u => Some u
       | None => Selector.onion relay
       end = Some base →
       base ≠ "" →
       fetchBlocks w (stripTrailingSlash base +:+ "/api/blocks/full") = Some [] →
       syncFromDirectory w st
       = (Throws (plainError "Remote chain invalid: Empty chain"), st)
       ∧ ensureFreshChainBeforeWrite w st
         = (Throws (blocked503 "写入前无法同步链数据，请稍后重试"), st)).
Proof.
  split; [intros force L; apply LedgerFacts.syncFromRemote_empty|].
  intros w st dir base relay Hdir Hne%String.eqb_neq Hrelay Hother Hbase
    Hbne%String.eqb_neq Hfetch.
  assert (syncFromDirectory w st
          = (Throws (plainError "Remote chain invalid: Empty chain"), st))
    as Hsync.
  { unfold Relay.syncFromDirectory.
    rewrite Hdir, Hne, Hrelay, bool_decide_false by done.
    rewrite Hbase. cbn [falsyStr from_option]. unfold Datatypes.id.
    rewrite Hbne, Hfetch. reflexivity. }
  split; [exact Hsync|].
  unfold Relay.ensureFreshChainBeforeWrite.
  rewrite Hdir. cbn [falsyStr]. rewrite Hne, Hsync.
  reflexivity.
Qed.

End WithRuntime.

(** C2 as stated fails.  A relay without a directory, one queued letter,
    the chain at genesis: the pre-write step returns (no 503), the turn of
    the worker empties the queue, the chain has two blocks and the promise
    is resolved. *)
Lemma no_directory_counterexample :
  let st := Sample.relayState None in
  let w := Sample.world [] None in
  let st' := drainIteration Sample.stringify Sample.digest Sample.sameChain
               w st in
  (ensureFreshChainBeforeWrite Sample.stringify Sample.digest w
     (bumpAttempts st)).1
    = Returns (Skipped (Some "No directory configured"))
  ∧ pendingQueue st' = []
  ∧ length (blocks st') = 2%nat
  ∧ (Ledger.letters <$> last (blocks st'))
    = Some [ {| Ledger.ownerFingerprint := "FP1";
                Ledger.payload := Sample.env1 |} ]
  ∧ fst <$> settled st' = ["id-1"]
  ∧ lastQueueError st' = None.
Proof.
  cbv zeta.
  split; [vm_compute; reflexivity|]. split; [vm_compute; reflexivity|].
  split; [vm_compute; reflexivity|]. split; [vm_compute; reflexivity|].
  split; vm_compute; reflexivity.
Qed.

Lemma write_proceeds_without_directory_witness :
  falsyStr (directoryUrl (config (Sample.relayState None))) = true
  ∧ pendingQueue (Sample.relayState None) = [Sample.letter1]
  ∧ blocks (Sample.relayState None) ≠ []
  ∧ pendingQueue
      (drainIteration Sample.stringify Sample.digest Sample.sameChain
         (Sample.world [] None) (Sample.relayState None)) = [].
Proof.
  split; [reflexivity|]. split; [reflexivity|]. split; [discriminate|].
  destruct (write_proceeds_without_directory Sample.stringify Sample.digest
              Sample.sameChain (Sample.world [] None) (Sample.relayState None)
              Sample.letter1 [] eq_refl eq_refl)
    as (_ & block & _ & _ & Hqueue & _).
  - discriminate.
  - exact Hqueue.
Defined.


(** Scenario 6 of the specification, end to end: an idle relay whose
    directory lists no relay accepts a letter; the worker commits it as
    block 1, resolves the submitter with it and goes idle. *)
Example bootstrap_scenario :
  let w := Sample.world [] None in
  let accepted := acceptLetter w Sample.env1 "FP1" (VObj ∅) Sample.relayIdle in
  let st' := drainQueue Sample.stringify Sample.digest Sample.sameChain
               [w] accepted.2 in
  accepted.1 = "uuid-0"
  ∧ processingQueue accepted.2 = true
  ∧ pendingQueue st' = []
  ∧ processingQueue st' = false
  ∧ (Ledger.index <$> blocks st') = [0%Z; 1%Z]
  ∧ (∃ b1, settled st' = [("uuid-0", Resolved b1)]
           ∧ last (blocks st') = Some b1
           ∧ Ledger.previousHash b1 = Some (Ledger.hash Sample.genesis)).
Proof.
  cbv zeta.
  split; [vm_compute; reflexivity|]. split; [vm_compute; reflexivity|].
  split; [vm_compute; reflexivity|]. split; [vm_compute; reflexivity|].
  split; [vm_compute; reflexivity|].
  eexists. split; [vm_compute; reflexivity|].
  split; vm_compute; reflexivity.
Qed.

(** C5 as stated fails.  [syncFromRemote] on an empty list throws instead
    of returning [updated = false]; and when the chosen peer serves an
    empty block list the engine-level sync throws too instead of reporting
    a skip. *)
Lemma empty_remote_counterexample :
  (Ledger.syncFromRemote Sample.stringify Sample.digest [] false
     [Sample.genesis]).1
    = Throws (plainError "Remote chain invalid: Empty chain")
  ∧ (syncFromDirectory Sample.stringify Sample.digest
       (Sample.world [Sample.relay100ms] (Some []))
       (Sample.relayState (Some "http://dir"))).1
    = Throws (plainError "Remote chain invalid: Empty chain").
Proof. split; vm_compute; reflexivity. Qed.

Lemma empty_remote_chain_is_refused_witness :
  let st := Sample.relayState (Some "http://dir") in
  let w := Sample.world [Sample.relay100ms] (Some []) in
  chooseRelay w "http://dir" = Some Sample.relay100ms
  ∧ syncFromDirectory Sample.stringify Sample.digest w st
    = (Throws (plainError "Remote chain invalid: Empty chain"), st).
Proof.
  cbv zeta.
  assert (chooseRelay (Sample.world [Sample.relay100ms] (Some [])) "http://dir"
          = Some Sample.relay100ms) as Hchoose by (vm_compute; reflexivity).
  split; [exact Hchoose|].
  apply (proj2 (empty_remote_chain_is_refused Sample.stringify Sample.digest)
           (Sample.world [Sample.relay100ms] (Some []))
           (Sample.relayState (Some "http://dir"))
           "http://dir" "http://b" Sample.relay100ms);
    try reflexivity; try discriminate; exact Hchoose.
Defined.

End RelayFacts.

(* ===================================================================== *)
(** * Further properties *)
(* ===================================================================== *)

(** ** Block ledger: validation, history, summaries, lookup *)

Module LedgerMore.
Import Ledger.
Local Open Scope nat_scope.

Section WithRuntime.

Variable JSON_stringify : value -> string.
Variable sha256_hex : string -> string.

Local Abbreviation buildBlockHash := (Ledger.buildBlockHash JSON_stringify sha256_hex).
Local Abbreviation appendLetterBlock := (Ledger.appendLetterBlock JSON_stringify sha256_hex).
Local Abbreviation validateChain := (Ledger.validateChain JSON_stringify sha256_hex).
Local Abbreviation validateFrom := (Ledger.validateFrom JSON_stringify sha256_hex).
Local Abbreviation syncFromRemote := (Ledger.syncFromRemote JSON_stringify sha256_hex).
Local Abbreviation sealed := (Ledger.sealed JSON_stringify sha256_hex).
Local Abbreviation appendAll := (Ledger.appendAll JSON_stringify sha256_hex).
Local Abbreviation init := (Ledger.init JSON_stringify sha256_hex).
Local Abbreviation getChainSummary := (Ledger.getChainSummary JSON_stringify sha256_hex).

Lemma linked_cons (b : Block) (rest : list Block) :
  linked (b :: rest)
  ↔ (∀ b', head rest = Some b' → previousHash b' = Some (hash b))
    ∧ linked rest.
Proof.
  split.
  - intros H. split.
    + intros b' Hb'. apply (H 0%nat b b'); [done|].
      rewrite head_lookup in Hb'. exact Hb'.
    + intros i prev block Hp Hb. by apply (H (S i)).
  - intros [Hhd Htl] [|i] prev block Hp Hb; cbn in Hp, Hb.
    + injection Hp as <-. apply Hhd. by rewrite head_lookup.
    + by apply (Htl i).
Qed.

Lemma linked_nil : linked [].
Proof. intros i prev block Hp. by rewrite lookup_nil in Hp. Qed.

(** The loop accepts exactly the suffixes whose blocks are all sealed and
    linked, the first of them to [prev] when there is one. *)
Lemma validateFrom_Valid (prev : option Block) (blocks : list Block) :
  validateFrom prev blocks = Valid
  ↔ Forall sealed blocks
    ∧ (∀ p b, prev = Some p → head blocks = Some b →
              previousHash b = Some (hash p))
    ∧ linked blocks.
Proof.
  revert prev. induction blocks as [|block rest IH]; intros prev.
  - split; [|done]. intros _. split; [constructor|].
    split; [by intros p b _ [=] | apply linked_nil].
  - cbn [Ledger.validateFrom].
    rewrite (LedgerFacts.rest_hash JSON_stringify sha256_hex).
    rewrite linked_cons, Forall_cons.
    destruct (String.eqb (buildBlockHash (Block_toObject block)) (hash block))
      eqn:Hseal; cbn [negb].
    + apply String.eqb_eq in Hseal.
      assert (sealed block) as Hs by (by unfold Ledger.sealed).
      destruct prev as [p|].
      * destruct (bool_decide (previousHash block = Some (hash p))) eqn:Hlink;
          cbn [negb].
        -- apply bool_decide_eq_true in Hlink. rewrite IH.
           split.
           ++ intros (Hall & Hhd & Hl). split; [by split|].
              split; [by intros p' b' [= <-] [= <-]|]. split; [|done].
              intros b' Hb'. by apply (Hhd block b').
           ++ intros ((_ & Hall) & _ & Hhd & Hl). split; [done|].
              split; [|done]. intros p' b' [= <-] Hb'. by apply Hhd.
        -- apply bool_decide_eq_false in Hlink. split; [done|].
           intros (_ & Hhd & _). destruct Hlink. by apply (Hhd p block).
      * rewrite IH. split.
        -- intros (Hall & Hhd & Hl). split; [by split|].
           split; [done|]. split; [|done].
           intros b' Hb'. by apply (Hhd block b').
        -- intros ((_ & Hall) & _ & Hhd & Hl). split; [done|].
           split; [|done]. intros p' b' [= <-] Hb'. by apply Hhd.
    + apply String.eqb_neq in Hseal. split; [done|].
      intros ((Hs & _) & _). unfold Ledger.sealed in Hs. by destruct Hseal.
Qed.

Lemma validateChain_Valid (blocks : list Block) :
  validateChain blocks = Valid
  ↔ blocks ≠ [] ∧ Forall sealed blocks ∧ linked blocks.
Proof.
  unfold Ledger.validateChain. destruct blocks as [|b rest].
  - split; [done | by intros [? _]].
  - rewrite validateFrom_Valid. split.
    + intros (Hall & _ & Hl). by split.
    + intros (_ & Hall & Hl). split; [done|]. by split.
Qed.

(** X1.  [validateChain] answers [{ ok: true }] exactly for the non-empty
    chains in which every block's [hash] is [buildBlockHash] of the block
    and every block after the first has [previousHash] equal to the [hash]
    of the block before it. *)
Theorem validateChain_accepts_exactly (blocks : list Block) :
  validateChain blocks = Valid
  ↔ blocks ≠ []
    ∧ (∀ block, block ∈ blocks →
         hash block = buildBlockHash (Block_toObject block))
    ∧ (∀ (i : nat) (prev block : Block),
         blocks !! i = Some prev → blocks !! S i = Some block →
         previousHash block = Some (hash prev)).
Proof.
  rewrite validateChain_Valid, Forall_forall. reflexivity.
Qed.

Lemma linked_snoc (chain : list Block) (prev block : Block) :
  linked chain → last chain = Some prev →
  previousHash block = Some (hash prev) →
  linked (chain ++ [block]).
Proof.
  intros Hl Hlast Hprev i p b Hp Hb.
  destruct (decide (S i < length chain)%nat) as [Hin|Hout].
  - rewrite lookup_app_l in Hp by lia. rewrite lookup_app_l in Hb by lia.
    by apply (Hl i).
  - assert (S i = length chain) as Hi.
    { apply lookup_lt_Some in Hb. rewrite length_app in Hb. cbn in Hb. lia. }
    rewrite lookup_app_l in Hp by lia.
    rewrite lookup_app_r in Hb by lia.
    replace (S i - length chain) with 0%nat in Hb by lia.
    injection Hb as <-.
    rewrite last_lookup in Hlast. rewrite <- Hi in Hlast. cbn in Hlast.
    congruence.
Qed.

(** One append on a valid chain: what is stored and what the block holds. *)
Lemma append_step (now : string) (letterPayload : value) (fp : string)
    (metrics : value) (chain : list Block) :
  validateChain chain = Valid →
  ∃ prev block : Block,
    last chain = Some prev
    ∧ appendLetterBlock now letterPayload fp metrics chain
      = (Returns block, chain ++ [block])
    ∧ index block = Double.succ (index prev)
    ∧ timestamp block = now
    ∧ letters block
      = [ {| ownerFingerprint := fp; payload := letterPayload |} ]
    ∧ validateChain (chain ++ [block]) = Valid.
Proof.
  intros (Hne & Hall & Hl)%validateChain_Valid.
  destruct (exists_last Hne) as (earlier & prev & ->).
  eexists prev, _. split; [apply last_snoc|].
  split; [apply (LedgerFacts.appendLetterBlock_snoc JSON_stringify sha256_hex)|].
  split; [reflexivity|]. split; [reflexivity|]. split; [reflexivity|].
  apply validateChain_Valid. split; [by destruct earlier|].
  split.
  - apply Forall_app. split; [done|]. constructor; [|constructor].
    apply (LedgerFacts.sealed_hash JSON_stringify sha256_hex).
  - eapply linked_snoc; [done|apply last_snoc|reflexivity].
Qed.

(** X2.  Appending a letter to a chain that passes [validateChain] returns
    a block and leaves a stored chain that passes [validateChain] again. *)
Theorem appendLetterBlock_keeps_chain_valid (now : string)
    (letterPayload : value) (fp : string) (metrics : value)
    (chain : list Block) :
  validateChain chain = Valid →
  ∃ block : Block,
    appendLetterBlock now letterPayload fp metrics chain
    = (Returns block, chain ++ [block])
    ∧ validateChain (chain ++ [block]) = Valid.
Proof.
  intros Hvalid.
  destruct (append_step now letterPayload fp metrics chain Hvalid)
    as (prev & block & _ & Happ & _ & _ & _ & Hv).
  by exists block.
Qed.

Lemma appendAll_invariant (submissions : list Submission) (chain : list Block) :
  validateChain chain = Valid →
  validateChain (appendAll submissions chain) = Valid
  ∧ length (appendAll submissions chain)
    = (length chain + length submissions)%nat
  ∧ (∀ i : nat, (i < length chain)%nat →
       appendAll submissions chain !! i = chain !! i)
  ∧ (∀ (i : nat) (s : Submission), submissions !! i = Some s →
       ∃ b : Block,
         appendAll submissions chain !! (length chain + i)%nat = Some b
         ∧ timestamp b = submittedAt s
         ∧ letters b = [ {| ownerFingerprint := submittedOwner s;
                            payload := submittedPayload s |} ]).
Proof.
  revert chain. induction submissions as [|s rest IH]; intros chain Hv.
  - cbn [Ledger.appendAll foldl]. split; [done|].
    split; [cbn; lia|]. split; [done|]. intros i s Hs.
    by rewrite lookup_nil in Hs.
  - destruct (append_step (submittedAt s) (submittedPayload s)
                (submittedOwner s) (submittedMetrics s) chain Hv)
      as (prev & block & Hlast & Happ & Hidx & Hts & Hlet & Hv').
    assert (appendAll (s :: rest) chain = appendAll rest (chain ++ [block]))
      as Hunfold.
    { unfold Ledger.appendAll. cbn [foldl]. by rewrite Happ. }
    rewrite Hunfold.
    destruct (IH (chain ++ [block]) Hv') as (Hva & Hla & Hpre & Hnew).
    rewrite length_app in Hla, Hpre, Hnew. cbn [length] in Hla, Hpre, Hnew.
    split; [done|].
    split; [cbn [length]; lia|].
    split.
    + intros i Hi. rewrite Hpre by lia. by rewrite lookup_app_l by lia.
    + intros [|i] s' Hs'; cbn in Hs'.
      * injection Hs' as <-. exists block.
        rewrite Hpre by lia. rewrite lookup_app_r by lia.
        replace (length chain + 0 - length chain)%nat with 0%nat by lia.
        by split.
      * destruct (Hnew i s' Hs') as (b & Hb & Hb1 & Hb2).
        exists b. split; [|done].
        by replace (length chain + S i)%nat
          with (length chain + 1 + i)%nat by lia.
Qed.

(** Indices count the blocks, up to 2^53 where the engine's numbers stop
    counting. *)
Lemma appendAll_counted (submissions : list Submission) (chain : list Block) :
  validateChain chain = Valid →
  (∀ (i : nat) (b : Block), chain !! i = Some b →
     index b = Z.min (Z.of_nat i) (2 ^ 53)) →
  ∀ (i : nat) (b : Block), appendAll submissions chain !! i = Some b →
    index b = Z.min (Z.of_nat i) (2 ^ 53).
Proof.
  revert chain. induction submissions as [|s rest IH]; intros chain Hv Hn.
  - done.
  - destruct (append_step (submittedAt s) (submittedPayload s)
                (submittedOwner s) (submittedMetrics s) chain Hv)
      as (prev & block & Hlast & Happ & Hidx & _ & _ & Hv').
    assert (appendAll (s :: rest) chain = appendAll rest (chain ++ [block]))
      as ->.
    { unfold Ledger.appendAll. cbn [foldl]. by rewrite Happ. }
    apply IH; [exact Hv'|].
    intros i b Hb.
    destruct (decide (i < length chain)%nat) as [Hin|Hout].
    + rewrite lookup_app_l in Hb by lia. by apply Hn.
    + assert (i = length chain) as ->.
      { apply lookup_lt_Some in Hb. rewrite length_app in Hb.
        cbn in Hb. lia. }
      rewrite lookup_app_r in Hb by lia.
      replace (length chain - length chain)%nat with 0%nat in Hb by lia.
      injection Hb as <-. rewrite Hidx.
      rewrite last_lookup in Hlast.
      assert (length chain ≠ 0%nat) as Hpos.
      { intros Hz. rewrite Hz in Hlast.
        destruct chain; [done | discriminate]. }
      rewrite (Hn _ _ Hlast).
      rewrite DoubleFacts.succ_counts by lia.
      f_equal. lia.
Qed.

Lemma genesis_chain_invariant (now : string) :
  validateChain (init now []) = Valid ∧ numbered (init now []).
Proof.
  split.
  - apply validateChain_Valid. split; [done|]. split.
    + constructor; [|constructor].
      apply (LedgerFacts.sealed_hash JSON_stringify sha256_hex).
    + intros [|i] p b Hp Hb; cbn in Hb; by rewrite ?lookup_nil in Hb.
  - intros [|i] b Hb; cbn in Hb.
    + by injection Hb as <-.
    + by rewrite ?lookup_nil in Hb.
Qed.

(** X3.  A store initialised from empty and then given any sequence of
    letters holds one block more than letters, passes [validateChain],
    keeps its genesis block, and holds the [i]-th letter, alone, in block
    [i + 1]; the block at position [i] has [index = i], as the engine
    counts: up to 2^53, where adding 1 to a number no longer changes it. *)
Theorem ledger_history (now : string) (submissions : list Submission) :
  let chain := appendAll submissions (init now []) in
  validateChain chain = Valid
  ∧ length chain = S (length submissions)
  ∧ (∀ (i : nat) (b : Block), chain !! i = Some b →
       index b = Z.min (Z.of_nat i) (2 ^ 53))
  ∧ head chain = Some (Ledger.createGenesisBlock JSON_stringify sha256_hex now)
  ∧ (∀ (i : nat) (s : Submission), submissions !! i = Some s →
       ∃ b : Block,
         chain !! S i = Some b
         ∧ timestamp b = submittedAt s
         ∧ letters b = [ {| ownerFingerprint := submittedOwner s;
                            payload := submittedPayload s |} ]).
Proof.
  cbv zeta.
  destruct (genesis_chain_invariant now) as [Hv Hn].
  destruct (appendAll_invariant submissions (init now []) Hv)
    as (Hva & Hla & Hpre & Hnew).
  split; [done|]. split; [done|].
  split.
  { apply (appendAll_counted submissions (init now []) Hv).
    intros i b Hb. rewrite (Hn i b Hb).
    apply lookup_lt_Some in Hb. cbn [Ledger.init length] in Hb. lia. }
  split; [rewrite head_lookup; by rewrite Hpre by (cbn; lia)|].
  intros i s Hs. destruct (Hnew i s Hs) as (b & Hb & Hrest).
  by exists b.
Qed.

(** X4.  [syncFromRemote] never installs a chain that fails
    [validateChain]: for an invalid remote it throws
    "Remote chain invalid: <reason>" and keeps the stored chain, whatever
    [force] says; a valid stored chain is therefore valid afterwards in
    every case, and without [force] the stored chain never gets shorter. *)
Theorem syncFromRemote_keeps_chain_valid (remote L : list Block)
    (force : bool) :
  validateChain L = Valid →
  validateChain (syncFromRemote remote force L).2 = Valid
  ∧ (force = false →
     (length L ≤ length (syncFromRemote remote force L).2)%nat)
  ∧ (∀ reason : string, validateChain remote = Invalid reason →
       syncFromRemote remote force L
       = (Throws (plainError ("Remote chain invalid: " +:+ reason)), L)).
Proof.
  intros HL. unfold Ledger.syncFromRemote.
  destruct (validateChain remote) as [|reason] eqn:Hr.
  - destruct (negb force && (length remote <=? length L)%nat) eqn:Hkeep;
      cbn [snd].
    + split; [done|]. split; [lia | done].
    + split; [done|]. split; [|done]. intros ->. cbn in Hkeep.
      apply Nat.leb_gt in Hkeep. lia.
  - cbn [snd]. split; [done|]. split; [lia|]. by intros reason' [= <-].
Qed.

(** What [syncFromRemote] leaves stored: the chain it found, or a remote
    chain that passed validation. *)
Lemma syncFromRemote_stored (remote L : list Block) (force : bool) :
  (syncFromRemote remote force L).2 = L
  ∨ ((syncFromRemote remote force L).2 = remote
     ∧ validateChain remote = Valid).
Proof.
  unfold Ledger.syncFromRemote.
  destruct (validateChain remote) as [|reason]; [|by left].
  destruct (negb force && (length remote <=? length L)); [by left|].
  by right.
Qed.

Lemma syncFromRemote_throws (remote L : list Block) (force : bool)
    (e : Error) (bs : list Block) :
  syncFromRemote remote force L = (Throws e, bs) →
  bs = L ∧ ∃ reason, validateChain remote = Invalid reason
                     ∧ e = plainError ("Remote chain invalid: " +:+ reason).
Proof.
  unfold Ledger.syncFromRemote.
  destruct (validateChain remote) as [|reason].
  - by destruct (negb force && (length remote <=? length L)).
  - intros [= <- <-]. split; [done|]. by exists reason.
Qed.

Lemma getChainSummary_snoc (chain : list Block) (block : Block) :
  summary_length (getChainSummary (chain ++ [block]))
    = S (summary_length (getChainSummary chain))
  ∧ hashes (getChainSummary (chain ++ [block]))
    = hashes (getChainSummary chain) ++ [hash block]
  ∧ latestHash (getChainSummary (chain ++ [block])) = Some (hash block).
Proof.
  unfold Ledger.getChainSummary.
  cbn [summary_length hashes latestHash].
  rewrite length_app, fmap_app. cbn [length fmap list_fmap].
  split; [lia|]. split; [done|]. apply last_snoc.
Qed.

(** X5.  [getChainSummary] reports the number of stored blocks, their
    hashes in chain order and the last block's hash ([null] on an empty
    store); after [appendLetterBlock] on a non-empty store the length is
    one more, the returned block's hash is appended to [hashes] and is the
    new [latestHash]. *)
Theorem getChainSummary_tracks_chain (now : string) (letterPayload : value)
    (fp : string) (metrics : value) (chain : list Block) :
  summary_length (getChainSummary chain) = length chain
  ∧ hashes (getChainSummary chain) = hash <$> chain
  ∧ latestHash (getChainSummary chain) = hash <$> last chain
  ∧ (chain ≠ [] →
     ∃ block : Block,
       appendLetterBlock now letterPayload fp metrics chain
       = (Returns block, chain ++ [block])
       ∧ summary_length (getChainSummary (chain ++ [block]))
         = S (summary_length (getChainSummary chain))
       ∧ hashes (getChainSummary (chain ++ [block]))
         = hashes (getChainSummary chain) ++ [hash block]
       ∧ latestHash (getChainSummary (chain ++ [block])) = Some (hash block)).
Proof.
  split; [reflexivity|]. split; [reflexivity|].
  split; [apply fmap_last|].
  intros Hne.
  destruct (LedgerFacts.appendLetterBlock_returns JSON_stringify sha256_hex
              now letterPayload fp metrics chain Hne) as [block Happ].
  exists block. split; [done|]. apply getChainSummary_snoc.
Qed.

Lemma findLetters_app (fp : string) (c1 c2 : list Block) :
  findLettersByFingerprint fp (c1 ++ c2)
  = findLettersByFingerprint fp c1 ++ findLettersByFingerprint fp c2.
Proof. unfold findLettersByFingerprint. by rewrite bind_app, filter_app. Qed.

Lemma findLetters_single (fp : string) (block : Block) (letter : Letter) :
  letters block = [letter] →
  findLettersByFingerprint fp [block]
  = if decide (ownerFingerprint letter = fp) then [(block, letter)] else [].
Proof.
  intros Hl. unfold findLettersByFingerprint.
  cbn [mbind list_bind]. rewrite Hl. cbn [fmap list_fmap app].
  destruct (decide (ownerFingerprint letter = fp)) as [Heq|Hne].
  - by rewrite filter_cons_True.
  - by rewrite filter_cons_False.
Qed.

(** X6.  After [appendLetterBlock(payload, fp)] on a non-empty store,
    [findLettersByFingerprint(fp)] returns what it returned before
    followed by the new block with its letter, and the result for every
    other fingerprint is what it was. *)
Theorem findLetters_after_append (now : string) (letterPayload : value)
    (fp : string) (metrics : value) (chain : list Block) :
  chain ≠ [] →
  ∃ block : Block,
    appendLetterBlock now letterPayload fp metrics chain
    = (Returns block, chain ++ [block])
    ∧ findLettersByFingerprint fp (chain ++ [block])
      = findLettersByFingerprint fp chain
        ++ [(block, {| ownerFingerprint := fp; payload := letterPayload |})]
    ∧ (∀ other : string, other ≠ fp →
         findLettersByFingerprint other (chain ++ [block])
         = findLettersByFingerprint other chain).
Proof.
  intros Hne. destruct (exists_last Hne) as (earlier & prev & ->).
  eexists. split;
    [apply (LedgerFacts.appendLetterBlock_snoc JSON_stringify sha256_hex)|].
  split.
  - rewrite findLetters_app. f_equal.
    erewrite findLetters_single; [|reflexivity].
    by rewrite decide_True.
  - intros other Hother. rewrite findLetters_app.
    erewrite findLetters_single; [|reflexivity].
    cbn [ownerFingerprint]. rewrite decide_False by done.
    apply app_nil_r.
Qed.

(** X7.  [findLettersByFingerprint(fp)] returns exactly the letters of the
    stored blocks whose [ownerFingerprint] is [fp], each paired with the
    block that holds it. *)
Theorem findLetters_exactly (fp : string) (chain : list Block)
    (block : Block) (letter : Letter) :
  (block, letter) ∈ findLettersByFingerprint fp chain
  ↔ block ∈ chain ∧ letter ∈ letters block ∧ ownerFingerprint letter = fp.
Proof.
  unfold findLettersByFingerprint.
  rewrite list_elem_of_filter, list_elem_of_bind. cbn [snd].
  split.
  - intros [Hfp (b & Hin & Hb)].
    apply list_elem_of_fmap in Hin as (l & [= -> ->] & Hl). done.
  - intros (Hb & Hl & Hfp). split; [done|].
    exists block. split; [|done].
    apply list_elem_of_fmap. by exists letter.
Qed.

Lemma filter_fmap_agree {A B : Type} (f : A → B) (P : B → Prop)
    (Q : A → Prop) `{∀ y, Decision (P y)} `{∀ x, Decision (Q x)}
    (l : list A) :
  (∀ x, P (f x) ↔ Q x) →
  filter P (f <$> l) = f <$> filter Q l.
Proof.
  intros Hagree. induction l as [|x l IH]; [done|].
  cbn [fmap list_fmap]. destruct (decide (Q x)) as [Hq|Hq].
  - rewrite (filter_cons_True Q) by done.
    rewrite filter_cons_True by (by apply Hagree).
    cbn [fmap list_fmap]. f_equal. exact IH.
  - rewrite (filter_cons_False Q) by done.
    rewrite filter_cons_False by (by rewrite Hagree). exact IH.
Qed.

Lemma bind_fmap_out {A B C : Type} (f : B → C) (g : A → list B)
    (l : list A) :
  (l ≫= fun x => f <$> g x) = f <$> (l ≫= g).
Proof.
  induction l as [|x l IH]; [done|].
  cbn [mbind list_bind]. rewrite fmap_app. f_equal. exact IH.
Qed.

Lemma searchLetters_candidates (chain : list Block) (includeMetadata : bool) :
  (chain ≫= fun block =>
     (fun letter =>
        {| blockIndex := index block;
           found_timestamp := timestamp block;
           found_ownerFingerprint := ownerFingerprint letter;
           found_payload :=
             if includeMetadata then Some (payload letter) else None |})
       <$> letters block)
  = (fun found : Block * Letter =>
       {| blockIndex := index found.1;
          found_timestamp := timestamp found.1;
          found_ownerFingerprint := ownerFingerprint found.2;
          found_payload :=
            if includeMetadata then Some (payload found.2) else None |})
    <$> (chain ≫= fun block => (fun letter => (block, letter)) <$> letters block).
Proof.
  induction chain as [|block chain IH]; [done|].
  cbn [mbind list_bind]. rewrite fmap_app, <- list_fmap_compose.
  f_equal. exact IH.
Qed.

(** X8.  [searchLetters] lists the same letters, in the same order, as
    [findLettersByFingerprint] finds: one entry per found pair, carrying
    the block's index and timestamp and the fingerprint, with the payload
    only when [includeMetadata] is set. *)
Theorem searchLetters_lists_found (chain : list Block) (fp : string)
    (includeMetadata : bool) :
  searchLetters chain fp includeMetadata
  = (fun found : Block * Letter =>
       {| blockIndex := index found.1;
          found_timestamp := timestamp found.1;
          found_ownerFingerprint := ownerFingerprint found.2;
          found_payload :=
            if includeMetadata then Some (payload found.2) else None |})
    <$> findLettersByFingerprint fp chain.
Proof.
  unfold searchLetters, findLettersByFingerprint.
  rewrite searchLetters_candidates.
  apply filter_fmap_agree. intros found. reflexivity.
Qed.

End WithRuntime.

Lemma appendLetterBlock_keeps_chain_valid_witness :
  Ledger.validateChain Sample.stringify Sample.digest [Sample.genesis] = Valid
  ∧ ∃ block : Block,
      Ledger.appendLetterBlock Sample.stringify Sample.digest
        "2024-01-01T00:00:01.000Z" Sample.env1 "FP1" (VObj ∅) [Sample.genesis]
      = (Returns block, [Sample.genesis] ++ [block])
      ∧ Ledger.validateChain Sample.stringify Sample.digest
          ([Sample.genesis] ++ [block]) = Valid.
Proof.
  assert (Ledger.validateChain Sample.stringify Sample.digest [Sample.genesis]
          = Valid) as Hv by (vm_compute; reflexivity).
  split; [exact Hv|].
  exact (appendLetterBlock_keeps_chain_valid Sample.stringify Sample.digest
           "2024-01-01T00:00:01.000Z" Sample.env1 "FP1" (VObj ∅)
           [Sample.genesis] Hv).
Defined.

Lemma syncFromRemote_keeps_chain_valid_witness :
  Ledger.validateChain Sample.stringify Sample.digest Sample.chain2 = Valid
  ∧ Ledger.validateChain Sample.stringify Sample.digest
      (Ledger.syncFromRemote Sample.stringify Sample.digest
         [] true Sample.chain2).2 = Valid.
Proof.
  assert (Ledger.validateChain Sample.stringify Sample.digest Sample.chain2
          = Valid) as Hv by (vm_compute; reflexivity).
  split; [exact Hv|].
  exact (proj1 (syncFromRemote_keeps_chain_valid Sample.stringify Sample.digest
                  [] Sample.chain2 true Hv)).
Defined.

Lemma findLetters_after_append_witness :
  [Sample.genesis] ≠ []
  ∧ ∃ block : Block,
      Ledger.appendLetterBlock Sample.stringify Sample.digest
        "2024-01-01T00:00:01.000Z" Sample.env1 "FP1" (VObj ∅) [Sample.genesis]
      = (Returns block, [Sample.genesis] ++ [block])
      ∧ findLettersByFingerprint "FP1" ([Sample.genesis] ++ [block])
        = findLettersByFingerprint "FP1" [Sample.genesis]
          ++ [(block, {| ownerFingerprint := "FP1";
                         payload := Sample.env1 |})].
Proof.
  assert ([Sample.genesis] ≠ []) as Hne by discriminate.
  split; [exact Hne|].
  destruct (findLetters_after_append Sample.stringify Sample.digest
              "2024-01-01T00:00:01.000Z" Sample.env1 "FP1" (VObj ∅)
              [Sample.genesis] Hne) as (block & Happ & Hfind & _).
  exists block. split; [exact Happ | exact Hfind].
Defined.

End LedgerMore.

(** ** Relay selector: range and monotonicity of the score *)

Module SelectorMore.
Import Selector.







End SelectorMore.

(** ** Relay registry: lookup, frame, identity fields, metrics *)

Module DirectoryMore.
Import Directory.
Local Open Scope nat_scope.

(** Reads of properties through a stack of writes and deletes. *)
Local Ltac read_props :=
  repeat first
    [ rewrite lookup_insert_eq
    | rewrite lookup_insert_ne by discriminate
    | rewrite lookup_delete_eq
    | rewrite lookup_delete_ne by discriminate
    | rewrite lookup_empty ].

(** How [upsertRelay] reaches its tail: through the merge branch exactly
    when the onion is registered, and with a record under the payload's
    onion. *)
Lemma upsertRelay_shape (env : Env) (payload : object) (st : State)
    (rec : object) (st' : State) :
  upsertRelay env payload st = (Returns rec, st') →
  ∃ (pushed : bool) (existing : object),
    finishUpsert st pushed existing = (Returns rec, st')
    ∧ existing !! "onion" = payload !! "onion"
    ∧ (pushed = false → registered payload st)
    ∧ (pushed = true → ¬ registered payload st).
Proof.
  unfold upsertRelay.
  destruct (list_find _ (relays st)) as [[i old]|] eqn:Hfind.
  - apply DirectoryFacts.elem_of_list_find in Hfind as [Hold Hmatch].
    intros Hfin. eexists false, _. split; [exact Hfin|].
    split; [|split; [intros _; by exists old | discriminate]].
    rewrite !lookup_insert_ne by discriminate.
    rewrite DirectoryFacts.lookup_spread2.
    destruct (payload !! "onion") eqn:Hp; [done|].
    by apply DirectoryFacts.strictEq_undefined.
  - assert (¬ registered payload st) as Hnot.
    { intros (old & Hold & Hmatch). apply list_find_None in Hfind.
      rewrite Forall_forall in Hfind. by destruct (Hfind old Hold). }
    assert (∀ fp : value,
              (<["fingerprint" := fp]>
                 (spread2
                    (setProp "id" (payload !! "onion")
                       (list_to_map [("createdAt", VStr (now env));
                                     ("lastSeen", VStr (now env))]))
                    payload)) !! "onion" = payload !! "onion") as Honion.
    { intros fp. rewrite lookup_insert_ne by discriminate.
      rewrite DirectoryFacts.lookup_spread2.
      destruct (payload !! "onion") eqn:Hp; [done|].
      unfold setProp, list_to_map. cbn [foldr fst snd].
      rewrite lookup_delete_ne by discriminate.
      rewrite !lookup_insert_ne by discriminate. apply lookup_empty. }
    destruct (truthy (payload !! "fingerprint")).
    + intros Hfin. eexists true, _. split; [exact Hfin|].
      split; [apply Honion|]. split; [discriminate | done].
    + destruct (generateFingerprint env (payload !! "onion")) as [fp|e];
        [|discriminate].
      intros Hfin. eexists true, _. split; [exact Hfin|].
      split; [apply Honion|]. split; [discriminate | done].
Qed.

(** X11.  After [upsertRelay(p)] returns a record for a payload whose
    [onion] is a primitive value, [getRelayByOnion(p.onion)] returns that
    record. *)
Theorem getRelayByOnion_after_upsert (env : Env) (payload : object)
    (st : State) (rec : object) (st' : State) :
  strictEq (payload !! "onion") (payload !! "onion") = true →
  upsertRelay env payload st = (Returns rec, st') →
  getRelayByOnion (payload !! "onion") st' = Some rec.
Proof.
  intros Hprim (pushed & existing & Hfin & Honion & Hreg & _)%upsertRelay_shape.
  destruct (DirectoryFacts.finishUpsert_find payload st pushed existing rec st'
              Hprim Honion) as [i Hfind]; [|done|].
  - destruct pushed; [done | by apply Hreg].
  - unfold getRelayByOnion. by rewrite Hfind.
Qed.

(** X12.  A returning [upsertRelay(p)] adds exactly one record, at the end,
    when no registered relay has the payload's onion, and none otherwise;
    every record whose onion differs from the payload's stays where it was,
    unchanged. *)
Theorem upsertRelay_frame (env : Env) (payload : object) (st : State)
    (rec : object) (st' : State) :
  upsertRelay env payload st = (Returns rec, st') →
  (registered payload st → length (relays st') = length (relays st))
  ∧ (¬ registered payload st →
     length (relays st') = S (length (relays st))
     ∧ relays st' !! length (relays st) = Some rec)
  ∧ (∀ (i : nat) (relay : object),
       relays st !! i = Some relay →
       strictEq (relay !! "onion") (payload !! "onion") = false →
       relays st' !! i = Some relay).
Proof.
  intros (pushed & existing & Hfin & Honion & Hreg & Hnot)%upsertRelay_shape.
  apply DirectoryFacts.finishUpsert_returns in Hfin as (Hrec & _ & Hrelays).
  assert (rec !! "onion" = payload !! "onion") as Hro.
  { rewrite Hrec. by rewrite lookup_insert_ne by discriminate. }
  rewrite Hrelays, Hro.
  split; [|split].
  - intros Hr. destruct pushed; [by destruct Hnot|].
    by rewrite length_fmap.
  - intros Hn. destruct pushed; [|by destruct Hn; apply Hreg].
    rewrite length_fmap, length_app. cbn [length]. split; [lia|].
    rewrite list_lookup_fmap, lookup_app_r by lia.
    replace (length (relays st) - length (relays st)) with 0 by lia.
    cbn. by destruct (strictEq _ _).
  - intros i relay Hi Hother.
    rewrite list_lookup_fmap.
    assert ((if pushed then relays st ++ [rec] else relays st) !! i
            = Some relay) as ->.
    { destruct pushed; [|done]. by apply lookup_app_l_Some. }
    cbn. by rewrite Hother.
Qed.

Lemma append_nonempty (a b : string) (c : ascii) :
  String.eqb (a +:+ String c b) "" = false.
Proof. by destruct a. Qed.

Lemma toUpperCase_nonempty (s : string) :
  String.eqb s "" = false → String.eqb (toUpperCase s) "" = false.
Proof. by destruct s. Qed.

Lemma generateFingerprint_truthy (env : Env) (onion : option value)
    (fp : string) :
  generateFingerprint env onion = Returns fp →
  truthy (Some (VStr fp)) = true.
Proof.
  unfold generateFingerprint. cbn [truthy].
  assert (∀ h, String.eqb
                 (toUpperCase (h +:+ "-" +:+ stamp36 env +:+ "-" +:+ random36 env))
                 "" = false) as Hne.
  { intros h. apply toUpperCase_nonempty, append_nonempty. }
  destruct onion as [[| | |s| |]|]; try discriminate;
    intros [= <-]; by rewrite Hne.
Qed.

(** X13.  The record [upsertRelay] creates for an onion that is not yet
    registered has a truthy [fingerprint] (the payload's if truthy, else a
    generated one) and, unless the payload itself carries these
    properties, [id] equal to the payload's onion and [createdAt] and
    [lastSeen] equal to the time of the call. *)
Theorem upsertRelay_creates_identity (env : Env) (payload : object)
    (st : State) (rec : object) (st' : State) :
  ¬ registered payload st →
  upsertRelay env payload st = (Returns rec, st') →
  truthy (rec !! "fingerprint") = true
  ∧ (truthy (payload !! "fingerprint") = true →
     rec !! "fingerprint" = payload !! "fingerprint")
  ∧ (payload !! "id" = None → rec !! "id" = payload !! "onion")
  ∧ (payload !! "createdAt" = None →
     rec !! "createdAt" = Some (VStr (now env)))
  ∧ (payload !! "lastSeen" = None →
     rec !! "lastSeen" = Some (VStr (now env))).
Proof.
  intros Hnot. unfold upsertRelay.
  destruct (list_find _ (relays st)) as [[i old]|] eqn:Hfind.
  { apply DirectoryFacts.elem_of_list_find in Hfind as [Hold Hmatch].
    destruct Hnot. by exists old. }
  set (base := setProp "id" _ _).
  assert (base !! "id" = payload !! "onion"
          ∧ base !! "createdAt" = Some (VStr (now env))
          ∧ base !! "lastSeen" = Some (VStr (now env))) as (Hid & Hc & Hl).
  { unfold base, setProp, list_to_map. cbn [foldr fst snd].
    destruct (payload !! "onion"); (split; [|split]); read_props;
      reflexivity. }
  assert (∀ (fp : value) (st0 : State),
            truthy (Some fp) = true →
            (truthy (payload !! "fingerprint") = true →
             Some fp = payload !! "fingerprint") →
            finishUpsert st true (<["fingerprint" := fp]> (spread2 base payload))
            = (Returns rec, st0) →
            truthy (rec !! "fingerprint") = true
            ∧ (truthy (payload !! "fingerprint") = true →
               rec !! "fingerprint" = payload !! "fingerprint")
            ∧ (payload !! "id" = None → rec !! "id" = payload !! "onion")
            ∧ (payload !! "createdAt" = None →
               rec !! "createdAt" = Some (VStr (now env)))
            ∧ (payload !! "lastSeen" = None →
               rec !! "lastSeen" = Some (VStr (now env)))) as Hcreate.
  { intros fp st0 Htruthy Hsame
      (-> & _ & _)%DirectoryFacts.finishUpsert_returns.
    rewrite !(lookup_insert_ne _ "syncStatus") by discriminate.
    rewrite lookup_insert_eq.
    rewrite !(lookup_insert_ne _ "fingerprint") by discriminate.
    rewrite !DirectoryFacts.lookup_spread2.
    split; [done|]. split; [intros Ht; by rewrite Hsame|].
    split; [by intros ->|]. split; by intros ->. }
  destruct (truthy (payload !! "fingerprint")) eqn:Htruthy.
  - intros Hfin. eapply Hcreate; [| |exact Hfin].
    + by destruct (payload !! "fingerprint").
    + intros _. by destruct (payload !! "fingerprint").
  - destruct (generateFingerprint env (payload !! "onion")) as [fp|e] eqn:Hgen;
      [|discriminate].
    intros Hfin. eapply Hcreate; [| |exact Hfin].
    + by eapply generateFingerprint_truthy.
    + discriminate.
Qed.

(** X14.  When the onion is registered, a returning [upsertRelay(p)]
    refreshes [lastSeen] to the time of the call and keeps, from the
    record found under that onion, every property the payload does not
    carry (so [id], [createdAt] and [fingerprint] stay as assigned), apart
    from [connectionMeta] and [syncStatus], which it rebuilds. *)
Theorem upsertRelay_merge_keeps (env : Env) (payload : object) (st : State)
    (old rec : object) (st' : State) :
  getRelayByOnion (payload !! "onion") st = Some old →
  upsertRelay env payload st = (Returns rec, st') →
  rec !! "lastSeen" = Some (VStr (now env))
  ∧ (∀ k : string,
       payload !! k = None → k ≠ "lastSeen" → k ≠ "connectionMeta" →
       k ≠ "syncStatus" → rec !! k = old !! k)
  ∧ (∀ (k : string) (v : value),
       payload !! k = Some v → k ≠ "lastSeen" → k ≠ "connectionMeta" →
       k ≠ "syncStatus" → rec !! k = Some v).
Proof.
  unfold getRelayByOnion, upsertRelay.
  destruct (list_find _ (relays st)) as [[i found]|]; [|discriminate].
  cbn [fmap option_fmap option_map snd]. intros [= ->].
  intros (-> & _ & _)%DirectoryFacts.finishUpsert_returns.
  split; [|split].
  - rewrite lookup_insert_ne by discriminate. apply lookup_insert_eq.
  - intros k Hk H1 H2 H3. rewrite !lookup_insert_ne by done.
    by rewrite DirectoryFacts.lookup_spread2, Hk.
  - intros k v Hk H1 H2 H3. rewrite !lookup_insert_ne by done.
    by rewrite DirectoryFacts.lookup_spread2, Hk.
Qed.

Lemma withMetrics_other_keys (env : Env) (metricsUpdate relay : object)
    (k : string) :
  k ∉ metricsKeys → withMetrics env metricsUpdate relay !! k = relay !! k.
Proof.
  unfold metricsKeys. rewrite !not_elem_of_cons.
  intros (H1 & H2 & H3 & H4 & H5 & H6 & H7 & _).
  unfold withMetrics. rewrite !lookup_insert_ne by done.
  unfold spread2. by rewrite (right_id_L ∅ (∪)).
Qed.

Lemma fmap_unchanged {A : Type} (f : A → A) (l : list A) :
  (∀ x, x ∈ l → f x = x) → f <$> l = l.
Proof.
  induction l as [|x l IH]; [done|]. intros H. cbn [fmap list_fmap].
  rewrite (H x) by (apply elem_of_cons; by left).
  f_equal. apply IH. intros y Hy. apply H. apply elem_of_cons. by right.
Qed.

(** X15.  [updateRelayMetrics(onion, m)] keeps the number and order of the
    records and the canonical manifest; it leaves every record under
    another onion untouched and changes, in a record under that onion,
    nothing but the seven metrics properties.  For an onion that no
    record has, the registry is left exactly as it was. *)
Theorem updateRelayMetrics_frame (env : Env) (onion : option value)
    (metricsUpdate : object) (st : State) :
  length (relays (updateRelayMetrics env onion metricsUpdate st))
    = length (relays st)
  ∧ canonicalManifest (updateRelayMetrics env onion metricsUpdate st)
    = canonicalManifest st
  ∧ (∀ (i : nat) (relay : object),
       relays st !! i = Some relay →
       ∃ relay' : object,
         relays (updateRelayMetrics env onion metricsUpdate st) !! i
           = Some relay'
         ∧ (strictEq (relay !! "onion") onion = false → relay' = relay)
         ∧ (∀ k : string, k ∉ metricsKeys → relay' !! k = relay !! k))
  ∧ ((∀ relay : object, relay ∈ relays st →
        strictEq (relay !! "onion") onion = false) →
     updateRelayMetrics env onion metricsUpdate st = st).
Proof.
  unfold updateRelayMetrics. cbn [relays canonicalManifest].
  split; [by rewrite length_fmap|]. split; [done|]. split.
  - intros i relay Hi. rewrite list_lookup_fmap, Hi. cbn.
    eexists. split; [reflexivity|].
    destruct (strictEq (relay !! "onion") onion); cbn [negb].
    + split; [discriminate|]. intros k Hk.
      by apply withMetrics_other_keys.
    + by split.
  - intros Hnone. destruct st as [rs canonical]. cbn [relays] in *.
    f_equal. apply fmap_unchanged. intros relay Hin.
    by rewrite (Hnone relay Hin).
Qed.

(** X16.  What a reachability probe leaves in the record of the probed
    relay (one with a non-empty [publicUrl] and a primitive onion).  A 2xx
    answer records the elapsed time as [latencyMs], [reachability = 1],
    [gfwBlocked = false] and [metricsError = null].  Any other outcome
    records [reachability = 0] and the error, with [gfwBlocked] true for
    HTTP 403 or a failure judged a likely block; it does not clear the
    latency: [latencyMs] keeps the value recorded before and is [null]
    only when there was none. *)
Theorem probeRelayMetrics_records (env : Env) (st : State) (i : nat)
    (relay : object) (url : string) (outcome : ProbeOutcome) :
  relays st !! i = Some relay →
  relay !! "publicUrl" = Some (VStr url) → url ≠ "" →
  strictEq (relay !! "onion") (relay !! "onion") = true →
  ∃ relay' : object,
    relays (probeRelayMetrics env relay outcome st) !! i = Some relay'
    ∧ match outcome with
      | ProbeOk elapsedMs =>
          relay' !! "latencyMs" = Some (VNum elapsedMs)
          ∧ relay' !! "reachability" = Some (VNum 1)
          ∧ relay' !! "gfwBlocked" = Some (VBool false)
          ∧ relay' !! "metricsError" = Some VNull
      | ProbeHttpError status =>
          relay' !! "latencyMs"
            = Some (default VNull (coalesce (relay !! "latencyMs") (Some VNull)))
          ∧ relay' !! "reachability" = Some (VNum 0)
          ∧ relay' !! "gfwBlocked" = Some (VBool (bool_decide (status = 403%Z)))
          ∧ relay' !! "metricsError" = Some (VStr ("HTTP_" +:+ pretty status))
      | ProbeFailed message likelyGfw =>
          relay' !! "latencyMs"
            = Some (default VNull (coalesce (relay !! "latencyMs") (Some VNull)))
          ∧ relay' !! "reachability" = Some (VNum 0)
          ∧ relay' !! "gfwBlocked" = Some (VBool likelyGfw)
          ∧ relay' !! "metricsError" = Some (VStr message)
      end.
Proof.
  intros Hi Hurl Hne%String.eqb_neq Hprim.
  unfold probeRelayMetrics. rewrite Hurl, Hne.
  unfold updateRelayMetrics. cbn [relays].
  rewrite list_lookup_fmap, Hi. cbn [fmap option_fmap option_map].
  rewrite Hprim. cbn [negb].
  eexists. split; [reflexivity|].
  unfold withMetrics, probeMetrics.
  destruct outcome as [elapsedMs|status|message likelyGfw];
    (split; [|split; [|split]]); read_props; reflexivity.
Qed.



Lemma updateRelayMetrics_frame_witness :
  (∀ relay : object, relay ∈ relays Sample.registry1 →
     strictEq (relay !! "onion") (Some (VStr "nobody.onion")) = false)
  ∧ updateRelayMetrics (Sample.dirEnv "t9") (Some (VStr "nobody.onion"))
      (probeMetrics "t9" (ProbeOk 42)) Sample.registry1
    = Sample.registry1.
Proof.
  assert (∀ relay : object, relay ∈ relays Sample.registry1 →
            strictEq (relay !! "onion") (Some (VStr "nobody.onion")) = false)
    as Hnone.
  { intros relay Hin.
    assert (relays Sample.registry1
            = [Sample.returned
                 (upsertRelay (Sample.dirEnv "t1")
                    (Sample.heartbeatWithMeta "r1.onion" "FPR1"
                       ["h0"; "h1"; "h2"]) defaults).1]) as Hrel
      by (vm_compute; reflexivity).
    rewrite Hrel in Hin. apply list_elem_of_singleton in Hin as ->.
    vm_compute. reflexivity. }
  split; [exact Hnone|].
  exact (proj2 (proj2 (proj2
           (updateRelayMetrics_frame (Sample.dirEnv "t9")
              (Some (VStr "nobody.onion")) (probeMetrics "t9" (ProbeOk 42))
              Sample.registry1))) Hnone).
Defined.

Lemma getRelayByOnion_after_upsert_witness :
  strictEq (Sample.beat !! "onion") (Sample.beat !! "onion") = true
  ∧ upsertRelay (Sample.dirEnv "t1") Sample.beat defaults
    = (Returns (Sample.returned Sample.once.1), Sample.once.2)
  ∧ getRelayByOnion (Sample.beat !! "onion") Sample.once.2
    = Some (Sample.returned Sample.once.1).
Proof.
  assert (strictEq (Sample.beat !! "onion") (Sample.beat !! "onion") = true)
    as Hprim by (vm_compute; reflexivity).
  assert (upsertRelay (Sample.dirEnv "t1") Sample.beat defaults
          = (Returns (Sample.returned Sample.once.1), Sample.once.2))
    as Hrun by (vm_compute; reflexivity).
  split; [exact Hprim|]. split; [exact Hrun|].
  exact (getRelayByOnion_after_upsert _ _ _ _ _ Hprim Hrun).
Defined.

Lemma upsertRelay_frame_witness :
  upsertRelay (Sample.dirEnv "t2")
    (Sample.heartbeatWithMeta "r2.onion" "FPR2" []) Sample.registry1
  = (Returns (Sample.returned Sample.reportEmpty.1), Sample.reportEmpty.2)
  ∧ ∀ (i : nat) (relay : object),
      relays Sample.registry1 !! i = Some relay →
      strictEq (relay !! "onion")
        (Sample.heartbeatWithMeta "r2.onion" "FPR2" [] !! "onion") = false →
      relays Sample.reportEmpty.2 !! i = Some relay.
Proof.
  assert (upsertRelay (Sample.dirEnv "t2")
            (Sample.heartbeatWithMeta "r2.onion" "FPR2" []) Sample.registry1
          = (Returns (Sample.returned Sample.reportEmpty.1),
             Sample.reportEmpty.2))
    as Hrun by (vm_compute; reflexivity).
  split; [exact Hrun|].
  exact (proj2 (proj2 (upsertRelay_frame _ _ _ _ _ Hrun))).
Defined.

Lemma upsertRelay_creates_identity_witness :
  ¬ registered Sample.beat defaults
  ∧ upsertRelay (Sample.dirEnv "t1") Sample.beat defaults
    = (Returns (Sample.returned Sample.once.1), Sample.once.2)
  ∧ truthy (Sample.returned Sample.once.1 !! "fingerprint") = true.
Proof.
  assert (¬ registered Sample.beat defaults) as Hnew.
  { intros (relay & Hin & _). change (relay ∈ []) in Hin.
    by apply elem_of_nil in Hin. }
  assert (upsertRelay (Sample.dirEnv "t1") Sample.beat defaults
          = (Returns (Sample.returned Sample.once.1), Sample.once.2))
    as Hrun by (vm_compute; reflexivity).
  split; [exact Hnew|]. split; [exact Hrun|].
  exact (proj1 (upsertRelay_creates_identity _ _ _ _ _ Hnew Hrun)).
Defined.

Lemma upsertRelay_merge_keeps_witness :
  getRelayByOnion (Sample.beat !! "onion") Sample.once.2
  = Some (Sample.returned Sample.once.1)
  ∧ upsertRelay (Sample.dirEnv "t2") Sample.beat Sample.once.2
    = (Returns (Sample.returned Sample.twice.1), Sample.twice.2)
  ∧ Sample.returned Sample.twice.1 !! "lastSeen"
    = Some (VStr (now (Sample.dirEnv "t2"))).
Proof.
  assert (getRelayByOnion (Sample.beat !! "onion") Sample.once.2
          = Some (Sample.returned Sample.once.1))
    as Hold by (vm_compute; reflexivity).
  assert (upsertRelay (Sample.dirEnv "t2") Sample.beat Sample.once.2
          = (Returns (Sample.returned Sample.twice.1), Sample.twice.2))
    as Hrun by (vm_compute; reflexivity).
  split; [exact Hold|]. split; [exact Hrun|].
  exact (proj1 (upsertRelay_merge_keeps _ _ _ _ _ _ Hold Hrun)).
Defined.

Lemma probeRelayMetrics_records_witness :
  relays Sample.registry1 !! 0
  = Some (Sample.returned
            (upsertRelay (Sample.dirEnv "t1")
               (Sample.heartbeatWithMeta "r1.onion" "FPR1"
                  ["h0"; "h1"; "h2"]) defaults).1)
  ∧ Sample.returned
      (upsertRelay (Sample.dirEnv "t1")
         (Sample.heartbeatWithMeta "r1.onion" "FPR1" ["h0"; "h1"; "h2"])
         defaults).1 !! "publicUrl" = Some (VStr "http://relay")
  ∧ "http://relay" ≠ ""
  ∧ ∃ relay' : object,
      relays (probeRelayMetrics (Sample.dirEnv "t9")
                (Sample.returned
                   (upsertRelay (Sample.dirEnv "t1")
                      (Sample.heartbeatWithMeta "r1.onion" "FPR1"
                         ["h0"; "h1"; "h2"]) defaults).1)
                (ProbeOk 42) Sample.registry1) !! 0 = Some relay'
      ∧ relay' !! "latencyMs" = Some (VNum 42).
Proof.
  assert (relays Sample.registry1 !! 0
          = Some (Sample.returned
                    (upsertRelay (Sample.dirEnv "t1")
                       (Sample.heartbeatWithMeta "r1.onion" "FPR1"
                          ["h0"; "h1"; "h2"]) defaults).1))
    as Hat by (vm_compute; reflexivity).
  assert (Sample.returned
            (upsertRelay (Sample.dirEnv "t1")
               (Sample.heartbeatWithMeta "r1.onion" "FPR1"
                  ["h0"; "h1"; "h2"]) defaults).1 !! "publicUrl"
          = Some (VStr "http://relay"))
    as Hurl by (vm_compute; reflexivity).
  assert ("http://relay" ≠ "") as Hne by discriminate.
  assert (strictEq
            (Sample.returned
               (upsertRelay (Sample.dirEnv "t1")
                  (Sample.heartbeatWithMeta "r1.onion" "FPR1"
                     ["h0"; "h1"; "h2"]) defaults).1 !! "onion")
            (Sample.returned
               (upsertRelay (Sample.dirEnv "t1")
                  (Sample.heartbeatWithMeta "r1.onion" "FPR1"
                     ["h0"; "h1"; "h2"]) defaults).1 !! "onion") = true)
    as Hprim by (vm_compute; reflexivity).
  split; [exact Hat|]. split; [exact Hurl|]. split; [exact Hne|].
  destruct (probeRelayMetrics_records (Sample.dirEnv "t9") Sample.registry1
              0 _ "http://relay" (ProbeOk 42) Hat Hurl Hne Hprim)
    as (relay' & Hrelay' & Hlatency & _).
  exists relay'. split; [exact Hrelay' | exact Hlatency].
Defined.


End DirectoryMore.

(** ** Relay: sync engine, worker, queue *)

Module RelayMore.
Import Relay.
Local Open Scope nat_scope.

(** The letters of a run of blocks, each with the block that holds it. *)
Local Abbreviation lettersIn :=
  (fun blocks : list Ledger.Block =>
     blocks ≫= fun block =>
       (fun letter => (block, letter)) <$> Ledger.letters block).

Lemma processQueueSoon_frame (st : State) :
  config (processQueueSoon st) = config st
  ∧ blocks (processQueueSoon st) = blocks st
  ∧ pendingQueue (processQueueSoon st) = pendingQueue st
  ∧ queueDeferred (processQueueSoon st) = queueDeferred st
  ∧ settled (processQueueSoon st) = settled st
  ∧ lastQueueError (processQueueSoon st) = lastQueueError st
  ∧ lastConflictInfo (processQueueSoon st) = lastConflictInfo st
  ∧ lastSyncTime (processQueueSoon st) = lastSyncTime st.
Proof. unfold processQueueSoon. by destruct (processingQueue st). Qed.

(** [requeueOrphanedLetters] appends one fresh entry per orphaned letter, in
    order, and touches nothing else but the worker flag. *)
Lemma requeue_entries (w : World) (orphaned : list Ledger.Block) (st : State) :
  ∃ entries : list PendingEntry,
    (requeueOrphanedLetters w orphaned st).1 = length entries
    ∧ length entries = length (lettersIn orphaned)
    ∧ pendingQueue (requeueOrphanedLetters w orphaned st).2
      = pendingQueue st ++ entries
    ∧ (∀ (k : nat) (block : Ledger.Block) (letter : Ledger.Letter),
         lettersIn orphaned !! k = Some (block, letter) →
         entries !! k
         = Some {| id := uuid w k;
                   letterPayload := Ledger.payload letter;
                   ownerFingerprint := Ledger.ownerFingerprint letter;
                   relayMetrics :=
                     match Ledger.relayMetrics block with
                     | VNull => VObj ∅
                     | m => m
                     end;
                   enqueuedAt := now w;
                   attempts := 0;
                   replayedFromBlock := Some (Ledger.index block) |})
    ∧ config (requeueOrphanedLetters w orphaned st).2 = config st
    ∧ blocks (requeueOrphanedLetters w orphaned st).2 = blocks st
    ∧ queueDeferred (requeueOrphanedLetters w orphaned st).2
      = queueDeferred st
    ∧ settled (requeueOrphanedLetters w orphaned st).2 = settled st
    ∧ lastQueueError (requeueOrphanedLetters w orphaned st).2
      = lastQueueError st
    ∧ lastConflictInfo (requeueOrphanedLetters w orphaned st).2
      = lastConflictInfo st
    ∧ lastSyncTime (requeueOrphanedLetters w orphaned st).2
      = lastSyncTime st.
Proof.
  unfold requeueOrphanedLetters.
  set (entries := imap _ _).
  exists entries.
  assert (length entries = length (lettersIn orphaned)) as Hlen
    by apply length_imap.
  assert (∀ (k : nat) (block : Ledger.Block) (letter : Ledger.Letter),
            lettersIn orphaned !! k = Some (block, letter) →
            entries !! k
            = Some {| id := uuid w k;
                      letterPayload := Ledger.payload letter;
                      ownerFingerprint := Ledger.ownerFingerprint letter;
                      relayMetrics :=
                        match Ledger.relayMetrics block with
                        | VNull => VObj ∅
                        | m => m
                        end;
                      enqueuedAt := now w;
                      attempts := 0;
                      replayedFromBlock := Some (Ledger.index block) |})
    as Hentries.
  { intros k block letter Hk. unfold entries.
    rewrite list_lookup_imap, Hk. reflexivity. }
  destruct entries as [|e entries'] eqn:He.
  - cbn [fst snd length]. rewrite app_nil_r. by repeat split.
  - cbn [fst snd].
    destruct (processQueueSoon_frame
                (set_pendingQueue (pendingQueue st ++ e :: entries') st))
      as (H1 & H2 & H3 & H4 & H5 & H6 & H7 & H8).
    rewrite H1, H2, H3, H4, H5, H6, H7, H8. by repeat split.
Qed.

Lemma settle_fields (i : string) (s : Settlement) (st : State) :
  settled (settle i s st)
  = settled st ++ (if bool_decide (i ∈ queueDeferred st) then [(i, s)] else [])
  ∧ queueDeferred (settle i s st) = queueDeferred st ∖ {[ i ]}
  ∧ config (settle i s st) = config st
  ∧ blocks (settle i s st) = blocks st
  ∧ pendingQueue (settle i s st) = pendingQueue st
  ∧ lastQueueError (settle i s st) = lastQueueError st.
Proof.
  unfold settle.
  destruct (bool_decide (i ∈ queueDeferred st)) eqn:Hin;
    cbn [settled queueDeferred config blocks pendingQueue lastQueueError].
  - done.
  - apply bool_decide_eq_false in Hin. rewrite app_nil_r.
    split; [done|]. split; [|done].
    symmetry. apply difference_disjoint_L, disjoint_singleton_r. exact Hin.
Qed.

Lemma rejectAll_fields (q : list PendingEntry) (st : State) :
  queueDeferred
    (foldl (fun st entry => rejectQueueEntry (id entry) cancelled st) st q)
  = queueDeferred st ∖ list_to_set (id <$> q)
  ∧ (∃ ids : list string,
       settled
         (foldl (fun st entry => rejectQueueEntry (id entry) cancelled st) st q)
       = settled st ++ ((fun i => (i, Rejected cancelled)) <$> ids)
       ∧ NoDup ids
       ∧ ∀ i, i ∈ ids ↔ i ∈ id <$> q ∧ i ∈ queueDeferred st)
  ∧ config
      (foldl (fun st entry => rejectQueueEntry (id entry) cancelled st) st q)
    = config st
  ∧ blocks
      (foldl (fun st entry => rejectQueueEntry (id entry) cancelled st) st q)
    = blocks st.
Proof.
  revert st. induction q as [|e q IH]; intros st.
  - cbn [foldl fmap list_fmap list_to_set].
    split; [by rewrite difference_empty_L|]. split; [|done].
    exists []. split; [by rewrite app_nil_r|]. split; [constructor|].
    intros i. split; [by intros ?%elem_of_nil | by intros [?%elem_of_nil _]].
  - cbn [foldl fmap list_fmap list_to_set].
    destruct (IH (rejectQueueEntry (id e) cancelled st))
      as (Hd & (ids & Hs & Hnd & Hiff) & Hc & Hb).
    pose proof (settle_fields (id e) (Rejected cancelled) st) as Hfields.
    change (settle (id e) (Rejected cancelled) st)
      with (rejectQueueEntry (id e) cancelled st) in Hfields.
    destruct Hfields as (H1 & H2 & H3 & H4 & _).
    rewrite H1 in Hs. rewrite H2 in Hd, Hiff. rewrite H3 in Hc.
    rewrite H4 in Hb.
    split; [by rewrite Hd, difference_difference_l_L|].
    split; [|by split].
    destruct (bool_decide (id e ∈ queueDeferred st)) eqn:Hin.
    + apply bool_decide_eq_true in Hin.
      exists (id e :: ids). split; [by rewrite Hs, <- app_assoc|].
      split.
      * constructor; [|done]. intros [_ Hout]%Hiff.
        apply elem_of_difference in Hout as [_ Hout].
        apply Hout. by apply elem_of_singleton.
      * intros i. rewrite !elem_of_cons, Hiff. split.
        -- intros [->|[Hi Hi']]; [by split; [left|]|].
           split; [by right|]. by apply elem_of_difference in Hi' as [? _].
        -- intros [[->|Hi] Hi']; [by left|].
           destruct (decide (i = id e)) as [->|Hne]; [by left|].
           right. split; [done|]. apply elem_of_difference.
           split; [done|]. by intros ?%elem_of_singleton.
    + apply bool_decide_eq_false in Hin.
      exists ids. split; [by rewrite Hs, app_nil_r|]. split; [done|].
      intros i. rewrite elem_of_cons, Hiff. split.
      * intros [Hi Hi']. split; [by right|].
        by apply elem_of_difference in Hi' as [? _].
      * intros [[->|Hi] Hi']; [done|]. split; [done|].
        apply elem_of_difference. split; [done|].
        by intros ->%elem_of_singleton.
Qed.

(** X20.  [clearQueue] empties the queue and rejects, once each, exactly
    the waiting promises of the queued entries with the cancellation error;
    other waiting promises and the chain are left alone. *)
Theorem clearQueue_cancels_waiting (st : State) :
  pendingQueue (clearQueue st) = []
  ∧ queueDeferred (clearQueue st)
    = queueDeferred st ∖ list_to_set (id <$> pendingQueue st)
  ∧ (∃ ids : list string,
       settled (clearQueue st)
       = settled st ++ ((fun i => (i, Rejected cancelled)) <$> ids)
       ∧ NoDup ids
       ∧ ∀ i, i ∈ ids
              ↔ (∃ entry, entry ∈ pendingQueue st ∧ id entry = i)
                ∧ i ∈ queueDeferred st)
  ∧ blocks (clearQueue st) = blocks st.
Proof.
  destruct (rejectAll_fields (pendingQueue st) st)
    as (Hd & (ids & Hs & Hnd & Hiff) & _ & Hb).
  unfold clearQueue.
  cbn [pendingQueue queueDeferred settled blocks set_pendingQueue].
  split; [done|]. split; [exact Hd|]. split; [|exact Hb].
  exists ids. split; [exact Hs|]. split; [exact Hnd|].
  intros i. rewrite Hiff, list_elem_of_fmap. split.
  - intros [(entry & -> & Hin) Hw]. split; [by exists entry | done].
  - intros [(entry & Hin & <-) Hw]. split; [by exists entry | done].
Qed.

Lemma firstHashMismatch_Some (i d : nat) (l r : list Ledger.Block) :
  firstHashMismatch i l r = Some d →
  ∃ (k : nat) (a b : Ledger.Block),
    d = i + k ∧ l !! k = Some a ∧ r !! k = Some b
    ∧ Ledger.hash a ≠ Ledger.hash b
    ∧ ∀ (j : nat) (a' b' : Ledger.Block), j < k →
        l !! j = Some a' → r !! j = Some b' → Ledger.hash a' = Ledger.hash b'.
Proof.
  revert i r. induction l as [|a l IH]; intros i [|b r]; try discriminate.
  cbn [firstHashMismatch].
  destruct (String.eqb (Ledger.hash a) (Ledger.hash b)) eqn:Hab; cbn [negb].
  - apply String.eqb_eq in Hab. intros Hrec.
    destruct (IH (S i) r Hrec) as (k & a0 & b0 & -> & Ha & Hb & Hne & Hbefore).
    exists (S k), a0, b0. split; [lia|]. split; [done|]. split; [done|].
    split; [done|]. intros [|j] a' b' Hj Ha' Hb'; cbn in Ha', Hb'.
    + congruence.
    + apply (Hbefore j); [lia | done | done].
  - apply String.eqb_neq in Hab. intros [= <-].
    exists 0, a, b. split; [lia|]. split; [done|]. split; [done|].
    split; [done|]. intros j a' b' Hj. lia.
Qed.

Lemma firstHashMismatch_None (i : nat) (l r : list Ledger.Block) :
  firstHashMismatch i l r = None
  ↔ ∀ (j : nat) (a b : Ledger.Block),
      l !! j = Some a → r !! j = Some b → Ledger.hash a = Ledger.hash b.
Proof.
  revert i r. induction l as [|a l IH]; intros i r.
  - split; [|done]. intros _ j a b Ha. by rewrite lookup_nil in Ha.
  - destruct r as [|b r].
    + split; [|done]. intros _ j a' b' _ Hb. by rewrite lookup_nil in Hb.
    + cbn [firstHashMismatch].
      destruct (String.eqb (Ledger.hash a) (Ledger.hash b)) eqn:Hab;
        cbn [negb].
      * apply String.eqb_eq in Hab. rewrite IH. split.
        -- intros H [|j] a' b' Ha' Hb'; cbn in Ha', Hb'; [congruence|].
           by apply (H j).
        -- intros H j a' b' Ha' Hb'. by apply (H (S j)).
      * apply String.eqb_neq in Hab. split; [done|].
        intros H. destruct Hab. by apply (H 0).
Qed.

Lemma detectChainConflict_cases (remote : list Ledger.Block) (st : State) :
  match detectChainConflict remote st with
  | Some c =>
      firstHashMismatch 0 (blocks st) remote = Some (divergeAt c)
      ∧ c = {| divergeAt := divergeAt c;
               localBlocks := blocks st;
               orphanedBlocks := drop (divergeAt c) (blocks st);
               localHeight := length (blocks st);
               remoteHeight := length remote;
               shouldReplace := length (blocks st) <=? length remote |}
  | None => firstHashMismatch 0 (blocks st) remote = None
  end.
Proof.
  unfold detectChainConflict.
  destruct remote as [|b remote]; [by destruct (blocks st)|].
  destruct (blocks st) as [|a l]; [done|].
  by destruct (firstHashMismatch 0 (a :: l) (b :: remote)).
Qed.

(** X21.  [detectChainConflict] reports the first position at which the
    local and the remote block carry different hashes: the chains agree on
    every earlier position, the orphaned blocks are the local chain from
    that position on, and replacement is advised exactly when the remote
    chain is at least as long.  It reports nothing exactly when the chains
    agree wherever both have a block. *)
Theorem detectChainConflict_first_fork (remote : list Ledger.Block)
    (st : State) :
  match detectChainConflict remote st with
  | Some c =>
      (∃ a b : Ledger.Block,
         blocks st !! divergeAt c = Some a ∧ remote !! divergeAt c = Some b
         ∧ Ledger.hash a ≠ Ledger.hash b)
      ∧ (∀ (j : nat) (a b : Ledger.Block), j < divergeAt c →
           blocks st !! j = Some a → remote !! j = Some b →
           Ledger.hash a = Ledger.hash b)
      ∧ take (divergeAt c) (blocks st) ++ orphanedBlocks c = blocks st
      ∧ localBlocks c = blocks st
      ∧ localHeight c = length (blocks st)
      ∧ remoteHeight c = length remote
      ∧ (shouldReplace c = true ↔ length (blocks st) ≤ length remote)
  | None =>
      ∀ (j : nat) (a b : Ledger.Block),
        blocks st !! j = Some a → remote !! j = Some b →
        Ledger.hash a = Ledger.hash b
  end.
Proof.
  pose proof (detectChainConflict_cases remote st) as Hcases.
  destruct (detectChainConflict remote st) as [c|].
  - destruct Hcases as [Hfirst ->].
    cbn [divergeAt orphanedBlocks localBlocks localHeight remoteHeight
         shouldReplace] in *.
    destruct (firstHashMismatch_Some _ _ _ _ Hfirst)
      as (k & a & b & Hk & Ha & Hb & Hne & Hbefore).
    cbn in Hk. subst k.
    split; [by exists a, b|]. split; [exact Hbefore|].
    split; [apply take_drop|]. split; [done|]. split; [done|].
    split; [done|]. apply Nat.leb_le.
  - by apply (firstHashMismatch_None 0).
Qed.

Lemma entries_cover (w : World)
    (pairs : list (Ledger.Block * Ledger.Letter))
    (entries : list PendingEntry) :
  length entries = length pairs →
  (∀ (k : nat) (block : Ledger.Block) (letter : Ledger.Letter),
     pairs !! k = Some (block, letter) →
     entries !! k
     = Some {| id := uuid w k;
               letterPayload := Ledger.payload letter;
               ownerFingerprint := Ledger.ownerFingerprint letter;
               relayMetrics :=
                 match Ledger.relayMetrics block with
                 | VNull => VObj ∅
                 | m => m
                 end;
               enqueuedAt := now w;
               attempts := 0;
               replayedFromBlock := Some (Ledger.index block) |}) →
  (fun e => (letterPayload e, ownerFingerprint e, replayedFromBlock e,
             attempts e)) <$> entries
  = (fun bl : Ledger.Block * Ledger.Letter =>
       (Ledger.payload bl.2, Ledger.ownerFingerprint bl.2,
        Some (Ledger.index bl.1), 0%Z)) <$> pairs.
Proof.
  intros Hlen Hentries. apply list_eq. intros k.
  rewrite !list_lookup_fmap.
  destruct (pairs !! k) as [[block letter]|] eqn:Hk.
  - by rewrite (Hentries _ _ _ Hk).
  - apply lookup_ge_None in Hk.
    by rewrite (proj2 (lookup_ge_None entries k)) by lia.
Qed.

(** X22.  [requeueOrphanedLetters] loses no letter: it appends to the
    queue, after the entries already there and in chain order, one fresh
    entry per letter of the orphaned blocks, carrying the letter's payload
    and owner and the index of the block it came from, and returns their
    number.  No promise is registered for them and the chain is not
    touched. *)
Theorem requeueOrphanedLetters_requeues_every_letter (w : World)
    (orphaned : list Ledger.Block) (st : State) :
  ∃ entries : list PendingEntry,
    pendingQueue (requeueOrphanedLetters w orphaned st).2
    = pendingQueue st ++ entries
    ∧ (requeueOrphanedLetters w orphaned st).1 = length entries
    ∧ (fun e => (letterPayload e, ownerFingerprint e, replayedFromBlock e,
                 attempts e)) <$> entries
      = (fun bl : Ledger.Block * Ledger.Letter =>
           (Ledger.payload bl.2, Ledger.ownerFingerprint bl.2,
            Some (Ledger.index bl.1), 0%Z)) <$> lettersIn orphaned
    ∧ queueDeferred (requeueOrphanedLetters w orphaned st).2
      = queueDeferred st
    ∧ settled (requeueOrphanedLetters w orphaned st).2 = settled st
    ∧ blocks (requeueOrphanedLetters w orphaned st).2 = blocks st.
Proof.
  destruct (requeue_entries w orphaned st)
    as (entries & Hn & Hlen & Hq & Hent & _ & Hb & Hd & Hs & _).
  exists entries. split; [exact Hq|]. split; [exact Hn|].
  split; [by apply (entries_cover w)|]. by repeat split.
Qed.

(** Run [syncFromDirectory] up to the peer's answer. *)
Ltac reach_peer Hpeer :=
  destruct Hpeer as (dir & base & Hdir & Hne%String.eqb_neq & Hrelay & Hother
                     & Hbase & Hbne%String.eqb_neq & Hfetch);
  unfold Relay.syncFromDirectory;
  rewrite Hdir, Hne, Hrelay, bool_decide_false by done;
  rewrite Hbase; cbn [falsyStr from_option]; unfold Datatypes.id;
  rewrite Hbne, Hfetch.

(** The head entry after [entry.attempts += 1]. *)
Local Abbreviation retried :=
  (fun e : PendingEntry =>
     {| id := id e; letterPayload := letterPayload e;
        ownerFingerprint := ownerFingerprint e;
        relayMetrics := relayMetrics e; enqueuedAt := enqueuedAt e;
        attempts := (attempts e + 1)%Z;
        replayedFromBlock := replayedFromBlock e |}).

Section WithRuntime.

Variable JSON_stringify : value -> string.
Variable sha256_hex : string -> string.
Variable activeChainAfterReport : World -> string -> State -> list Ledger.Block.

Local Abbreviation validateChain := (Ledger.validateChain JSON_stringify sha256_hex).
Local Abbreviation appendLetterBlock :=
  (Ledger.appendLetterBlock JSON_stringify sha256_hex).
Local Abbreviation syncFromRemote :=
  (Ledger.syncFromRemote JSON_stringify sha256_hex).
Local Abbreviation syncFromDirectory :=
  (Relay.syncFromDirectory JSON_stringify sha256_hex).
Local Abbreviation ensureFreshChainBeforeWrite :=
  (Relay.ensureFreshChainBeforeWrite JSON_stringify sha256_hex).
Local Abbreviation processQueueEntry :=
  (Relay.processQueueEntry JSON_stringify sha256_hex activeChainAfterReport).
Local Abbreviation drainIteration :=
  (Relay.drainIteration JSON_stringify sha256_hex activeChainAfterReport).
Local Abbreviation drainQueue :=
  (Relay.drainQueue JSON_stringify sha256_hex activeChainAfterReport).

(** What any run of the sync engine leaves alone, and what it may do to the
    queue and the chain. *)
Local Abbreviation syncFrame :=
  (fun st st' : State =>
     config st' = config st
     ∧ queueDeferred st' = queueDeferred st
     ∧ settled st' = settled st
     ∧ lastQueueError st' = lastQueueError st
     ∧ (∃ entries, pendingQueue st' = pendingQueue st ++ entries)
     ∧ (blocks st' = blocks st
        ∨ validateChain (blocks st') = Ledger.Valid)).

Lemma syncFrame_refl (st : State) : syncFrame st st.
Proof.
  repeat split; try done; [by exists []; rewrite app_nil_r | by left].
Qed.

Lemma syncFromDirectory_frame (w : World) (st : State) :
  syncFrame st (syncFromDirectory w st).2
  ∧ (∀ e, (syncFromDirectory w st).1 = Throws e →
          blocks (syncFromDirectory w st).2 = blocks st).
Proof.
  unfold Relay.syncFromDirectory.
  destruct (directoryUrl (config st)) as [dir|];
    [|split; [apply syncFrame_refl | done]].
  destruct (String.eqb dir ""); [split; [apply syncFrame_refl | done]|].
  destruct (chooseRelay w dir) as [relay|];
    [|split; [apply syncFrame_refl | done]].
  destruct (bool_decide _); [split; [apply syncFrame_refl | done]|].
  destruct (falsyStr _); [split; [apply syncFrame_refl | done]|].
  destruct (fetchBlocks w _) as [remote|];
    [|split; [apply syncFrame_refl | done]].
  set (st1 := match detectChainConflict remote st with
              | Some c => _
              | None => st
              end).
  assert (config st1 = config st ∧ queueDeferred st1 = queueDeferred st
          ∧ settled st1 = settled st ∧ lastQueueError st1 = lastQueueError st
          ∧ (∃ entries, pendingQueue st1 = pendingQueue st ++ entries)
          ∧ blocks st1 = blocks st) as (Hc & Hd & Hs & He & Hq & Hb).
  { unfold st1. destruct (detectChainConflict remote st) as [c|];
      [|repeat split; try done; by exists []; rewrite app_nil_r].
    destruct (shouldReplace c);
      [|repeat split; try done; by exists []; rewrite app_nil_r].
    destruct (requeue_entries w (orphanedBlocks c) st)
      as (entries & _ & _ & Hq & _ & H1 & H2 & H3 & H4 & H5 & _).
    destruct (requeueOrphanedLetters w (orphanedBlocks c) st) as [n st'].
    cbn [fst snd] in *.
    repeat split; try done. by exists entries. }
  pose proof (LedgerMore.syncFromRemote_stored JSON_stringify sha256_hex
                remote (blocks st1)
                (from_option shouldReplace false
                   (detectChainConflict remote st))) as Hstored.
  destruct (syncFromRemote remote _ (blocks st1)) as [[result|e] bs] eqn:Hsync.
  - cbn [fst snd] in *. split; [|done].
    repeat split; try done. cbn [blocks set_lastSyncTime set_blocks].
    destruct Hstored as [->|[-> Hv]]; [left; by rewrite Hb | by right].
  - cbn [fst snd] in *. split; [|done].
    repeat split; try done. by left.
Qed.

Lemma ensureFresh_frame (w : World) (st : State) :
  syncFrame st (ensureFreshChainBeforeWrite w st).2
  ∧ (∀ e, (ensureFreshChainBeforeWrite w st).1 = Throws e →
          statusCode e = Some 503%Z
          ∧ falsyStr (directoryUrl (config st)) = false
          ∧ blocks (ensureFreshChainBeforeWrite w st).2 = blocks st).
Proof.
  unfold Relay.ensureFreshChainBeforeWrite.
  destruct (falsyStr (directoryUrl (config st))) eqn:Hdir;
    [split; [apply syncFrame_refl | done]|].
  destruct (syncFromDirectory_frame w st) as [Hframe Hthrow].
  destruct (syncFromDirectory w st) as [[result|error] st1] eqn:Hsync;
    cbn [fst snd] in *.
  - destruct result as [reason|relay conflict result].
    + pose proof (RelayFacts.syncFromDirectory_skipped JSON_stringify
                    sha256_hex w st st1 reason Hsync) as ->.
      destruct (bool_decide (reason = Some "No alternate relay available"));
        cbn [fst snd]; (split; [exact Hframe|]); [done|].
      by intros e [= <-].
    + cbn [fst snd]. split; [exact Hframe | done].
  - specialize (Hthrow error eq_refl).
    destruct (bool_decide (statusCode error = Some 503%Z)) eqn:H503;
      cbn [fst snd]; (split; [exact Hframe|]).
    + apply bool_decide_eq_true in H503. by intros e [= <-].
    + by intros e [= <-].
Qed.

(** One turn of the worker on a queue with head [entry]: the pre-write step
    blocks and the entry stays, or it returns and the letter is appended,
    or it returns with no chain to append to and the entry is dropped. *)
Lemma drainIteration_cases (w : World) (st : State) (entry : PendingEntry)
    (rest : list PendingEntry) :
  pendingQueue st = entry :: rest →
  ∃ more : list PendingEntry,
    pendingQueue (ensureFreshChainBeforeWrite w (bumpAttempts st)).2
    = retried entry :: rest ++ more
    ∧ syncFrame (bumpAttempts st)
        (ensureFreshChainBeforeWrite w (bumpAttempts st)).2
    ∧ ((∃ error : Error,
          (ensureFreshChainBeforeWrite w (bumpAttempts st)).1 = Throws error
          ∧ statusCode error = Some 503%Z
          ∧ falsyStr (directoryUrl (config st)) = false
          ∧ blocks (ensureFreshChainBeforeWrite w (bumpAttempts st)).2
            = blocks st
          ∧ (processQueueEntry w entry st).1 = Throws error
          ∧ drainIteration w st
            = set_lastQueueError (Some (message error))
                (ensureFreshChainBeforeWrite w (bumpAttempts st)).2)
       ∨ (∃ (result : SyncOutcome) (block : Ledger.Block),
            (ensureFreshChainBeforeWrite w (bumpAttempts st)).1
            = Returns result
            ∧ appendLetterBlock (now w) (letterPayload entry)
                (ownerFingerprint entry) (relayMetrics entry)
                (blocks (ensureFreshChainBeforeWrite w (bumpAttempts st)).2)
              = (Returns block,
                 blocks (ensureFreshChainBeforeWrite w (bumpAttempts st)).2
                 ++ [block])
            ∧ (processQueueEntry w entry st).1 = Returns block
            ∧ drainIteration w st
              = resolveQueueEntry (id entry) block
                  (set_pendingQueue (rest ++ more)
                     (reportToDirectory activeChainAfterReport w "post-block"
                        (set_blocks
                           (blocks (ensureFreshChainBeforeWrite w
                                      (bumpAttempts st)).2 ++ [block])
                           (ensureFreshChainBeforeWrite w
                              (bumpAttempts st)).2))))
       ∨ (∃ (result : SyncOutcome) (error : Error),
            (ensureFreshChainBeforeWrite w (bumpAttempts st)).1
            = Returns result
            ∧ blocks (ensureFreshChainBeforeWrite w (bumpAttempts st)).2 = []
            ∧ (processQueueEntry w entry st).1 = Throws error
            ∧ drainIteration w st
              = rejectQueueEntry (id entry) error
                  (set_pendingQueue (rest ++ more)
                     (set_lastQueueError (Some (message error))
                        (ensureFreshChainBeforeWrite w
                           (bumpAttempts st)).2)))).
Proof.
  intros Hq.
  assert (pendingQueue (bumpAttempts st) = retried entry :: rest) as Hbq.
  { unfold bumpAttempts. by rewrite Hq. }
  destruct (RelayFacts.bumpAttempts_frame st entry rest Hq)
    as (Hcfg & Hblocks & _).
  destruct (ensureFresh_frame w (bumpAttempts st)) as [Hframe Hthrow].
  pose proof Hframe as (_ & _ & _ & _ & [more Hmore] & _).
  rewrite Hbq in Hmore. cbn [app] in Hmore.
  exists more. split; [exact Hmore|]. split; [exact Hframe|].
  unfold Relay.drainIteration, Relay.processQueueEntry. rewrite Hq.
  destruct (ensureFreshChainBeforeWrite w (bumpAttempts st))
    as [[result|error] st1] eqn:Hfresh; cbn [fst snd] in *.
  - right.
    destruct (last (blocks st1)) as [prev|] eqn:Hlast.
    + left. unfold Ledger.appendLetterBlock. rewrite Hlast.
      eexists result, _. split; [reflexivity|]. split; [reflexivity|].
      split; [reflexivity|].
      cbn [reportToDirectory pendingQueue set_blocks]. rewrite Hmore.
      reflexivity.
    + right. unfold Ledger.appendLetterBlock. rewrite Hlast.
      eexists result, _. split; [reflexivity|].
      split; [by apply last_None|]. split; [reflexivity|].
      cbn [retryable statusCode plainError orb].
      rewrite bool_decide_false by discriminate.
      cbn [pendingQueue set_lastQueueError]. rewrite Hmore. reflexivity.
  - left. destruct (Hthrow error eq_refl) as (H503 & Hdir & Hb).
    exists error. split; [reflexivity|]. split; [exact H503|].
    split; [by rewrite <- Hcfg|]. split; [by rewrite Hb|].
    split; [reflexivity|].
    rewrite (bool_decide_true _ H503), orb_true_r. reflexivity.
Qed.

(** X18.  The pre-write step fails in one way only: with an error whose
    [statusCode] is 503, and only when a directory is configured.  When it
    fails the stored chain, the settled promises and the waiting promises
    are as before. *)
Theorem ensureFreshChainBeforeWrite_fails_with_503 (w : World) (st : State)
    (error : Error) :
  (ensureFreshChainBeforeWrite w st).1 = Throws error →
  statusCode error = Some 503%Z
  ∧ falsyStr (directoryUrl (config st)) = false
  ∧ blocks (ensureFreshChainBeforeWrite w st).2 = blocks st
  ∧ settled (ensureFreshChainBeforeWrite w st).2 = settled st
  ∧ queueDeferred (ensureFreshChainBeforeWrite w st).2 = queueDeferred st.
Proof.
  intros Hthrow.
  destruct (ensureFresh_frame w st) as [(_ & Hd & Hs & _) Hcase].
  destruct (Hcase error Hthrow) as (H503 & Hdir & Hb).
  by repeat split.
Qed.

(** X19.  A turn of the worker on a chain that is not empty never drops
    the head entry.  Either the pre-write step raised its 503: the entry
    stays at the head with one more attempt, the chain and the promises are
    untouched and the error message is recorded.  Or the letter is appended
    as a block of its own to the chain the pre-write step left, the entry
    leaves the queue and its promise, if one is waiting, is resolved with
    that block.  Entries requeued by the sync follow the old ones. *)
Theorem worker_turn_commits_or_retries (w : World) (st : State)
    (entry : PendingEntry) (rest : list PendingEntry) :
  pendingQueue st = entry :: rest →
  blocks st ≠ [] →
  ∃ more : list PendingEntry,
    (∃ error : Error,
       (processQueueEntry w entry st).1 = Throws error
       ∧ statusCode error = Some 503%Z
       ∧ pendingQueue (drainIteration w st) = retried entry :: rest ++ more
       ∧ blocks (drainIteration w st) = blocks st
       ∧ settled (drainIteration w st) = settled st
       ∧ queueDeferred (drainIteration w st) = queueDeferred st
       ∧ lastQueueError (drainIteration w st) = Some (message error))
    ∨ (∃ block : Ledger.Block,
         (processQueueEntry w entry st).1 = Returns block
         ∧ Ledger.letters block
           = [ {| Ledger.ownerFingerprint := ownerFingerprint entry;
                  Ledger.payload := letterPayload entry |} ]
         ∧ Ledger.timestamp block = now w
         ∧ pendingQueue (drainIteration w st) = rest ++ more
         ∧ blocks (drainIteration w st)
           = activeChainAfterReport w "post-block"
               (set_blocks
                  (blocks (ensureFreshChainBeforeWrite w (bumpAttempts st)).2
                   ++ [block])
                  (ensureFreshChainBeforeWrite w (bumpAttempts st)).2)
         ∧ settled (drainIteration w st)
           = settled st
             ++ (if bool_decide (id entry ∈ queueDeferred st)
                 then [(id entry, Resolved block)] else [])
         ∧ queueDeferred (drainIteration w st)
           = queueDeferred st ∖ {[ id entry ]}).
Proof.
  intros Hq Hne.
  destruct (RelayFacts.bumpAttempts_frame st entry rest Hq)
    as (_ & Hblocks & _ & Hdef & Hset & _).
  destruct (drainIteration_cases w st entry rest Hq)
    as (more & Hmore & (_ & Hd & Hs & _ & _ & Hchain) & Hcases).
  exists more.
  destruct Hcases as [(error & _ & H503 & _ & Hb & Hproc & ->)
                     |[(result & block & _ & Happ & Hproc & ->)
                      |(result & error & _ & Hnil & _)]].
  - left. exists error. split; [exact Hproc|]. split; [exact H503|].
    cbn [pendingQueue blocks settled queueDeferred lastQueueError
         set_lastQueueError].
    rewrite Hmore, Hb, Hs, Hd, Hset, Hdef. by repeat split.
  - right. exists block. split; [exact Hproc|].
    assert (Ledger.letters block
            = [ {| Ledger.ownerFingerprint := ownerFingerprint entry;
                   Ledger.payload := letterPayload entry |} ]
            ∧ Ledger.timestamp block = now w) as [Hlet Hts].
    { revert Happ. unfold Ledger.appendLetterBlock.
      destruct (last _) as [prev|]; [|discriminate].
      by intros [= <- _]. }
    split; [exact Hlet|]. split; [exact Hts|].
    unfold resolveQueueEntry.
    destruct (settle_fields (id entry) (Resolved block)
                (set_pendingQueue (rest ++ more)
                   (reportToDirectory activeChainAfterReport w "post-block"
                      (set_blocks
                         (blocks (ensureFreshChainBeforeWrite w
                                    (bumpAttempts st)).2 ++ [block])
                         (ensureFreshChainBeforeWrite w (bumpAttempts st)).2))))
      as (H1 & H2 & _ & H4 & H5 & _).
    rewrite H1, H2, H4, H5.
    cbn [pendingQueue blocks settled queueDeferred set_pendingQueue
         reportToDirectory set_blocks].
    rewrite Hs, Hd, Hset, Hdef. by repeat split.
  - exfalso. destruct Hchain as [Hsame|Hvalid].
    + rewrite Hnil, Hblocks in Hsame. by destruct Hne.
    + rewrite Hnil in Hvalid. discriminate.
Qed.

(** X23.  Fork resolution in the worker's pre-write sync (the worker is
    busy, so queueing letters again starts no second drain).  When the
    chosen peer serves a valid chain that forks from the local one and is
    at least as long, the sync installs
    the peer's chain, queues again every letter of the local blocks from the
    fork on (after the entries already queued), and records the conflict
    with the fork position, both heights, the snapshot path and the number
    of letters replayed.  Promises are not touched. *)
Theorem syncFromDirectory_resolves_fork (w : World) (st : State)
    (relay : Selector.Relay) (remote : list Ledger.Block) (c : Conflict) :
  processingQueue st = true →
  peerServes w st relay remote →
  validateChain remote = Ledger.Valid →
  detectChainConflict remote st = Some c →
  shouldReplace c = true →
  ∃ entries : list PendingEntry,
    (syncFromDirectory w st).1
    = Returns
        (Synced (Selector.onion relay)
           (Some {| resolvedAt := now w;
                    ci_divergeAt := divergeAt c;
                    ci_localHeight := length (blocks st);
                    ci_remoteHeight := length remote;
                    ci_backupPath := snapshotPath w;
                    replayedLetters := length entries |})
           {| Ledger.updated := true;
              Ledger.sync_message :=
                "Chain replaced with remote copy (forced)" |})
    ∧ blocks (syncFromDirectory w st).2 = remote
    ∧ pendingQueue (syncFromDirectory w st).2 = pendingQueue st ++ entries
    ∧ (fun e => (letterPayload e, ownerFingerprint e, replayedFromBlock e,
                 attempts e)) <$> entries
      = (fun bl : Ledger.Block * Ledger.Letter =>
           (Ledger.payload bl.2, Ledger.ownerFingerprint bl.2,
            Some (Ledger.index bl.1), 0%Z))
          <$> lettersIn (drop (divergeAt c) (blocks st))
    ∧ lastConflictInfo (syncFromDirectory w st).2
      = Some {| resolvedAt := now w;
                ci_divergeAt := divergeAt c;
                ci_localHeight := length (blocks st);
                ci_remoteHeight := length remote;
                ci_backupPath := snapshotPath w;
                replayedLetters := length entries |}
    ∧ lastSyncTime (syncFromDirectory w st).2 = Some (now w)
    ∧ settled (syncFromDirectory w st).2 = settled st
    ∧ queueDeferred (syncFromDirectory w st).2 = queueDeferred st.
Proof.
  intros _ Hpeer Hvalid Hdetect Hreplace.
  pose proof (detectChainConflict_cases remote st) as Hcases.
  rewrite Hdetect in Hcases. destruct Hcases as [_ Hc].
  assert (orphanedBlocks c = drop (divergeAt c) (blocks st)
          ∧ localHeight c = length (blocks st)
          ∧ remoteHeight c = length remote) as (Horph & Hlh & Hrh).
  { rewrite Hc. by cbn. }
  destruct (requeue_entries w (orphanedBlocks c) st)
    as (entries & Hn & Hlen & Hq & Hent & _ & Hb & Hd & Hs & _).
  exists entries.
  reach_peer Hpeer. rewrite Hdetect. cbn [from_option]. rewrite Hreplace.
  destruct (requeueOrphanedLetters w (orphanedBlocks c) st) as [n st'].
  cbn [fst snd] in Hn, Hq, Hb, Hd, Hs. subst n.
  unfold Ledger.syncFromRemote. rewrite Hvalid. cbn [negb andb fst snd].
  cbn [blocks pendingQueue lastConflictInfo lastSyncTime settled queueDeferred
       set_lastSyncTime set_blocks set_lastConflictInfo].
  rewrite Hlh, Hrh, Hq, Hs, Hd.
  split; [reflexivity|]. split; [reflexivity|]. split; [reflexivity|].
  split; [rewrite <- Horph; by apply (entries_cover w)|].
  by repeat split.
Qed.

(** X24.  Without a fork to replace, the sync requeues nothing and records
    no conflict.  It installs the peer's valid chain only when that chain is
    strictly longer, and then the peer's chain carries the local hash at
    every local position; otherwise the local chain stays. *)
Theorem syncFromDirectory_without_fork (w : World) (st : State)
    (relay : Selector.Relay) (remote : list Ledger.Block) :
  peerServes w st relay remote →
  validateChain remote = Ledger.Valid →
  from_option shouldReplace false (detectChainConflict remote st) = false →
  (∃ result : Ledger.SyncResult,
     (syncFromDirectory w st).1
     = Returns (Synced (Selector.onion relay) (lastConflictInfo st) result)
     ∧ Ledger.updated result = negb (length remote <=? length (blocks st)))
  ∧ blocks (syncFromDirectory w st).2
    = (if length remote <=? length (blocks st) then blocks st else remote)
  ∧ (length (blocks st) < length remote →
     ∀ (j : nat) (a : Ledger.Block), blocks st !! j = Some a →
       ∃ b : Ledger.Block,
         remote !! j = Some b ∧ Ledger.hash a = Ledger.hash b)
  ∧ pendingQueue (syncFromDirectory w st).2 = pendingQueue st
  ∧ lastConflictInfo (syncFromDirectory w st).2 = lastConflictInfo st
  ∧ lastSyncTime (syncFromDirectory w st).2 = Some (now w).
Proof.
  intros Hpeer Hvalid Hkeep.
  pose proof (detectChainConflict_cases remote st) as Hcases.
  assert (length (blocks st) < length remote →
          ∀ (j : nat) (a : Ledger.Block), blocks st !! j = Some a →
            ∃ b : Ledger.Block,
              remote !! j = Some b ∧ Ledger.hash a = Ledger.hash b)
    as Hprefix.
  { intros Hlonger j a Ha.
    destruct (remote !! j) as [b|] eqn:Hb.
    - exists b. split; [done|].
      destruct (detectChainConflict remote st) as [c|].
      + destruct Hcases as [_ Hc]. rewrite Hc in Hkeep.
        cbn [from_option shouldReplace] in Hkeep.
        apply Nat.leb_gt in Hkeep. lia.
      + by apply (proj1 (firstHashMismatch_None 0 (blocks st) remote) Hcases j).
    - apply lookup_ge_None in Hb. apply lookup_lt_Some in Ha. lia. }
  reach_peer Hpeer.
  assert (match detectChainConflict remote st with
          | Some c0 =>
              if shouldReplace c0
              then
                let '(n, st') :=
                  requeueOrphanedLetters w (orphanedBlocks c0) st in
                set_lastConflictInfo
                  (Some {| resolvedAt := now w;
                           ci_divergeAt := divergeAt c0;
                           ci_localHeight := localHeight c0;
                           ci_remoteHeight := remoteHeight c0;
                           ci_backupPath := snapshotPath w;
                           replayedLetters := n |}) st'
              else st
          | None => st
          end = st) as ->.
  { destruct (detectChainConflict remote st) as [c|]; [|done].
    cbn [from_option] in Hkeep. by rewrite Hkeep. }
  rewrite Hkeep. unfold Ledger.syncFromRemote. rewrite Hvalid.
  cbn [negb andb].
  destruct (length remote <=? length (blocks st)); cbn [fst snd negb].
  - split; [by eexists|]. by repeat split.
  - split; [by eexists|]. by repeat split.
Qed.

(** X25.  A peer's chain that fails validation is never installed: the
    sync throws "Remote chain invalid: <reason>", the chain and the time of
    the last sync stay, and the pre-write step turns the failure into its
    503.  The validation comes last, though: when the invalid chain forks
    from the local one and is at least as long, the letters from the fork on
    have by then been queued again and the conflict recorded, with the
    local blocks still in place. *)
Theorem syncFromDirectory_invalid_remote (w : World) (st : State)
    (relay : Selector.Relay) (remote : list Ledger.Block) (reason : string) :
  peerServes w st relay remote →
  validateChain remote = Ledger.Invalid reason →
  (syncFromDirectory w st).1
  = Throws (plainError ("Remote chain invalid: " +:+ reason))
  ∧ blocks (syncFromDirectory w st).2 = blocks st
  ∧ lastSyncTime (syncFromDirectory w st).2 = lastSyncTime st
  ∧ (ensureFreshChainBeforeWrite w st).1
    = Throws (blocked503 "写入前无法同步链数据，请稍后重试")
  ∧ match detectChainConflict remote st with
    | Some c =>
        if shouldReplace c then
          ∃ entries : list PendingEntry,
            pendingQueue (syncFromDirectory w st).2
            = pendingQueue st ++ entries
            ∧ length entries
              = length (lettersIn (drop (divergeAt c) (blocks st)))
            ∧ lastConflictInfo (syncFromDirectory w st).2
              = Some {| resolvedAt := now w;
                        ci_divergeAt := divergeAt c;
                        ci_localHeight := length (blocks st);
                        ci_remoteHeight := length remote;
                        ci_backupPath := snapshotPath w;
                        replayedLetters := length entries |}
        else (syncFromDirectory w st).2 = st
    | None => (syncFromDirectory w st).2 = st
    end.
Proof.
  intros Hpeer Hinvalid.
  pose proof (detectChainConflict_cases remote st) as Hcases.
  assert (falsyStr (directoryUrl (config st)) = false) as Hconfigured.
  { destruct Hpeer as (dir & base & -> & Hne%String.eqb_neq & _). exact Hne. }
  unfold Relay.ensureFreshChainBeforeWrite. rewrite Hconfigured.
  reach_peer Hpeer.
  unfold Ledger.syncFromRemote. rewrite Hinvalid. cbn [fst snd].
  destruct (detectChainConflict remote st) as [c|]; [|by repeat split].
  destruct (shouldReplace c) eqn:Hreplace; [|by repeat split].
  destruct Hcases as [_ Hc].
  assert (orphanedBlocks c = drop (divergeAt c) (blocks st)
          ∧ localHeight c = length (blocks st)
          ∧ remoteHeight c = length remote) as (Horph & Hlh & Hrh).
  { rewrite Hc. by cbn. }
  destruct (requeue_entries w (orphanedBlocks c) st)
    as (entries & Hn & Hlen & Hq & _ & _ & Hb & _ & _ & _ & _ & Ht).
  destruct (requeueOrphanedLetters w (orphanedBlocks c) st) as [n st'].
  cbn [fst snd] in Hn, Hq, Hb, Ht. subst n.
  cbn [blocks pendingQueue lastConflictInfo lastSyncTime
       set_lastConflictInfo fst snd].
  split; [reflexivity|]. split; [exact Hb|]. split; [exact Ht|].
  split; [reflexivity|].
  exists entries. rewrite Hlh, Hrh, <- Horph. by repeat split.
Qed.

Lemma drainIteration_keeps_valid (w : World) (st : State) :
  (∀ (w : World) (trigger : string) (s : State),
     validateChain (blocks s) = Ledger.Valid →
     validateChain (activeChainAfterReport w trigger s) = Ledger.Valid) →
  validateChain (blocks st) = Ledger.Valid →
  validateChain (blocks (drainIteration w st)) = Ledger.Valid.
Proof.
  intros Hreport Hvalid.
  destruct (pendingQueue st) as [|entry rest] eqn:Hq.
  { unfold Relay.drainIteration. by rewrite Hq. }
  destruct (RelayFacts.bumpAttempts_frame st entry rest Hq)
    as (_ & Hblocks & _).
  destruct (drainIteration_cases w st entry rest Hq)
    as (more & Hmore & (_ & _ & _ & _ & _ & Hchain) & Hcases).
  assert (validateChain
            (blocks (ensureFreshChainBeforeWrite w (bumpAttempts st)).2)
          = Ledger.Valid) as Hvalid1.
  { destruct Hchain as [->|Hv]; [by rewrite Hblocks | exact Hv]. }
  destruct Hcases as [(error & _ & _ & _ & Hb & _ & ->)
                     |[(result & block & _ & Happ & _ & ->)
                      |(result & error & _ & Hnil & _)]].
  - cbn [blocks set_lastQueueError]. by rewrite Hb.
  - destruct (LedgerMore.append_step JSON_stringify sha256_hex (now w)
                (letterPayload entry) (ownerFingerprint entry)
                (relayMetrics entry) _ Hvalid1)
      as (prev & block' & _ & Happ' & _ & _ & _ & Hv').
    rewrite Happ in Happ'. injection Happ' as <-.
    unfold resolveQueueEntry.
    destruct (settle_fields (id entry) (Resolved block)
                (set_pendingQueue (rest ++ more)
                   (reportToDirectory activeChainAfterReport w "post-block"
                      (set_blocks
                         (blocks (ensureFreshChainBeforeWrite w
                                    (bumpAttempts st)).2 ++ [block])
                         (ensureFreshChainBeforeWrite w (bumpAttempts st)).2))))
      as (_ & _ & _ & -> & _).
    cbn [blocks set_pendingQueue reportToDirectory set_blocks].
    apply Hreport. exact Hv'.
  - rewrite Hnil in Hvalid1. discriminate.
Qed.

(** X26.  The relay never comes to hold a chain that fails validation: from
    a valid chain, a sync and, as long as a heartbeat only ever activates
    valid chains, a turn of the worker and a whole drain of the queue leave
    a valid chain. *)
Theorem relay_chain_stays_valid (w : World) (worlds : list World)
    (st : State) :
  (∀ (w : World) (trigger : string) (s : State),
     validateChain (blocks s) = Ledger.Valid →
     validateChain (activeChainAfterReport w trigger s) = Ledger.Valid) →
  validateChain (blocks st) = Ledger.Valid →
  validateChain (blocks (syncFromDirectory w st).2) = Ledger.Valid
  ∧ validateChain (blocks (drainIteration w st)) = Ledger.Valid
  ∧ validateChain (blocks (drainQueue worlds st)) = Ledger.Valid.
Proof.
  intros Hreport Hvalid.
  split.
  { destruct (syncFromDirectory_frame w st)
      as [(_ & _ & _ & _ & _ & [->|Hv]) _]; done. }
  split; [by apply drainIteration_keeps_valid|].
  revert st Hvalid. induction worlds as [|w' worlds IH]; intros st Hvalid.
  - cbn [Relay.drainQueue]. by destruct (pendingQueue st).
  - cbn [Relay.drainQueue].
    destruct (pendingQueue st) eqn:Hq; [done|].
    apply IH. by apply drainIteration_keeps_valid.
Qed.

(** A turn of the worker of a relay with no directory, when the heartbeat
    leaves the chain alone. *)
Lemma drainIteration_no_directory (w : World) (st : State)
    (entry : PendingEntry) (rest : list PendingEntry) :
  falsyStr (directoryUrl (config st)) = true →
  (∀ (w : World) (trigger : string) (s : State),
     activeChainAfterReport w trigger s = blocks s) →
  pendingQueue st = entry :: rest →
  blocks st ≠ [] →
  ∃ block : Ledger.Block,
    Ledger.letters block
    = [ {| Ledger.ownerFingerprint := ownerFingerprint entry;
           Ledger.payload := letterPayload entry |} ]
    ∧ Ledger.timestamp block = now w
    ∧ config (drainIteration w st) = config st
    ∧ blocks (drainIteration w st) = blocks st ++ [block]
    ∧ pendingQueue (drainIteration w st) = rest
    ∧ settled (drainIteration w st)
      = settled st
        ++ (if bool_decide (id entry ∈ queueDeferred st)
            then [(id entry, Resolved block)] else [])
    ∧ queueDeferred (drainIteration w st) = queueDeferred st ∖ {[ id entry ]}.
Proof.
  intros Hdir Hreport Hq Hne.
  destruct (RelayFacts.bumpAttempts_frame st entry rest Hq)
    as (Hcfg & Hblocks & Htail & Hdef & Hset & _).
  assert (ensureFreshChainBeforeWrite w (bumpAttempts st)
          = (Returns (Skipped (Some "No directory configured")),
             bumpAttempts st)) as Hfresh.
  { apply RelayFacts.ensureFresh_no_directory. by rewrite Hcfg. }
  destruct (LedgerFacts.appendLetterBlock_returns JSON_stringify sha256_hex
              (now w) (letterPayload entry) (ownerFingerprint entry)
              (relayMetrics entry) (blocks st) Hne) as [block Happ].
  exists block.
  assert (Ledger.letters block
          = [ {| Ledger.ownerFingerprint := ownerFingerprint entry;
                 Ledger.payload := letterPayload entry |} ]
          ∧ Ledger.timestamp block = now w) as [Hlet Hts].
  { revert Happ. unfold Ledger.appendLetterBlock.
    destruct (last _) as [prev|]; [|discriminate].
    by intros [= <- _]. }
  split; [exact Hlet|]. split; [exact Hts|].
  unfold Relay.drainIteration, Relay.processQueueEntry.
  rewrite Hq, Hfresh, Hblocks, Happ.
  unfold resolveQueueEntry, reportToDirectory. rewrite Hreport.
  match goal with
  | |- context [settle ?i ?s ?x] =>
      destruct (settle_fields i s x) as (H1 & H2 & H3 & H4 & H5 & _)
  end.
  rewrite H1, H2, H3, H4, H5.
  cbn [config blocks pendingQueue settled queueDeferred set_pendingQueue
       set_blocks].
  rewrite Hcfg, Htail, Hdef, Hset. by repeat split.
Qed.

(** X27.  A relay with no directory commits its queue first in, first
    out.  Given one answer of the world per queued entry, a chain that is
    not empty and entries with distinct ids whose promises are waiting, a
    drain empties the queue, appends one block per entry in queue order,
    each holding that entry's letter alone and stamped with the time of its
    turn, resolves each promise with its own block, in that order, and
    leaves the worker idle. *)
Theorem drainQueue_without_directory_is_fifo (worlds : list World)
    (st : State) :
  falsyStr (directoryUrl (config st)) = true →
  (∀ (w : World) (trigger : string) (s : State),
     activeChainAfterReport w trigger s = blocks s) →
  blocks st ≠ [] →
  length (pendingQueue st) ≤ length worlds →
  NoDup (id <$> pendingQueue st) →
  (∀ entry, entry ∈ pendingQueue st → id entry ∈ queueDeferred st) →
  ∃ newBlocks : list Ledger.Block,
    blocks (drainQueue worlds st) = blocks st ++ newBlocks
    ∧ Ledger.letters <$> newBlocks
      = (fun entry =>
           [ {| Ledger.ownerFingerprint := ownerFingerprint entry;
                Ledger.payload := letterPayload entry |} ])
          <$> pendingQueue st
    ∧ Ledger.timestamp <$> newBlocks
      = now <$> take (length (pendingQueue st)) worlds
    ∧ settled (drainQueue worlds st)
      = settled st
        ++ zip_with (fun entry block => (id entry, Resolved block))
             (pendingQueue st) newBlocks
    ∧ pendingQueue (drainQueue worlds st) = []
    ∧ processingQueue (drainQueue worlds st) = false.
Proof.
  intros Hdir Hreport. revert st Hdir.
  induction worlds as [|w worlds IH]; intros st Hdir Hne Hlen Hnodup Hwait.
  - destruct (pendingQueue st) as [|entry rest] eqn:Hq;
      [|cbn in Hlen; lia].
    exists []. cbn [Relay.drainQueue]. rewrite Hq.
    cbn [blocks settled pendingQueue processingQueue set_processingQueue
         fmap list_fmap zip_with take length].
    rewrite !app_nil_r. by repeat split.
  - destruct (pendingQueue st) as [|entry rest] eqn:Hq.
    + exists []. cbn [Relay.drainQueue]. rewrite Hq.
      cbn [blocks settled pendingQueue processingQueue set_processingQueue
           fmap list_fmap zip_with take length].
      rewrite !app_nil_r. by repeat split.
    + cbn [Relay.drainQueue]. rewrite Hq.
      destruct (drainIteration_no_directory w st entry rest Hdir Hreport
                  Hq Hne)
        as (block & Hlet & Hts & Hcfg & Hb & Hqueue & Hs & Hd).
      rewrite bool_decide_true in Hs
        by (apply Hwait; by left).
      cbn [fmap list_fmap] in Hnodup. apply NoDup_cons in Hnodup as [Hfresh Hnodup].
      destruct (IH (drainIteration w st)) as (newBlocks & Hb' & Hlet' & Hts'
                                              & Hs' & Hq' & Hp').
      * by rewrite Hcfg.
      * rewrite Hb. by destruct (blocks st).
      * rewrite Hqueue. cbn [length] in Hlen. lia.
      * by rewrite Hqueue.
      * intros e He. rewrite Hqueue in He. rewrite Hd.
        apply elem_of_difference. split; [apply Hwait; by right|].
        intros Hsame%elem_of_singleton. apply Hfresh.
        apply list_elem_of_fmap. by exists e.
      * exists (block :: newBlocks).
        rewrite Hb', Hb, <- app_assoc. split; [done|].
        cbn [fmap list_fmap length take zip_with].
        rewrite Hlet, Hts. rewrite Hqueue in Hlet', Hts', Hs'.
        change (list_fmap _ _ Ledger.letters newBlocks)
          with (Ledger.letters <$> newBlocks).
        change (list_fmap _ _ Ledger.timestamp newBlocks)
          with (Ledger.timestamp <$> newBlocks).
        rewrite Hlet', Hts', Hs', Hs, <- app_assoc.
        by repeat split.
Qed.

End WithRuntime.

Lemma sample_peer (remote : list Ledger.Block) (st : State) :
  config st = {| directoryUrl := Some "http://dir";
                 onion := Some "self.onion" |} →
  peerServes (Sample.world [Sample.relay0ms] (Some remote)) st
    Sample.relay0ms remote.
Proof.
  intros Hcfg. exists "http://dir", "http://a". rewrite Hcfg.
  split; [reflexivity|]. split; [discriminate|].
  split; [vm_compute; reflexivity|]. split; [discriminate|].
  split; [reflexivity|]. split; [discriminate|]. reflexivity.
Defined.

Lemma ensureFreshChainBeforeWrite_fails_with_503_witness :
  (Relay.ensureFreshChainBeforeWrite Sample.stringify Sample.digest
     (Sample.world [Sample.relay0ms] None) Sample.relayIdle).1
  = Throws (blocked503 "写入前同步被阻止: Failed to fetch blocks")
  ∧ blocks (Relay.ensureFreshChainBeforeWrite Sample.stringify Sample.digest
              (Sample.world [Sample.relay0ms] None) Sample.relayIdle).2
    = blocks Sample.relayIdle.
Proof.
  assert ((Relay.ensureFreshChainBeforeWrite Sample.stringify Sample.digest
             (Sample.world [Sample.relay0ms] None) Sample.relayIdle).1
          = Throws (blocked503 "写入前同步被阻止: Failed to fetch blocks"))
    as Hthrow by (vm_compute; reflexivity).
  split; [exact Hthrow|].
  exact (proj1 (proj2 (proj2
           (ensureFreshChainBeforeWrite_fails_with_503 Sample.stringify
              Sample.digest _ _ _ Hthrow)))).
Defined.

Lemma worker_turn_commits_or_retries_witness :
  pendingQueue (Sample.relayState None) = [Sample.letter1]
  ∧ blocks (Sample.relayState None) ≠ []
  ∧ ∃ more : list PendingEntry,
      pendingQueue
        (Relay.drainIteration Sample.stringify Sample.digest Sample.sameChain
           (Sample.world [] None) (Sample.relayState None))
      = retried Sample.letter1 :: [] ++ more
      ∨ pendingQueue
          (Relay.drainIteration Sample.stringify Sample.digest
             Sample.sameChain (Sample.world [] None) (Sample.relayState None))
        = [] ++ more.
Proof.
  split; [reflexivity|]. split; [discriminate|].
  destruct (worker_turn_commits_or_retries Sample.stringify Sample.digest
              Sample.sameChain (Sample.world [] None) (Sample.relayState None)
              Sample.letter1 [] eq_refl)
    as (more & [(error & _ & _ & Hq & _)|(block & _ & _ & _ & Hq & _)]).
  - discriminate.
  - exists more. left. exact Hq.
  - exists more. right. exact Hq.
Defined.

Lemma syncFromDirectory_resolves_fork_witness :
  processingQueue Sample.relayForkedBusy = true
  ∧ peerServes (Sample.world [Sample.relay0ms] (Some Sample.forkRemote))
    Sample.relayForkedBusy Sample.relay0ms Sample.forkRemote
  ∧ Ledger.validateChain Sample.stamp Sample.digest Sample.forkRemote
    = Ledger.Valid
  ∧ detectChainConflict Sample.forkRemote Sample.relayForkedBusy
    = Some {| divergeAt := 1;
              localBlocks := Sample.forkLocal;
              orphanedBlocks := drop 1 Sample.forkLocal;
              localHeight := 2;
              remoteHeight := 2;
              shouldReplace := true |}
  ∧ blocks (Relay.syncFromDirectory Sample.stamp Sample.digest
              (Sample.world [Sample.relay0ms] (Some Sample.forkRemote))
              Sample.relayForkedBusy).2
    = Sample.forkRemote.
Proof.
  pose proof (sample_peer Sample.forkRemote Sample.relayForkedBusy eq_refl)
    as Hpeer.
  assert (Ledger.validateChain Sample.stamp Sample.digest Sample.forkRemote
          = Ledger.Valid) as Hvalid by (vm_compute; reflexivity).
  assert (detectChainConflict Sample.forkRemote Sample.relayForkedBusy
          = Some {| divergeAt := 1;
                    localBlocks := Sample.forkLocal;
                    orphanedBlocks := drop 1 Sample.forkLocal;
                    localHeight := 2;
                    remoteHeight := 2;
                    shouldReplace := true |})
    as Hfork by (vm_compute; reflexivity).
  split; [reflexivity|].
  split; [exact Hpeer|]. split; [exact Hvalid|]. split; [exact Hfork|].
  destruct (syncFromDirectory_resolves_fork Sample.stamp Sample.digest
              _ Sample.relayForkedBusy _ _ _ eq_refl Hpeer Hvalid Hfork
              eq_refl)
    as (entries & _ & Hblocks & _).
  exact Hblocks.
Defined.

Lemma syncFromDirectory_without_fork_witness :
  peerServes (Sample.world [Sample.relay0ms] (Some Sample.chain2))
    Sample.relayIdle Sample.relay0ms Sample.chain2
  ∧ Ledger.validateChain Sample.stringify Sample.digest Sample.chain2
    = Ledger.Valid
  ∧ from_option shouldReplace false
      (detectChainConflict Sample.chain2 Sample.relayIdle) = false
  ∧ blocks (Relay.syncFromDirectory Sample.stringify Sample.digest
              (Sample.world [Sample.relay0ms] (Some Sample.chain2))
              Sample.relayIdle).2
    = (if length Sample.chain2 <=? length (blocks Sample.relayIdle)
       then blocks Sample.relayIdle else Sample.chain2).
Proof.
  pose proof (sample_peer Sample.chain2 Sample.relayIdle eq_refl) as Hpeer.
  assert (Ledger.validateChain Sample.stringify Sample.digest Sample.chain2
          = Ledger.Valid) as Hvalid by (vm_compute; reflexivity).
  assert (from_option shouldReplace false
            (detectChainConflict Sample.chain2 Sample.relayIdle) = false)
    as Hkeep by (vm_compute; reflexivity).
  split; [exact Hpeer|]. split; [exact Hvalid|]. split; [exact Hkeep|].
  exact (proj1 (proj2
           (syncFromDirectory_without_fork Sample.stringify Sample.digest
              _ _ _ _ Hpeer Hvalid Hkeep))).
Defined.

Lemma syncFromDirectory_invalid_remote_witness :
  peerServes
    (Sample.world [Sample.relay0ms]
       (Some [Sample.forkGenesis; Sample.forkGenesis]))
    Sample.relayForked Sample.relay0ms
    [Sample.forkGenesis; Sample.forkGenesis]
  ∧ Ledger.validateChain Sample.stamp Sample.digest
      [Sample.forkGenesis; Sample.forkGenesis]
    = Ledger.Invalid "Broken link at index 0"
  ∧ blocks (Relay.syncFromDirectory Sample.stamp Sample.digest
              (Sample.world [Sample.relay0ms]
                 (Some [Sample.forkGenesis; Sample.forkGenesis]))
              Sample.relayForked).2
    = blocks Sample.relayForked.
Proof.
  pose proof (sample_peer [Sample.forkGenesis; Sample.forkGenesis]
                Sample.relayForked eq_refl) as Hpeer.
  assert (Ledger.validateChain Sample.stamp Sample.digest
            [Sample.forkGenesis; Sample.forkGenesis]
          = Ledger.Invalid "Broken link at index 0")
    as Hinvalid by (vm_compute; reflexivity).
  split; [exact Hpeer|]. split; [exact Hinvalid|].
  exact (proj1 (proj2
           (syncFromDirectory_invalid_remote Sample.stamp Sample.digest
              _ _ _ _ _ Hpeer Hinvalid))).
Defined.

Lemma relay_chain_stays_valid_witness :
  (∀ (w : World) (trigger : string) (s : State),
     Ledger.validateChain Sample.stringify Sample.digest (blocks s)
     = Ledger.Valid →
     Ledger.validateChain Sample.stringify Sample.digest
       (Sample.sameChain w trigger s) = Ledger.Valid)
  ∧ Ledger.validateChain Sample.stringify Sample.digest
      (blocks (Sample.relayState None)) = Ledger.Valid
  ∧ Ledger.validateChain Sample.stringify Sample.digest
      (blocks (Relay.drainQueue Sample.stringify Sample.digest
                 Sample.sameChain [Sample.world [] None]
                 (Sample.relayState None))) = Ledger.Valid.
Proof.
  assert (∀ (w : World) (trigger : string) (s : State),
            Ledger.validateChain Sample.stringify Sample.digest (blocks s)
            = Ledger.Valid →
            Ledger.validateChain Sample.stringify Sample.digest
              (Sample.sameChain w trigger s) = Ledger.Valid) as Hreport.
  { intros w trigger s Hvalid. exact Hvalid. }
  assert (Ledger.validateChain Sample.stringify Sample.digest
            (blocks (Sample.relayState None)) = Ledger.Valid)
    as Hvalid by (vm_compute; reflexivity).
  split; [exact Hreport|]. split; [exact Hvalid|].
  exact (proj2 (proj2
           (relay_chain_stays_valid Sample.stringify Sample.digest
              Sample.sameChain (Sample.world [] None) [Sample.world [] None]
              (Sample.relayState None) Hreport Hvalid))).
Defined.

Lemma drainQueue_without_directory_is_fifo_witness :
  falsyStr (directoryUrl (config Sample.relayTwoQueued)) = true
  ∧ (∀ (w : World) (trigger : string) (s : State),
       Sample.sameChain w trigger s = blocks s)
  ∧ blocks Sample.relayTwoQueued ≠ []
  ∧ length (pendingQueue Sample.relayTwoQueued)
    ≤ length [Sample.world [] None; Sample.world [] None]
  ∧ NoDup (id <$> pendingQueue Sample.relayTwoQueued)
  ∧ (∀ entry, entry ∈ pendingQueue Sample.relayTwoQueued →
       id entry ∈ queueDeferred Sample.relayTwoQueued)
  ∧ ∃ newBlocks : list Ledger.Block,
      blocks
        (Relay.drainQueue Sample.stringify Sample.digest Sample.sameChain
           [Sample.world [] None; Sample.world [] None] Sample.relayTwoQueued)
      = blocks Sample.relayTwoQueued ++ newBlocks
      ∧ Ledger.letters <$> newBlocks
        = [ [ {| Ledger.ownerFingerprint := "FP_A";
                 Ledger.payload := Sample.env1 |} ];
            [ {| Ledger.ownerFingerprint := "FP_B";
                 Ledger.payload := Sample.env2 |} ] ]
      ∧ settled
          (Relay.drainQueue Sample.stringify Sample.digest Sample.sameChain
             [Sample.world [] None; Sample.world [] None]
             Sample.relayTwoQueued)
        = settled Sample.relayTwoQueued
          ++ zip_with (fun entry block => (id entry, Resolved block))
               [Sample.letterA; Sample.letterB] newBlocks.
Proof.
  assert (∀ (w : World) (trigger : string) (s : State),
            Sample.sameChain w trigger s = blocks s) as Hreport
    by (intros w trigger s; reflexivity).
  assert (blocks Sample.relayTwoQueued ≠ []) as Hne by discriminate.
  assert (length (pendingQueue Sample.relayTwoQueued)
          ≤ length [Sample.world [] None; Sample.world [] None]) as Hlen
    by (cbn; lia).
  assert (NoDup (id <$> pendingQueue Sample.relayTwoQueued)) as Hnodup.
  { change (NoDup ["id-a"; "id-b"]).
    apply NoDup_cons. split; [|apply NoDup_singleton].
    intros Hin%list_elem_of_singleton. discriminate. }
  assert (∀ entry, entry ∈ pendingQueue Sample.relayTwoQueued →
            id entry ∈ queueDeferred Sample.relayTwoQueued) as Hwait.
  { intros entry Hin.
    change (entry ∈ [Sample.letterA; Sample.letterB]) in Hin.
    change (id entry ∈ ({[ "id-a" ]} ∪ {[ "id-b" ]} : gset string)).
    apply elem_of_cons in Hin as [->|Hin].
    - apply elem_of_union_l. by apply elem_of_singleton.
    - apply list_elem_of_singleton in Hin as ->.
      apply elem_of_union_r. by apply elem_of_singleton. }
  split; [reflexivity|]. split; [exact Hreport|]. split; [exact Hne|].
  split; [exact Hlen|]. split; [exact Hnodup|]. split; [exact Hwait|].
  destruct (drainQueue_without_directory_is_fifo Sample.stringify
              Sample.digest Sample.sameChain
              [Sample.world [] None; Sample.world [] None]
              Sample.relayTwoQueued eq_refl Hreport Hne Hlen Hnodup Hwait)
    as (newBlocks & Hblocks & Hletters & _ & Hsettled & _).
  exists newBlocks. split; [exact Hblocks|].
  split; [exact Hletters | exact Hsettled].
Defined.

End RelayMore.

(** ** Heartbeat bookkeeping *)

Module HeartbeatMore.
Import Heartbeat.
Local Open Scope Z_scope.

(** X28.  Over any history of triggered reports and timer firings since
    start-up, the failure counter equals the number of failed runs since the
    last run that did not fail; a pending retry timer means at least one
    such failure and waits between 2 and 30 seconds; and the back-off the
    next failure reports is 2 seconds per consecutive failure, capped at
    30 seconds. *)
Theorem reportToDirectory_backoff (events : list Event) :
  let st := run events initial in
  consecutiveReportFailures st = failuresAtEnd (reverse events)
  ∧ 0 <= consecutiveReportFailures st
  ∧ (∀ delay : Z, reportRetryTimer st = Some delay →
       2000 <= delay <= 30000 ∧ 1 <= consecutiveReportFailures st)
  ∧ (∀ message : string,
       backoffMs (reportToDirectory (Failed message) st).1
       = Some (Z.min 30000 (2000 * (failuresAtEnd (reverse events) + 1)))).
Proof.
  cbv zeta.
  assert (consecutiveReportFailures (run events initial)
          = failuresAtEnd (reverse events)
          ∧ 0 <= consecutiveReportFailures (run events initial)
          ∧ (∀ delay : Z,
               reportRetryTimer (run events initial) = Some delay →
               2000 <= delay <= 30000
               ∧ 1 <= consecutiveReportFailures (run events initial)))
    as (Hcount & Hpos & Htimer).
  { induction events as [|e events IH] using rev_ind.
    - cbn. split; [done|]. split; [lia|]. by intros delay [=].
    - unfold run in *. rewrite foldl_snoc, reverse_snoc.
      destruct IH as (Hcount & Hpos & Htimer).
      set (st := foldl step initial events) in *.
      cbn [failuresAtEnd]. rewrite <- Hcount.
      destruct e as [[| |message]|[| |message]];
        cbn [step reportToDirectory retryTimerFires isFailure replyOf snd
             consecutiveReportFailures reportRetryTimer].
      + split; [done|]. split; [lia|]. by intros delay [=].
      + split; [done|]. split; [lia|]. by intros delay [=].
      + split; [done|]. split; [lia|]. intros delay.
        destruct (reportRetryTimer st) as [pending|] eqn:Hpending.
        * intros [= <-]. destruct (Htimer pending eq_refl). lia.
        * intros [= <-]. lia.
      + split; [done|]. split; [lia|]. by intros delay [=].
      + split; [done|]. split; [lia|]. by intros delay [=].
      + split; [done|]. split; [lia|]. intros delay [= <-]. lia. }
  split; [exact Hcount|]. split; [exact Hpos|]. split; [exact Htimer|].
  intros message. cbn [reportToDirectory fst backoffMs].
  by rewrite Hcount.
Qed.

End HeartbeatMore.

(** ** Manifests: the directory's verdict and the relay's fork detection *)

Module ManifestMore.
Local Open Scope nat_scope.

Lemma hashesOf_summary (s : Ledger.ChainSummary) :
  Directory.hashesOf (Some (Ledger.ChainSummary_toValue s))
  = VStr <$> Ledger.hashes s.
Proof.
  unfold Directory.hashesOf, Ledger.ChainSummary_toValue.
  rewrite lookup_insert_ne by discriminate.
  by rewrite lookup_insert_eq.
Qed.

Lemma firstDivergence_hashes (i : nat) (canonical candidate : list Ledger.Block) :
  Directory.firstDivergence i (VStr <$> (Ledger.hash <$> canonical))
    (VStr <$> (Ledger.hash <$> candidate))
  = Relay.firstHashMismatch i canonical candidate.
Proof.
  revert i candidate.
  induction canonical as [|a canonical IH]; intros i [|b candidate];
    cbn [fmap list_fmap Directory.firstDivergence Relay.firstHashMismatch
         strictEq]; try reflexivity.
  destruct (String.eqb (Ledger.hash a) (Ledger.hash b)); cbn [negb];
    [apply IH | reflexivity].
Qed.

Section WithRuntime.

Variable JSON_stringify : value -> string.
Variable sha256_hex : string -> string.

Local Abbreviation summaryOf :=
  (fun chain : list Ledger.Block =>
     Some (Ledger.ChainSummary_toValue
             (Ledger.getChainSummary JSON_stringify sha256_hex chain))).

(** X29.  On the summaries that relays put in their heartbeats the
    directory's comparison runs the relay's own fork search: with both
    chains non-empty it answers [divergeAt: i] exactly when
    [detectChainConflict] finds its first mismatch at [i], and otherwise
    [missingCount] by the difference in height when the relay's chain is
    the shorter one.  An empty canonical chain matches everything; an empty
    relay chain is answered with the canonical hashes as [missing]. *)
Theorem compareManifests_on_chain_summaries
    (canonicalChain relayChain : list Ledger.Block) :
  Directory.compareManifests (summaryOf canonicalChain) (summaryOf relayChain)
  = match canonicalChain, relayChain with
    | [], _ => Directory.Matches
    | _, [] => Directory.Missing (VStr <$> (Ledger.hash <$> canonicalChain))
    | _, _ =>
        match Relay.firstHashMismatch 0 canonicalChain relayChain with
        | Some i => Directory.DivergeAt i
        | None =>
            if length relayChain <? length canonicalChain
            then Directory.MissingCount
                   (length canonicalChain - length relayChain)
            else Directory.Matches
        end
    end
  ∧ ∀ (st : Relay.State) (remote : list Ledger.Block) (i : nat),
      Directory.compareManifests (summaryOf (Relay.blocks st))
        (summaryOf remote) = Directory.DivergeAt i
      ↔ Relay.divergeAt <$> Relay.detectChainConflict remote st = Some i.
Proof.
  assert (∀ canonicalChain relayChain : list Ledger.Block,
            Directory.compareManifests (summaryOf canonicalChain)
              (summaryOf relayChain)
            = match canonicalChain, relayChain with
              | [], _ => Directory.Matches
              | _, [] =>
                  Directory.Missing (VStr <$> (Ledger.hash <$> canonicalChain))
              | _, _ =>
                  match Relay.firstHashMismatch 0 canonicalChain relayChain with
                  | Some i => Directory.DivergeAt i
                  | None =>
                      if length relayChain <? length canonicalChain
                      then Directory.MissingCount
                             (length canonicalChain - length relayChain)
                      else Directory.Matches
                  end
              end) as Hcompare.
  { intros C L. unfold Directory.compareManifests.
    rewrite !hashesOf_summary.
    cbn [Ledger.hashes Ledger.getChainSummary].
    rewrite !length_fmap, firstDivergence_hashes.
    destruct C as [|c C]; [reflexivity|].
    destruct L as [|l L]; reflexivity. }
  split; [apply Hcompare|].
  intros st remote i. rewrite Hcompare.
  unfold Relay.detectChainConflict.
  destruct (Relay.blocks st) as [|a l].
  - destruct remote; split; discriminate.
  - destruct remote as [|b remote]; [split; discriminate|].
    destruct (Relay.firstHashMismatch 0 (a :: l) (b :: remote)) as [d|].
    + cbn [fmap option_fmap option_map Relay.divergeAt].
      split; intros [= ->]; reflexivity.
    + destruct (length (b :: remote) <? length (a :: l));
        split; discriminate.
Qed.

End WithRuntime.

End ManifestMore.
